(** * personal-graph: the node/edge store, the traversal engine and the
      embedding search layer, embedded in Rocq.

    The development follows two source files:
    - [src/simple_graph_sqlite/database.py]   (module [Database] below)
    - [personal_graph/persistence_layer/vector_store/sqlitevss/sqlitevss.py]
                                             (module [SQLiteVSS] below)

    Python objects that the code mutates (attribute mappings handed in by a
    caller) live in an explicit heap and are passed by reference; every
    function of the source that can raise is a computation in a state and
    exception monad.  The relational backend is a record of tables; the SQL
    files the source loads with [read_sql] are not part of the sources at
    hand, so the meaning of each statement is given by [exec], written from
    the backend schema of the specification. *)

From Stdlib Require Import ZArith Ascii String PrimFloat.
From stdpp Require Import gmap strings list fin_maps pretty.

Open Scope Z_scope.
Set Warnings "-register-all".

(** ** Python values *)

Module Py.

(** Values stored inside an attribute mapping.  [VOpaque] stands for any
    object [json.dumps] refuses ([set()], [object()], ...). *)
Inductive value :=
| VNone
| VBool (b : bool)
| VInt (z : Z)
| VStr (s : string)
| VList (l : list value)
| VDict (kvs : list (string * value))
| VOpaque.

Definition value_eq_dec : ∀ a b : value, {a = b} + {a ≠ b}.
Proof.
  fix IH 1.
  intros a; destruct a as [|x|x|x|l|kvs|]; intros [|y|y|y|l'|kvs'|];
    try (right; discriminate); try (left; reflexivity).
  - destruct (decide (x = y)); [left; congruence | right; congruence].
  - destruct (decide (x = y)); [left; congruence | right; congruence].
  - destruct (decide (x = y)); [left; congruence | right; congruence].
  - assert ({l = l'} + {l ≠ l'}) as [->|Hne].
    { revert l'. induction l as [|v l IHl]; intros [|v' l'];
        try (right; discriminate); try (left; reflexivity).
      destruct (IH v v') as [->|]; [|right; congruence].
      destruct (IHl l') as [->|]; [left; reflexivity | right; congruence]. }
    + left; reflexivity.
    + right; congruence.
  - assert ({kvs = kvs'} + {kvs ≠ kvs'}) as [->|Hne].
    { revert kvs'. induction kvs as [|[k v] l IHl]; intros [|[k' v'] l'];
        try (right; discriminate); try (left; reflexivity).
      destruct (decide (k = k')) as [->|]; [|right; congruence].
      destruct (IH v v') as [->|]; [|right; congruence].
      destruct (IHl l') as [->|]; [left; reflexivity | right; congruence]. }
    + left; reflexivity.
    + right; congruence.
Defined.

#[export] Instance value_eq : EqDecision value := value_eq_dec.

(** A node identifier: [Union[int, str]] in [models.py]. *)
Inductive ident :=
| IdInt (z : Z)
| IdStr (s : string).

#[export] Instance ident_eq_dec : EqDecision ident.
Proof. solve_decision. Defined.

Definition ident_to_sum (i : ident) : Z + string :=
  match i with IdInt z => inl z | IdStr s => inr s end.

Definition ident_of_sum (x : Z + string) : ident :=
  match x with inl z => IdInt z | inr s => IdStr s end.

#[export] Instance ident_countable : Countable ident.
Proof.
  refine (inj_countable' ident_to_sum ident_of_sum _).
  intros []; reflexivity.
Defined.

Definition ident_value (i : ident) : value :=
  match i with IdInt z => VInt z | IdStr s => VStr s end.

(** A Python [dict] with string keys.  Equality of [gmap]s is extensional,
    as [==] on dicts is. *)
Abbreviation dict := (gmap string value).

(** What [json.dumps] accepts. *)
Fixpoint serializable (v : value) : bool :=
  match v with
  | VOpaque => false
  | VList l => forallb serializable l
  | VDict kvs => forallb (fun kv => serializable (snd kv)) kvs
  | _ => true
  end.

Definition serializable_dict (d : dict) : bool :=
  bool_decide (map_Forall (fun _ v => serializable v = true) d).

(** Exceptions.  [TransactionError] is the wrapper named by the
    specification (section 4.1 and 7); no function of [database.py]
    constructs it. *)
Inductive exn :=
| TypeError
| ValueError
| IndexError
| KeyError
| InterfaceError
| IntegrityError
| EmbeddingProviderError
| TransactionError (cause : exn).

Inductive result (A : Type) :=
| Ok (a : A)
| Raise (e : exn).
Arguments Ok {A} a.
Arguments Raise {A} e.

Definition is_ok {A} (r : result A) : bool :=
  match r with Ok _ => true | Raise _ => false end.

(** Heap objects.  [ODict] is a mutable mapping; [OOther] is any object that
    is neither a mapping nor serialisable (it supports no item assignment,
    no [**] unpacking and no [json.dumps]). *)
Inductive pyobj :=
| ODict (d : dict)
| OOther.

Definition loc := nat.

(** *** JSON text of a scalar, as [json.dumps] prints it
    (ASCII-only output, the default [ensure_ascii=True]). Characters are
    code points below 256. *)

Definition quote : string := String (ascii_of_N 34) EmptyString.

Definition hex_digit (n : N) : ascii :=
  match n with
  | 0 => "0" | 1 => "1" | 2 => "2" | 3 => "3" | 4 => "4" | 5 => "5"
  | 6 => "6" | 7 => "7" | 8 => "8" | 9 => "9" | 10 => "a" | 11 => "b"
  | 12 => "c" | 13 => "d" | 14 => "e" | _ => "f"
  end%N%char.

Definition json_escape_char (c : ascii) : string :=
  let n := N_of_ascii c in
  if (n =? 34)%N then String (ascii_of_N 92) (String c EmptyString)
  else if (n =? 92)%N then "\\"
  else if (n =? 10)%N then "\n"
  else if (n =? 13)%N then "\r"
  else if (n =? 9)%N then "\t"
  else if (n =? 8)%N then "\b"
  else if (n =? 12)%N then "\f"
  else if ((32 <=? n) && (n <=? 126))%N then String c EmptyString
  else "\u00" +:+ String (hex_digit (n / 16)) (String (hex_digit (n mod 16)) EmptyString).

Fixpoint json_escape (s : string) : string :=
  match s with
  | EmptyString => EmptyString
  | String c rest => json_escape_char c +:+ json_escape rest
  end.

(** [json.dumps(tgt)] for [tgt] being [None], an [int] or a [str]. *)
Definition json_dumps_scalar (tgt : option ident) : string :=
  match tgt with
  | None => "null"
  | Some (IdInt z) => pretty z
  | Some (IdStr s) => quote +:+ json_escape s +:+ quote
  end.

End Py.
Export Py.

(** ** The relational backend *)

Module Backend.

(** A column value of a result row, and a bound parameter.  [CJson d] is a
    text column holding the JSON document [d]: the store keeps the document
    a body denotes, not its characters. *)
Inductive cell :=
| CNull
| CInt (z : Z)
| CText (s : string)
| CJson (d : dict).

#[export] Instance cell_eq_dec : EqDecision cell.
Proof. solve_decision. Defined.

Definition row := list cell.

Definition cell_of_ident (i : option ident) : cell :=
  match i with
  | None => CNull
  | Some (IdInt z) => CInt z
  | Some (IdStr s) => CText s
  end.

(** Modelled from the spec: an edge record of section 6,
    [edges(source, target, properties)]. *)
Record edge := mkEdge {
  source : option ident;
  target : option ident;
  properties : dict
}.

(** Modelled from the spec: an embedding record of section 6,
    [nodes_embedding(sequence_id, vector)] and
    [relationship_embedding(sequence_id, vector)]; [emb_id] is the
    identifier the row is addressed by. *)
Record embedding := mkEmbedding {
  emb_id : cell;
  emb_vector : list float
}.

(** Modelled from the spec: the tables of section 6, whose schema file
    ([schema.sql], [vector-store-schema.sql]) is not among the sources.
    [nodes] is keyed by the [id] column (a primary key); [edges] is
    append-only. *)
Record store := mkStore {
  nodes : gmap ident dict;
  edges : list edge;
  nodes_embedding : list embedding;
  relationship_embedding : list embedding
}.

Definition empty_store : store := mkStore ∅ [] [] [].

Definition set_nodes (f : gmap ident dict → gmap ident dict) (db : store) : store :=
  mkStore (f (nodes db)) (edges db) (nodes_embedding db) (relationship_embedding db).

Definition set_edges (f : list edge → list edge) (db : store) : store :=
  mkStore (nodes db) (f (edges db)) (nodes_embedding db) (relationship_embedding db).

Definition set_nodes_embedding (f : list embedding → list embedding) (db : store) : store :=
  mkStore (nodes db) (edges db) (f (nodes_embedding db)) (relationship_embedding db).

Definition set_relationship_embedding (f : list embedding → list embedding) (db : store) : store :=
  mkStore (nodes db) (edges db) (nodes_embedding db) (f (relationship_embedding db)).

(** The statements of the SQL files, with their parameters bound. *)
Inductive stmt :=
| PragmaForeignKeys
| InsertNode (body : dict)                        (* insert-node.sql *)
| UpdateNode (body : dict) (id : option ident)    (* update-node.sql *)
| DeleteNode (id : option ident)                  (* delete-node.sql *)
| SearchNode (id : option ident)                  (* search-node.template, id_lookup clause *)
| InsertEdge (src tgt : option ident) (props : dict)  (* insert-edge.sql *)
| DeleteEdge (src tgt : option ident)             (* delete-edge.sql *)
| SearchEdges (src tgt : option ident)            (* search-edges.sql *)
| MaxRowidNodes                                   (* SELECT COALESCE(MAX(rowid), 0) FROM nodes_embedding *)
| MaxRowidEdges                                   (* ... FROM relationship_embedding *)
| InsertNodeEmbedding (count : Z) (vector : list float)   (* insert-node-embedding.sql *)
| InsertEdgeEmbedding (count : Z) (vector : list float)   (* insert-edge-embedding.sql *)
| DeleteNodeEmbedding (key : cell)                (* delete-node-embedding.sql *)
| DeleteEdgeEmbedding (key : cell).               (* delete-edge-embedding.sql *)

(** The identifier a body carries in its ["id"] field. *)
Definition body_id (body : dict) : option ident :=
  match body !! "id" with
  | Some (VInt z) => Some (IdInt z)
  | Some (VStr s) => Some (IdStr s)
  | _ => None
  end.

(** SQL [=] between a column holding an identifier and a bound parameter:
    never true when either side is NULL. *)
Definition sql_eq (col param : option ident) : bool :=
  match col, param with
  | Some a, Some b => bool_decide (a = b)
  | _, _ => false
  end.

Definition cell_eqb (a b : cell) : bool :=
  match a, b with
  | CInt x, CInt y => bool_decide (x = y)
  | CText x, CText y => bool_decide (x = y)
  | _, _ => false
  end.

Definition edge_touches (src tgt : option ident) (e : edge) : bool :=
  sql_eq (source e) src || sql_eq (target e) tgt.

Definition edge_row (e : edge) : row :=
  [cell_of_ident (source e); cell_of_ident (target e); CJson (properties e)].

(** The integer identifiers of a table, in row order. *)
Definition rowids (t : list embedding) : list Z :=
  omap (fun e => match emb_id e with CInt z => Some z | _ => None end) t.

(** [COALESCE(MAX(rowid), 0)]: the largest integer identifier, negative
    when all of them are, and 0 only when there is none. *)
Definition max_rowid (t : list embedding) : Z :=
  match rowids t with
  | [] => 0
  | z :: zs => foldr Z.max z zs
  end.

(** Modelled from the spec: the effect of each SQL file on the tables
    (the [sql/] and [embeddings-raw-queries/] directories are not among the
    sources).  Insert takes the identifier from the body it is given and
    rejects a body without one or with one already present ([id] is the
    primary key); update rewrites the body of the row whose [id] matches;
    the deletes and searches match by equality. *)
Definition exec (st : stmt) (db : store) : result (store * list row) :=
  match st with
  | PragmaForeignKeys => Ok (db, [])
  | InsertNode body =>
      match body_id body with
      | None => Raise IntegrityError
      | Some i =>
          match nodes db !! i with
          | Some _ => Raise IntegrityError
          | None => Ok (set_nodes (insert i body) db, [])
          end
      end
  | UpdateNode body id =>
      match id with
      | None => Ok (db, [])
      | Some i =>
          match nodes db !! i with
          | Some _ => Ok (set_nodes (insert i body) db, [])
          | None => Ok (db, [])
          end
      end
  | DeleteNode id =>
      match id with
      | None => Ok (db, [])
      | Some i => Ok (set_nodes (delete i) db, [])
      end
  | SearchNode id =>
      match id with
      | None => Ok (db, [])
      | Some i =>
          match nodes db !! i with
          | Some body => Ok (db, [[CJson body]])
          | None => Ok (db, [])
          end
      end
  | InsertEdge src tgt props =>
      Ok (set_edges (fun es => es ++ [mkEdge src tgt props]) db, [])
  | DeleteEdge src tgt =>
      Ok (set_edges (List.filter (fun e => negb (edge_touches src tgt e))) db, [])
  | SearchEdges src tgt =>
      Ok (db, map edge_row (List.filter (edge_touches src tgt) (edges db)))
  | MaxRowidNodes => Ok (db, [[CInt (max_rowid (nodes_embedding db))]])
  | MaxRowidEdges => Ok (db, [[CInt (max_rowid (relationship_embedding db))]])
  | InsertNodeEmbedding count vector =>
      Ok (set_nodes_embedding (fun t => t ++ [mkEmbedding (CInt count) vector]) db, [])
  | InsertEdgeEmbedding count vector =>
      Ok (set_relationship_embedding (fun t => t ++ [mkEmbedding (CInt count) vector]) db, [])
  | DeleteNodeEmbedding key =>
      Ok (set_nodes_embedding (List.filter (fun e => negb (cell_eqb (emb_id e) key))) db, [])
  | DeleteEdgeEmbedding key =>
      Ok (set_relationship_embedding (List.filter (fun e => negb (cell_eqb (emb_id e) key))) db, [])
  end.

(** What the connection API was asked to do, in order. *)
Inductive event :=
| EvConnect (db_url auth_token : string)
| EvExecute (st : stmt)
| EvQuery (name : string)
| EvCommit
| EvRollback.

End Backend.
Export Backend.

(** ** Program state and the monad of Python computations *)

(** [committed] is what a new connection sees; [working] is the view of
    the connection in use, which becomes [committed] on [commit]. *)
Record state := mkState {
  heap : gmap loc pyobj;
  committed : store;
  working : store;
  trace : list event
}.

Definition M (A : Type) : Type := state → result A * state.

Definition ret {A} (a : A) : M A := fun s => (Ok a, s).

Definition raise {A} (e : exn) : M A := fun s => (Raise e, s).

Definition bind {A B} (m : M A) (k : A → M B) : M B :=
  fun s => match m s with
           | (Ok a, s') => k a s'
           | (Raise e, s') => (Raise e, s')
           end.

Declare Scope py_scope.
Delimit Scope py_scope with py.
Notation "x <- m ;; k" := (bind m (fun x => k))
  (at level 100, m at next level, right associativity) : py_scope.
Notation "m ;; k" := (bind m (fun _ => k))
  (at level 100, right associativity) : py_scope.
Open Scope py_scope.

Definition lift {A} (r : result A) : M A := fun s => (r, s).

(** [for x in xs: f(x)], stopping at the first exception. *)
Fixpoint for_each {A} (f : A → M unit) (xs : list A) : M unit :=
  match xs with
  | [] => ret tt
  | x :: rest => f x ;; for_each f rest
  end.

(** [[f(x) for x in xs]], evaluated left to right. *)
Fixpoint map_m {A B} (f : A → M B) (xs : list A) : M (list B) :=
  match xs with
  | [] => ret []
  | x :: rest => y <- f x ;; ys <- map_m f rest ;; ret (y :: ys)
  end.

Definition log (ev : event) (s : state) : state :=
  mkState (heap s) (committed s) (working s) (trace s ++ [ev]).

Definition set_heap (h : gmap loc pyobj) (s : state) : state :=
  mkState h (committed s) (working s) (trace s).

Definition set_working (db : store) (s : state) : state :=
  mkState (heap s) (committed s) db (trace s).

(** [libsql.connect(...)]: the new connection sees the committed tables. *)
Definition connect (db_url auth_token : string) : M unit :=
  fun s => (Ok tt, log (EvConnect db_url auth_token) (set_working (committed s) s)).

(** [cursor.execute(sql, params)]; the rows are what [fetchall] returns. *)
Definition cursor_execute (st : stmt) : M (list row) :=
  fun s => match exec st (working s) with
           | Ok (db, rows) => (Ok rows, log (EvExecute st) (set_working db s))
           | Raise e => (Raise e, log (EvExecute st) s)
           end.

(** [cursor.executemany(sql, seq_of_params)]. *)
Definition cursor_executemany {P} (mk : P → stmt) (params : list P) : M unit :=
  for_each (fun p => cursor_execute (mk p) ;; ret tt) params.

(** [connection.commit()]. *)
Definition commit : M unit :=
  fun s => (Ok tt, log EvCommit (mkState (heap s) (working s) (working s) (trace s))).

(** [connection.rollback()]. *)
Definition rollback : M unit :=
  fun s => (Ok tt, log EvRollback (set_working (committed s) s)).

Definition fetchone (rows : list row) : option row := head rows.

(** [json.loads] of a column that holds a body. *)
Definition json_loads (c : cell) : M dict :=
  match c with
  | CJson d => ret d
  | CText _ => raise ValueError
  | _ => raise TypeError
  end.

(** [json.dumps(data)] for the object [data] refers to. *)
Definition json_dumps (data : loc) : M dict :=
  fun s => match heap s !! data with
           | Some (ODict d) =>
               if serializable_dict d then (Ok d, s) else (Raise TypeError, s)
           | _ => (Raise TypeError, s)
           end.

(** [data[key] = v]. *)
Definition setitem (data : loc) (key : string) (v : value) : M unit :=
  fun s => match heap s !! data with
           | Some (ODict d) => (Ok tt, set_heap (<[data := ODict (<[key := v]> d)]> (heap s)) s)
           | _ => (Raise TypeError, s)
           end.

(** Reading the mapping behind a reference (as [**data] does). *)
Definition read_mapping (data : loc) : M dict :=
  fun s => match heap s !! data with
           | Some (ODict d) => (Ok d, s)
           | _ => (Raise TypeError, s)
           end.

(** A new dict object. *)
Definition alloc (d : dict) : M loc :=
  fun s => let l := fresh (dom (heap s)) in
           (Ok l, set_heap (<[l := ODict d]> (heap s)) s).

(** ** database.py *)

(** A function of the source that returns a closure over the cursor
    ([add_node], [find_node], ...) is here the computation the closure
    runs; the caller hands it to [atomic]. *)

Module Database.

(** [atomic(db_url, auth_token, cursor_exec_fn)].  The [finally] clause of
    the source is [if connection: pass]: nothing runs on the way out, so an
    exception raised by any step leaves through [bind] as it is. *)
Definition atomic {A} (db_url auth_token : string) (cursor_exec_fn : M A) : M A :=
  connect db_url auth_token ;;
  cursor_execute PragmaForeignKeys ;;
  results <- cursor_exec_fn ;;
  commit ;;
  ret results.

(** [_set_id]: writes into the object [data] refers to and returns the
    same reference. *)
Definition _set_id (identifier : option ident) (data : loc) : M loc :=
  match identifier with
  | Some i => setitem data "id" (ident_value i) ;; ret data
  | None => ret data
  end.

(** [_insert_node]: [insert-node.sql] is bound to one parameter, the JSON
    text of the mapping. *)
Definition _insert_node (identifier : option ident) (data : loc) : M unit :=
  d <- _set_id identifier data ;;
  body <- json_dumps d ;;
  cursor_execute (InsertNode body) ;;
  ret tt.

Definition add_node (data : loc) (identifier : option ident) : M unit :=
  _insert_node identifier data.

(** The list comprehension is built in full (every [_set_id] and
    [json.dumps]) before [executemany] sees its first element. *)
Definition add_nodes (nodes : list loc) (ids : list (option ident)) : M unit :=
  params <- map_m (fun node => d <- _set_id (fst node) (snd node) ;; json_dumps d)
                  (zip ids nodes) ;;
  cursor_executemany InsertNode params.

(** [find_node]: the query [_generate_query] renders from the
    [id_lookup] clause selects the body where [id = ?]; [not result] holds
    for [None] and for an empty row. *)
Definition find_node (identifier : option ident) : M dict :=
  rows <- cursor_execute (SearchNode identifier) ;;
  match fetchone rows with
  | None => ret ∅
  | Some [] => ret ∅
  | Some (c :: _) => json_loads c
  end.

(** [_upsert_node]: [{**current_data, **data}] is a new dict, in which the
    keys of [data] win. *)
Definition _upsert_node (identifier : option ident) (data : loc) : M unit :=
  current_data <- find_node identifier ;;
  if bool_decide (current_data = ∅) then
    (* no prior record exists, so regular insert *)
    _insert_node identifier data
  else
    (* merge the current and new data and update *)
    new_data <- read_mapping data ;;
    updated_data <- alloc (new_data ∪ current_data) ;;
    d <- _set_id identifier updated_data ;;
    body <- json_dumps d ;;
    cursor_execute (UpdateNode body identifier) ;;
    ret tt.

Definition upsert_node (identifier : option ident) (data : loc) : M unit :=
  _upsert_node identifier data.

Definition upsert_nodes (nodes : list loc) (ids : list (option ident)) : M unit :=
  for_each (fun p => _upsert_node (fst p) (snd p)) (zip ids nodes).


(** [remove_node]: [delete-edge.sql] bound to [(identifier, identifier)],
    then [delete-node.sql]. *)
Definition remove_node (identifier : option ident) : M unit :=
  cursor_execute (DeleteEdge identifier identifier) ;;
  cursor_execute (DeleteNode identifier) ;;
  ret tt.

Definition remove_nodes (identifiers : list (option ident)) : M unit :=
  cursor_executemany (fun identifier => DeleteEdge identifier identifier) identifiers ;;
  cursor_executemany DeleteNode identifiers.

(** [get_connections]: [search-edges.sql] bound to
    [(identifier, identifier)]. *)
Definition get_connections (identifier : option ident) : M (list row) :=
  cursor_execute (SearchEdges identifier identifier).


(** *** Traversal *)

(** The arguments [traverse.template] is rendered with. *)
Record neighbors_query := mkQuery {
  q_with_bodies : bool;
  q_inbound : bool;
  q_outbound : bool
}.

Definition find_neighbors (with_bodies : bool) : neighbors_query :=
  mkQuery with_bodies true true.

Definition find_outbound_neighbors (with_bodies : bool) : neighbors_query :=
  mkQuery with_bodies false true.

Definition find_inbound_neighbors (with_bodies : bool) : neighbors_query :=
  mkQuery with_bodies true false.

(** An element of the returned path: an identifier, or (with bodies) the
    whole row. *)
Inductive path_item :=
| PId (identifier : cell)
| PRow (r : row).

#[export] Instance path_item_eq_dec : EqDecision path_item.
Proof. solve_decision. Defined.

(** The [for row in rows] loop of [_traverse]; [break] ends the recursion,
    and unpacking a row that has not three columns raises [ValueError]. *)
Fixpoint _traverse_loop (with_bodies : bool) (target : string)
    (rows : list row) (path : list path_item) : result (list path_item) :=
  match rows with
  | [] => Ok path
  | row :: rest =>
      match row with
      | [] => _traverse_loop with_bodies target rest path
      | identifier :: cols =>
          if with_bodies then
            match cols with
            | [obj; _] =>
                let path := path ++ [PRow row] in
                if bool_decide (identifier = CText target) && bool_decide (obj = CText "()")
                then Ok path
                else _traverse_loop with_bodies target rest path
            | _ => Raise ValueError
            end
          else
            if bool_decide (PId identifier ∈ path)
            then _traverse_loop with_bodies target rest path
            else
              let path := path ++ [PId identifier] in
              if bool_decide (identifier = CText target)
              then Ok path
              else _traverse_loop with_bodies target rest path
      end
  end.

Section Traverse.

(** The rows the rendered [traverse.template] returns for a source on the
    given tables; the template is not among the sources, so every result
    below holds for whatever it selects. *)
Variable traverse_template : neighbors_query → option ident → store → list row.

Definition cursor_execute_traverse (q : neighbors_query) (src : option ident) : M (list row) :=
  fun s => (Ok (traverse_template q src (working s)), log (EvQuery "traverse.template") s).

(** The closure [_traverse] of [traverse]. *)
Definition _traverse (src tgt : option ident)
    (neighbors_fn : bool → neighbors_query) (with_bodies : bool) : M (list path_item) :=
  let target := json_dumps_scalar tgt in
  rows <- cursor_execute_traverse (neighbors_fn with_bodies) src ;;
  lift (_traverse_loop with_bodies target rows []).

(** [traverse] runs at once, inside its own [atomic]. *)
Definition traverse (db_url auth_token : string) (src tgt : option ident)
    (neighbors_fn : bool → neighbors_query) (with_bodies : bool) : M (list path_item) :=
  atomic db_url auth_token (_traverse src tgt neighbors_fn with_bodies).

End Traverse.

End Database.

(** ** sqlitevss.py *)

Module SQLiteVSS.

(** What the embedding provider is given: the query text of a search, or
    the JSON text of a payload (kept as the document it denotes). *)
Inductive embed_input :=
| QueryText (data : string)
| PayloadText (d : dict).

(** A row of [vector-search-node.sql]: the four leading columns and the
    distance, which the source reads as [node[4]]. *)
Record hit := mkHit {
  hit_columns : list cell;
  hit_distance : float
}.

(** [xs[:limit]] for a Python [int]: a negative bound counts from the end. *)
Definition slice_to {A} (limit : Z) (xs : list A) : list A :=
  if 0 <=? limit then take (Z.to_nat limit) xs
  else take (Z.to_nat (Z.of_nat (length xs) + limit)) xs.

(** [id[0]]. *)
Definition getitem0 (v : value) : result value :=
  match v with
  | VList (x :: _) => Ok x
  | VList [] => Raise IndexError
  | VStr (String c _) => Ok (VStr (String c EmptyString))
  | VStr EmptyString => Raise IndexError
  | VDict _ => Raise KeyError
  | _ => Raise TypeError
  end.

(** [for id in ids]. *)
Definition iterate (v : value) : result (list value) :=
  match v with
  | VList l => Ok l
  | VStr s => Ok (map (fun c => VStr (String c EmptyString)) (list_ascii_of_string s))
  | VDict kvs => Ok (map (fun kv => VStr (fst kv)) kvs)
  | _ => Raise TypeError
  end.

(** Binding a Python value as a statement parameter. *)
Definition bind_param (v : value) : result cell :=
  match v with
  | VNone => Ok CNull
  | VBool b => Ok (CInt (if b then 1 else 0))
  | VInt z => Ok (CInt z)
  | VStr s => Ok (CText s)
  | _ => Raise InterfaceError
  end.

(** Modelled from the spec: [self.db.atomic], a method of the database
    classes ([TursoDB], [SQLite]), which are not among the sources.
    Section 4.1: it opens a connection, runs the unit of work, commits on
    normal return, and on a failure rolls back and surfaces a
    [TransactionError] wrapping the cause. *)
Definition db_atomic {A} (unit_of_work : M A) : M A :=
  fun s =>
    match (connect "" "" ;; unit_of_work) s with
    | (Ok results, s') => (commit ;; ret results) s'
    | (Raise e, s') => (rollback ;; raise (TransactionError e)) s'
    end.

Definition _set_id (identifier : option ident) (data : loc) : M loc :=
  match identifier with
  | Some i => setitem data "id" (ident_value i) ;; ret data
  | None => ret data
  end.

(** [fetchone()[0] + 1] on the row of a [MAX(rowid)] query. *)
Definition next_count (rows : list row) : M Z :=
  match fetchone rows with
  | Some (CInt z :: _) => ret (z + 1)
  | Some [] => raise IndexError
  | _ => raise TypeError
  end.

(** [_remove_node]: the statement is bound to [(id[0],)]. *)
Definition _remove_node (id : value) : M unit :=
  key <- lift (getitem0 id) ;;
  p <- lift (bind_param key) ;;
  cursor_execute (DeleteNodeEmbedding p) ;;
  ret tt.

(** [_remove_edge]: one delete per element of [ids], bound to its first
    item. *)
Definition _remove_edge (ids : value) : M unit :=
  items <- lift (iterate ids) ;;
  for_each (fun id =>
              key <- lift (getitem0 id) ;;
              p <- lift (bind_param key) ;;
              cursor_execute (DeleteEdgeEmbedding p) ;;
              ret tt) items.

Definition delete_node_embedding (id : value) : M unit :=
  db_atomic (_remove_node id).

Definition delete_edge_embedding (ids : value) : M unit :=
  db_atomic (_remove_edge ids).

Section Provider.

(** The embedding provider, an external service. *)
Variable get_embedding : embed_input → result (list float).

(** The rows [vector-search-node.sql] returns for
    [(embed_json, limit, sort_by, descending)] on the given tables; the
    ranking is the vector index's business. *)
Variable vector_search_node_sql : list float → Z → string → bool → store → list hit.

(** [_add_embedding]: the identifier goes into [data] first; the closure
    commits by itself. *)
Definition _add_embedding (id : option ident) (data : loc) : M unit :=
  set_data <- _set_id id data ;;
  rows <- cursor_execute MaxRowidNodes ;;
  count <- next_count rows ;;
  payload <- json_dumps set_data ;;
  vector <- lift (get_embedding (PayloadText payload)) ;;
  cursor_execute (InsertNodeEmbedding count vector) ;;
  commit.

Definition add_node_embedding (id : option ident) (attribute : loc) : M unit :=
  db_atomic (_add_embedding id attribute).

(** The closure of [vector_search_node]: [node[4] < threshold] is the
    comparison of binary64 floats. *)
Definition _search_node (data : string) (threshold : option float)
    (descending : bool) (limit : Z) (sort_by : string) : M (option (list hit)) :=
  embed_json <- lift (get_embedding (QueryText data)) ;;
  nodes <- (fun s => (Ok (vector_search_node_sql embed_json limit sort_by descending (working s)),
                      log (EvQuery "vector-search-node.sql") s)) ;;
  match nodes with
  | [] => ret None
  | _ =>
      match threshold with
      | Some t => ret (Some (slice_to limit (List.filter (fun node => PrimFloat.ltb (hit_distance node) t) nodes)))
      | None => ret (Some (slice_to limit nodes))
      end
  end.

Definition vector_search_node (data : string) (threshold : option float)
    (descending : bool) (limit : Z) (sort_by : string) : M (option (list hit)) :=
  db_atomic (_search_node data threshold descending limit sort_by).

End Provider.

(** *** Batches, edges and the other searches *)

(** The mapping [edge_data] that [add_edge_embedding] builds; its
    ["attributes"] entry is the JSON text of the caller's attributes, kept
    as the document it denotes. *)
Record edge_data := mkEdgeData {
  source_id : option ident;
  target_id : option ident;
  label : string;
  attributes : dict
}.

(** A row of [vector-search-edge.sql] and [vector-search-edge-desc.sql]:
    the five leading columns and the distance, read as [edge[5]]. *)
Record edge_hit := mkEdgeHit {
  edge_hit_columns : list cell;
  edge_hit_distance : float
}.

(** A row of [similarity-search-node.sql] and
    [similarity-search-edge.sql]: the first column, the distance, read as
    [node[1]], and whatever follows. *)
Record similarity_hit := mkSimilarityHit {
  similarity_hit_first : cell;
  similarity_hit_distance : float;
  similarity_hit_rest : list cell
}.


Section Embeddings.

(** The embedding provider, on a query text or a node payload and on the
    JSON text of an [edge_data]. *)
Variable get_embedding : embed_input → result (list float).
Variable get_edge_embedding : edge_data → result (list float).

(** The rows of the four remaining search files for [(embed, limit)]. *)
Variable vector_search_edge_sql : list float → Z → store → list edge_hit.
Variable vector_search_edge_desc_sql : list float → Z → store → list edge_hit.
Variable similarity_search_node_sql : list float → Z → store → list similarity_hit.
Variable similarity_search_edge_sql : list float → Z → store → list similarity_hit.


(** [_add_edge_embedding]: [json.dumps(data)] cannot fail on an
    [edge_data]; the closure commits by itself. *)
Definition _add_edge_embedding (data : edge_data) : M unit :=
  rows <- cursor_execute MaxRowidEdges ;;
  count <- next_count rows ;;
  vector <- lift (get_edge_embedding data) ;;
  cursor_execute (InsertEdgeEmbedding count vector) ;;
  commit.

(** [add_edge_embedding]: [edge_data] (and with it
    [json.dumps(attributes)]) is built before the database is asked for
    anything. *)
Definition add_edge_embedding (source target : option ident) (label : string)
    (attributes : loc) : M unit :=
  attrs <- json_dumps attributes ;;
  db_atomic (_add_edge_embedding (mkEdgeData source target label attrs)).

(** [add_edge_embeddings]: one [edge_data] and one atomic unit per element
    of [zip(sources, targets, labels, attributes)]. *)
Definition add_edge_embeddings (sources targets : list (option ident))
    (labels : list string) (attributes : list loc) : M unit :=
  for_each (fun x =>
              attrs <- json_dumps (snd x) ;;
              db_atomic (_add_edge_embedding
                           (mkEdgeData (fst (fst (fst x))) (snd (fst (fst x)))
                                       (snd (fst x)) attrs)))
           (zip (zip (zip sources targets) labels) attributes).

(** The closure of [vector_search_edge]: [descending] picks the file. *)
Definition _search_edge (data : string) (threshold : option float)
    (descending : bool) (limit : Z) (sort_by : string) : M (option (list edge_hit)) :=
  embed <- lift (get_embedding (QueryText data)) ;;
  edges <- (if descending
            then (fun s => (Ok (vector_search_edge_desc_sql embed limit (working s)),
                            log (EvQuery "vector-search-edge-desc.sql") s))
            else (fun s => (Ok (vector_search_edge_sql embed limit (working s)),
                            log (EvQuery "vector-search-edge.sql") s))) ;;
  match edges with
  | [] => ret None
  | _ =>
      match threshold with
      | Some t =>
          let filtered_results :=
            List.filter (fun edge => PrimFloat.ltb (edge_hit_distance edge) t) edges in
          ret (Some (slice_to limit filtered_results))
      | None => ret (Some (slice_to limit edges))
      end
  end.

Definition vector_search_edge (data : string) (threshold : option float)
    (descending : bool) (limit : Z) (sort_by : string) : M (option (list edge_hit)) :=
  db_atomic (_search_edge data threshold descending limit sort_by).

(** The closure of [vector_search_node_from_multi_db]. *)
Definition _search_node_multi_db (data : string) (threshold : option float) (limit : Z)
    : M (option (list similarity_hit)) :=
  embed_json <- lift (get_embedding (QueryText data)) ;;
  nodes <- (fun s => (Ok (similarity_search_node_sql embed_json limit (working s)),
                      log (EvQuery "similarity-search-node.sql") s)) ;;
  match nodes with
  | [] => ret None
  | _ =>
      match threshold with
      | Some t => ret (Some (slice_to limit
                               (List.filter (fun node => PrimFloat.ltb (similarity_hit_distance node) t)
                                  nodes)))
      | None => ret (Some (slice_to limit nodes))
      end
  end.

Definition vector_search_node_from_multi_db (data : string) (threshold : option float)
    (limit : Z) : M (option (list similarity_hit)) :=
  db_atomic (_search_node_multi_db data threshold limit).

(** The closure of [vector_search_edge_from_multi_db]. *)
Definition _search_edge_multi_db (data : string) (threshold : option float) (limit : Z)
    : M (option (list similarity_hit)) :=
  embed_json <- lift (get_embedding (QueryText data)) ;;
  nodes <- (fun s => (Ok (similarity_search_edge_sql embed_json limit (working s)),
                      log (EvQuery "similarity-search-edge.sql") s)) ;;
  match nodes with
  | [] => ret None
  | _ =>
      match threshold with
      | Some t => ret (Some (slice_to limit
                               (List.filter (fun node => PrimFloat.ltb (similarity_hit_distance node) t)
                                  nodes)))
      | None => ret (Some (slice_to limit nodes))
      end
  end.

Definition vector_search_edge_from_multi_db (data : string) (threshold : option float)
    (limit : Z) : M (option (list similarity_hit)) :=
  db_atomic (_search_edge_multi_db data threshold limit).

End Embeddings.

End SQLiteVSS.

(** * Auxiliary definitions *)

(** The record found under an identifier ([None] is SQL NULL and matches
    nothing). *)
Definition node_at (identifier : option ident) (db : store) : option dict :=
  match identifier with
  | Some i => nodes db !! i
  | None => None
  end.

(** What a connection sees right after [connect] and the pragma. *)
Definition opened (db_url auth_token : string) (s : state) : state :=
  log (EvExecute PragmaForeignKeys)
    (log (EvConnect db_url auth_token) (set_working (committed s) s)).

Definition commit_state (s : state) : state :=
  log EvCommit (mkState (heap s) (working s) (working s) (trace s)).

(** The heap after [data["id"] = identifier]. *)
Definition heap_set_id (i : ident) (data : loc) (d : dict) (s : state) : state :=
  set_heap (<[data := ODict (<["id" := ident_value i]> d)]> (heap s)) s.

(** The invariant of the data model: the body stored under an identifier
    carries that identifier in its ["id"] field. *)
Definition ids_mirrored (db : store) : Prop :=
  ∀ i body, nodes db !! i = Some body → body !! "id" = Some (ident_value i).

(** A computation that only uses the cursor: it never commits. *)
Definition cursor_only {A} (f : M A) : Prop :=
  ∀ s, committed (f s).2 = committed s.

(** A computation that keeps the invariant on the connection's view. *)
Definition keeps_ids {A} (f : M A) : Prop :=
  ∀ s, ids_mirrored (working s) → ids_mirrored (working (f s).2).

(** The store operations of the node/edge store that persist nodes. *)
Inductive store_op :=
| OpAddNode (data : loc) (identifier : option ident)
| OpAddNodes (nodes : list loc) (ids : list (option ident))
| OpUpsertNode (identifier : option ident) (data : loc)
| OpUpsertNodes (nodes : list loc) (ids : list (option ident)).

Definition run_op (op : store_op) : M unit :=
  match op with
  | OpAddNode data identifier => Database.add_node data identifier
  | OpAddNodes nodes ids => Database.add_nodes nodes ids
  | OpUpsertNode identifier data => Database.upsert_node identifier data
  | OpUpsertNodes nodes ids => Database.upsert_nodes nodes ids
  end.

(** The identifiers a store operation was given by its caller (a batch
    pairs identifiers with nodes and stops at the shorter list). *)
Definition op_ids (op : store_op) : list ident :=
  match op with
  | OpAddNode _ identifier | OpUpsertNode identifier _ => option_list identifier
  | OpAddNodes nodes ids | OpUpsertNodes nodes ids => omap fst (zip ids nodes)
  end.

(** A computation that removes no node from the connection's view. *)
Definition keeps_nodes {A} (f : M A) : Prop :=
  ∀ s j, is_Some (nodes (working s) !! j) → is_Some (nodes (working (f s).2) !! j).

(** The heap and view after the update branch of [_upsert_node]: the merged
    mapping lives in a new object [l]. *)
Definition merged_state (i : ident) (merged : dict) (s : state) : state :=
  set_heap (<[fresh (dom (heap s)) := ODict merged]> (heap s))
    (log (EvExecute (SearchNode (Some i))) s).

(** Statements that keep the invariant whatever the tables hold: every
    statement but an update whose body disagrees with the row it names. *)
Definition stmt_mirrors (st : stmt) : Prop :=
  match st with
  | UpdateNode body (Some i) => body !! "id" = Some (ident_value i)
  | _ => True
  end.

(** Computations that touch neither view of the tables. *)
Definition tables_untouched {A} (m : M A) : Prop :=
  ∀ s, working (m s).2 = working s ∧ committed (m s).2 = committed s.

(** A batch element [json.dumps] cannot take, whatever identifier is put
    into it: the reference is to no mapping, or the mapping holds an
    unserialisable value under a key other than ["id"]. *)
Definition malformed (h : gmap loc pyobj) (data : loc) : Prop :=
  match h !! data with
  | Some (ODict d) => ∃ k v, k ≠ "id" ∧ d !! k = Some v ∧ serializable v = false
  | _ => True
  end.

(** One element of the list comprehension of [add_nodes]. *)
Definition dump_node (node : option ident * loc) : M dict :=
  d <- Database._set_id (fst node) (snd node) ;; json_dumps d.

(** The first column of every non-empty row, in row order. *)
Definition first_columns (rows : list row) : list cell := omap head rows.

(** The prefix of [l] that ends with the first occurrence of [t]
    (all of [l] when [t] does not occur). *)
Fixpoint upto (t : cell) (l : list cell) : list cell :=
  match l with
  | [] => []
  | x :: r => if decide (x = t) then [x] else x :: upto t r
  end.

(** [l] without the repetitions: each value stays where it first occurs. *)
Fixpoint dedup_first (l : list cell) : list cell :=
  match l with
  | [] => []
  | x :: r => x :: filter (fun y => y ≠ x) (dedup_first r)
  end.

(** What a connection opened by the database object sees. *)
Definition db_opened (s : state) : state :=
  log (EvConnect "" "") (set_working (committed s) s).

Definition rollback_state (s : state) : state :=
  log EvRollback (set_working (committed s) s).

(** An element of the argument of a delete whose first item binds to the
    statement parameter [p]. *)
Definition binds_first (item : value) (p : cell) : Prop :=
  ∃ key, SQLiteVSS.getitem0 item = Ok key ∧ SQLiteVSS.bind_param key = Ok p.

(** The row is addressed by none of the keys. *)
Definition keyed_by_none (keys : list cell) (e : embedding) : bool :=
  forallb (fun p => negb (cell_eqb (emb_id e) p)) keys.

(** The body of the loop of [_remove_edge]. *)
Definition remove_edge_step (id : value) : M unit :=
  key <- lift (SQLiteVSS.getitem0 id) ;;
  p <- lift (SQLiteVSS.bind_param key) ;;
  cursor_execute (DeleteEdgeEmbedding p) ;;
  ret tt.

(** ** Example stores *)

Definition id_n : ident := IdStr "n".
Definition id_m : ident := IdStr "m".
Definition id_A : ident := IdStr "A".
Definition id_B : ident := IdStr "B".

(** Six objects a caller holds: the three mappings of the upsert example,
    a mapping that carries an ["id"] of its own, an object that is no
    mapping, and a mapping with a nested mapping. *)
Definition demo_heap : gmap loc pyobj :=
  {[ 0%nat := ODict {["a" := VInt 1]};
     1%nat := ODict {["b" := VInt 2]};
     2%nat := ODict {["a" := VInt 3]};
     3%nat := ODict {["id" := VStr "m"]};
     4%nat := OOther;
     5%nat := ODict {["cfg" := VDict [("x", VInt 1)]]} ]}.

(** The empty store. *)
Definition demo_state : state := mkState demo_heap empty_store empty_store [].

(** A store that holds the node [n]. *)
Definition store_n : store :=
  mkStore {[ id_n := {["id" := VStr "n"]} ]} [] [] [].

Definition demo_state_n : state := mkState demo_heap store_n store_n [].

(** A store whose node [n] has a nested mapping under ["cfg"]. *)
Definition store_cfg : store :=
  mkStore {[ id_n := {["id" := VStr "n"; "cfg" := VDict [("y", VInt 2)]; "z" := VInt 0]} ]}
          [] [] [].

Definition demo_state_cfg : state := mkState demo_heap store_cfg store_cfg [].

(** Nodes [A] and [B] and the edge [A -> B]. *)
Definition store_AB : store :=
  mkStore {[ id_A := {["id" := VStr "A"]}; id_B := {["id" := VStr "B"]} ]}
          [mkEdge (Some id_A) (Some id_B) ∅] [] [].

Definition demo_state_AB : state := mkState demo_heap store_AB store_AB [].

(** Embedding tables with rows addressed by integers and by texts. *)
Definition store_emb : store :=
  mkStore ∅ []
    [mkEmbedding (CInt 1) []; mkEmbedding (CInt 2) [];
     mkEmbedding (CText "ab") []; mkEmbedding (CText "a") []]
    [mkEmbedding (CInt 1) []; mkEmbedding (CInt 2) []; mkEmbedding (CInt 3) []].

Definition demo_state_emb : state := mkState demo_heap store_emb store_emb [].

(** A traversal whose rows are [B], [C]. *)
Definition rows_BC : list row := [[CText "B"]; [CText "C"]].

Definition template_BC (q : Database.neighbors_query) (src : option ident) (db : store)
  : list row := rows_BC.

(** A traversal whose rows are [2], [1], [2], [3], [4]. *)
Definition rows_21234 : list row :=
  [[CText "2"]; [CText "1"]; [CText "2"]; [CText "3"]; [CText "4"]].

Definition template_21234 (q : Database.neighbors_query) (src : option ident) (db : store)
  : list row := rows_21234.

(** A provider that embeds everything as the empty vector, and scans that
    return two hits, at distances 0.25 and 0.75, or none. *)
Definition embed_nil (x : SQLiteVSS.embed_input) : result (list float) := Ok [].

Definition hit_near : SQLiteVSS.hit := SQLiteVSS.mkHit [] 0.25%float.
Definition hit_far : SQLiteVSS.hit := SQLiteVSS.mkHit [] 0.75%float.

Definition scan_two (v : list float) (limit : Z) (sort_by : string) (descending : bool)
    (db : store) : list SQLiteVSS.hit := [hit_near; hit_far].

Definition scan_none (v : list float) (limit : Z) (sort_by : string) (descending : bool)
    (db : store) : list SQLiteVSS.hit := [].

(** ** Vocabulary of the further properties *)

(** Two states that a unit of work cannot tell apart: same caller objects,
    same view of the tables. *)
Definition same_view (s s' : state) : Prop :=
  heap s = heap s' ∧ working s = working s'.

(** A computation whose outcome and effect depend on the caller objects and
    on the connection's view only. *)
Definition view_determined {A} (m : M A) : Prop :=
  ∀ s s', same_view s s' → (m s).1 = (m s').1 ∧ same_view (m s).2 (m s').2.

(** The edge has none of the identifiers as source or target. *)
Definition untouched_by (identifiers : list (option ident)) (e : edge) : bool :=
  forallb (fun id => negb (edge_touches id id e)) identifiers.

(** The node table without the rows of the identifiers. *)
Definition drop_nodes (identifiers : list (option ident)) (m : gmap ident dict)
  : gmap ident dict :=
  foldl (fun m id => match id with Some i => delete i m | None => m end) m identifiers.

(** What [json.dumps] makes of the object behind a reference, if it takes
    it. *)
Definition dump_of (h : gmap loc pyobj) (l : loc) : option dict :=
  match h !! l with
  | Some (ODict d) => if serializable_dict d then Some d else None
  | _ => None
  end.



(** A pair of a batch that [add_nodes] can store: an identifier that is
    free, and a reference to a mapping that is serialisable once it carries
    the identifier. *)
Definition batch_ready (h : gmap loc pyobj) (db : store) (pair : option ident * loc) : Prop :=
  ∃ i d, fst pair = Some i
         ∧ h !! snd pair = Some (ODict d)
         ∧ serializable_dict (<["id" := ident_value i]> d) = true
         ∧ nodes db !! i = None.

(** The body [add_nodes] produces for a pair, on the heap the batch starts
    from and on the heap it ends with. *)
Definition dumped (h0 h1 : gmap loc pyobj) (pair : option ident * loc) (body : dict) : Prop :=
  ∃ i d, fst pair = Some i
         ∧ h0 !! snd pair = Some (ODict d)
         ∧ body = <["id" := ident_value i]> d
         ∧ h1 !! snd pair = Some (ODict body).

(** A row [(identifier, "()", _)] whose identifier is the target text: the
    row at which a traversal with bodies stops. *)
Definition is_terminator (target : string) (r : row) : bool :=
  match r with
  | [identifier; obj; _] =>
      bool_decide (identifier = CText target) && bool_decide (obj = CText "()")
  | _ => false
  end.

(** The rows up to and including the first terminator. *)
Fixpoint upto_terminator (target : string) (rows : list row) : list row :=
  match rows with
  | [] => []
  | r :: rest => if is_terminator target r then [r] else r :: upto_terminator target rest
  end.

(** The rows that are not the empty tuple. *)
Definition non_empty_rows (rows : list row) : list row :=
  List.filter (fun r => match r with [] => false | _ => true end) rows.

(** A row a traversal with bodies can unpack or skip. *)
Definition three_or_empty (r : row) : Prop := r = [] ∨ length r = 3%nat.

(** The text begins with a double quote. *)
Definition quoted (t : string) : bool :=
  match t with
  | String c _ => Ascii.eqb c (ascii_of_N 34)
  | EmptyString => false
  end.

(** The common tail of the four searches: nothing for an empty scan,
    otherwise the rows below the threshold (all rows without one), cut at
    [limit]. *)
Definition threshold_cut {A} (distance : A → float) (threshold : option float)
    (limit : Z) (rows : list A) : option (list A) :=
  match rows with
  | [] => None
  | _ =>
      Some (SQLiteVSS.slice_to limit
              (match threshold with
               | Some t => List.filter (fun x => PrimFloat.ltb (distance x) t) rows
               | None => rows
               end))
  end.


(** The row passes the threshold of a search, if there is one. *)
Definition within {A} (distance : A → float) (threshold : option float) (x : A) : bool :=
  match threshold with
  | Some t => PrimFloat.ltb (distance x) t
  | None => true
  end.

(** What a search owes its caller for the rows [rows] of its scan: nothing
    exactly when the scan is empty; otherwise a list [l] of scan rows, in
    scan order, all within the threshold, at most [limit] of them for a
    [limit] that is not negative, and, when fewer than [limit] come back,
    every scan row within the threshold among them. *)
Definition answers_scan {A} (distance : A → float) (threshold : option float)
    (limit : Z) (rows : list A) (r : result (option (list A))) : Prop :=
  (r = Ok None ↔ rows = [])
  ∧ (rows ≠ [] →
     ∃ l, r = Ok (Some l)
          ∧ l `sublist_of` rows
          ∧ (∀ x, x ∈ l → within distance threshold x = true)
          ∧ (0 ≤ limit →
             (length l ≤ Z.to_nat limit)%nat
             ∧ ((length l < Z.to_nat limit)%nat →
                ∀ x, x ∈ rows → within distance threshold x = true → x ∈ l))).

(** ** Examples for the embedding tables and the other searches *)

(** A provider that embeds every edge as the empty vector, and one that is
    out of reach. *)
Definition embed_edge_nil (x : SQLiteVSS.edge_data) : result (list float) := Ok [].

Definition embed_down (x : SQLiteVSS.embed_input) : result (list float) :=
  Raise EmbeddingProviderError.

(** Edge scans with two hits, at distances 0.25 and 0.75, in either order. *)
Definition edge_hit_near : SQLiteVSS.edge_hit := SQLiteVSS.mkEdgeHit [] 0.25%float.
Definition edge_hit_far : SQLiteVSS.edge_hit := SQLiteVSS.mkEdgeHit [] 0.75%float.

Definition edge_scan_up (v : list float) (limit : Z) (db : store)
  : list SQLiteVSS.edge_hit := [edge_hit_near; edge_hit_far].

Definition edge_scan_down (v : list float) (limit : Z) (db : store)
  : list SQLiteVSS.edge_hit := [edge_hit_far; edge_hit_near].

(** A similarity scan with three hits, at distances 0.25, 0.75 and 0.125. *)
Definition similar_near : SQLiteVSS.similarity_hit :=
  SQLiteVSS.mkSimilarityHit (CText "n") 0.25%float [].
Definition similar_far : SQLiteVSS.similarity_hit :=
  SQLiteVSS.mkSimilarityHit (CText "m") 0.75%float [].
Definition similar_nearest : SQLiteVSS.similarity_hit :=
  SQLiteVSS.mkSimilarityHit (CText "A") 0.125%float [].

Definition similarity_scan (v : list float) (limit : Z) (db : store)
  : list SQLiteVSS.similarity_hit := [similar_near; similar_far; similar_nearest].

(** A traversal with bodies: a row, an empty row, the terminator for the
    target [2], and a row behind it. *)
Definition rows_bodies : list row :=
  [[CText "B"; CText "{}"; CText "x"]; [];
   [CText "2"; CText "()"; CText "x"]; [CText "C"; CText "()"; CText "x"]].

Definition template_bodies (q : Database.neighbors_query) (src : option ident) (db : store)
  : list row := rows_bodies.

(** An embedding table whose only row has a negative identifier. *)
Definition store_below_zero : store :=
  mkStore ∅ [] [mkEmbedding (CInt (-5)) []] [].

Definition demo_state_below_zero : state :=
  mkState demo_heap store_below_zero store_below_zero [].

(** * Properties *)

(** ** Running the primitives *)

Lemma atomic_run {A} (f : M A) db_url auth_token s :
  Database.atomic db_url auth_token f s =
  match f (opened db_url auth_token s) with
  | (Ok r, s1) => (Ok r, commit_state s1)
  | (Raise e, s1) => (Raise e, s1)
  end.
Proof.
  unfold Database.atomic, bind, connect, cursor_execute, commit, ret, opened; simpl.
  destruct (f _) as [[r|e] s1]; reflexivity.
Qed.

Lemma find_node_run identifier s :
  Database.find_node identifier s =
  (Ok (default ∅ (node_at identifier (working s))),
   log (EvExecute (SearchNode identifier)) s).
Proof.
  destruct s as [h c w t].
  unfold Database.find_node, bind, cursor_execute; simpl.
  destruct identifier as [i|]; simpl; [|reflexivity].
  destruct (nodes w !! i); reflexivity.
Qed.

(** ** C8 *)

(** C8. [find_node(id)] run through [atomic] on a store that holds no node
    under [id] returns the empty mapping; it does not raise, and it leaves
    the committed tables and the heap as they were. *)
Theorem find_node_absent_returns_empty db_url auth_token identifier s :
  node_at identifier (committed s) = None →
  ∃ s', Database.atomic db_url auth_token (Database.find_node identifier) s = (Ok ∅, s')
        ∧ committed s' = committed s ∧ heap s' = heap s.
Proof.
  intros Habs. rewrite atomic_run, find_node_run. simpl.
  rewrite Habs. simpl. eexists; split; [reflexivity|]. split; reflexivity.
Qed.

(** ** Inserting a node *)

Lemma body_id_insert i (d : dict) :
  body_id (<["id" := ident_value i]> d) = Some i.
Proof.
  unfold body_id. rewrite lookup_insert_eq. destruct i; reflexivity.
Qed.

Lemma set_id_run i data d s :
  heap s !! data = Some (ODict d) →
  Database._set_id (Some i) data s = (Ok data, heap_set_id i data d s).
Proof.
  intros Hd. unfold Database._set_id, bind, setitem, ret. rewrite Hd. reflexivity.
Qed.

Lemma set_id_not_mapping i data s :
  (∀ d, heap s !! data ≠ Some (ODict d)) →
  Database._set_id (Some i) data s = (Raise TypeError, s).
Proof.
  intros Hd. unfold Database._set_id, bind, setitem.
  destruct (heap s !! data) as [[d|]|] eqn:E; try reflexivity.
  exfalso. exact (Hd d eq_refl).
Qed.

Lemma json_dumps_after_set_id i data d s :
  json_dumps data (heap_set_id i data d s) =
  if serializable_dict (<["id" := ident_value i]> d)
  then (Ok (<["id" := ident_value i]> d), heap_set_id i data d s)
  else (Raise TypeError, heap_set_id i data d s).
Proof.
  unfold json_dumps, heap_set_id. simpl. rewrite lookup_insert_eq.
  destruct (serializable_dict _); reflexivity.
Qed.

Lemma insert_node_run i data d s :
  heap s !! data = Some (ODict d) →
  let body := <["id" := ident_value i]> d in
  let s1 := heap_set_id i data d s in
  Database._insert_node (Some i) data s =
  if serializable_dict body then
    match nodes (working s) !! i with
    | Some _ => (Raise IntegrityError, log (EvExecute (InsertNode body)) s1)
    | None => (Ok tt, log (EvExecute (InsertNode body))
                        (set_working (set_nodes (insert i body) (working s)) s1))
    end
  else (Raise TypeError, s1).
Proof.
  intros Hd body s1. unfold Database._insert_node, bind.
  rewrite (set_id_run _ _ _ _ Hd), json_dumps_after_set_id.
  subst body s1. destruct (serializable_dict _); [|reflexivity].
  unfold cursor_execute, exec. rewrite body_id_insert. simpl.
  destruct (nodes (working s) !! i); reflexivity.
Qed.

(** ** C5 *)

(** C5. Round trip.  Let [data] refer to the mapping [attrs].  When the
    identifier is free and the mapping (with its ["id"]) is serialisable,
    [add_node(data, id)] commits; and whenever it commits, a following
    [find_node(id)] returns [attrs] with ["id"] bound to the identifier,
    and nothing else. *)
Theorem find_node_after_add_node db_url auth_token s data attrs i :
  heap s !! data = Some (ODict attrs) →
  (serializable_dict (<["id" := ident_value i]> attrs) = true →
   nodes (committed s) !! i = None →
   ∃ s1, Database.atomic db_url auth_token (Database.add_node data (Some i)) s = (Ok tt, s1))
  ∧ (∀ s1, Database.atomic db_url auth_token (Database.add_node data (Some i)) s = (Ok tt, s1) →
     ∀ db_url' auth_token', ∃ s2,
       Database.atomic db_url' auth_token' (Database.find_node (Some i)) s1
       = (Ok (<["id" := ident_value i]> attrs), s2)).
Proof.
  intros Hd.
  assert (Hd' : heap (opened db_url auth_token s) !! data = Some (ODict attrs)) by exact Hd.
  rewrite atomic_run. unfold Database.add_node.
  rewrite (insert_node_run _ _ _ _ Hd'). simpl.
  split.
  - intros -> ->. eexists; reflexivity.
  - intros s1.
    destruct (serializable_dict _); [|discriminate].
    destruct (nodes (committed s) !! i); [discriminate|].
    intros [= <-] db_url' auth_token'.
    rewrite atomic_run, find_node_run. simpl.
    rewrite lookup_insert_eq. simpl. eexists; reflexivity.
Qed.

(** ** Upsert *)

Lemma upsert_absent_run identifier data s :
  default ∅ (node_at identifier (working s)) = ∅ →
  Database._upsert_node identifier data s =
  Database._insert_node identifier data (log (EvExecute (SearchNode identifier)) s).
Proof.
  intros Habs. unfold Database._upsert_node. unfold bind at 1.
  rewrite find_node_run, Habs. rewrite bool_decide_eq_true_2 by reflexivity.
  reflexivity.
Qed.

Lemma upsert_present_run i data current s :
  nodes (working s) !! i = Some current →
  current ≠ ∅ →
  Database._upsert_node (Some i) data s =
  match heap s !! data with
  | Some (ODict new) =>
      let merged := <["id" := ident_value i]> (new ∪ current) in
      let s1 := merged_state i merged s in
      if serializable_dict merged
      then (Ok tt, log (EvExecute (UpdateNode merged (Some i)))
                     (set_working (set_nodes (insert i merged) (working s)) s1))
      else (Raise TypeError, s1)
  | _ => (Raise TypeError, log (EvExecute (SearchNode (Some i))) s)
  end.
Proof.
  intros Hcur Hne. unfold Database._upsert_node. unfold bind at 1.
  rewrite find_node_run. simpl. rewrite Hcur. simpl.
  rewrite bool_decide_eq_false_2 by exact Hne.
  unfold bind, read_mapping, alloc. simpl.
  destruct (heap s !! data) as [[new|]|] eqn:Hd; try reflexivity.
  unfold Database._set_id, bind, setitem, ret, json_dumps, merged_state, set_heap, log.
  simpl. rewrite lookup_insert_eq. simpl. rewrite lookup_insert_eq, insert_insert_eq.
  destruct (serializable_dict _); [|reflexivity].
  unfold cursor_execute, exec. simpl. rewrite Hcur. reflexivity.
Qed.

(** ** The identifier invariant *)

Lemma body_id_mirrors body i :
  body_id body = Some i → body !! "id" = Some (ident_value i).
Proof.
  unfold body_id. destruct (body !! "id") as [[]|]; intros [= <-]; reflexivity.
Qed.

Lemma ids_mirrored_insert i body db :
  body !! "id" = Some (ident_value i) →
  ids_mirrored db → ids_mirrored (set_nodes (insert i body) db).
Proof.
  intros Hb Hdb j b. unfold set_nodes; simpl.
  destruct (decide (i = j)) as [->|Hne].
  - rewrite lookup_insert_eq. intros [= <-]. exact Hb.
  - rewrite lookup_insert_ne by exact Hne. apply Hdb.
Qed.

Lemma ids_mirrored_delete i db :
  ids_mirrored db → ids_mirrored (set_nodes (delete i) db).
Proof.
  intros Hdb j b. unfold set_nodes; simpl.
  intros [_ H]%lookup_delete_Some. exact (Hdb j b H).
Qed.

Lemma exec_mirrors st db db' rows :
  stmt_mirrors st → exec st db = Ok (db', rows) →
  ids_mirrored db → ids_mirrored db'.
Proof.
  intros Hst Hex Hdb. destruct st; simpl in Hex;
    repeat match type of Hex with
           | context [match ?x with _ => _ end] => destruct x eqn:?
           end;
    try discriminate; injection Hex as <- <-; try exact Hdb.
  - apply ids_mirrored_insert; [apply body_id_mirrors; assumption | exact Hdb].
  - apply ids_mirrored_insert; [exact Hst | exact Hdb].
  - apply ids_mirrored_delete; exact Hdb.
Qed.

Lemma keeps_ids_execute st : stmt_mirrors st → keeps_ids (cursor_execute st).
Proof.
  intros Hst s Hs. unfold cursor_execute.
  destruct (exec st (working s)) as [[db rows]|e] eqn:Hex; simpl; [|exact Hs].
  exact (exec_mirrors _ _ _ _ Hst Hex Hs).
Qed.

Lemma cursor_only_execute st : cursor_only (cursor_execute st).
Proof.
  intros s. unfold cursor_execute.
  destruct (exec st (working s)) as [[db rows]|e]; reflexivity.
Qed.

Lemma keeps_ids_bind {A B} (m : M A) (k : A → M B) :
  keeps_ids m → (∀ a, keeps_ids (k a)) → keeps_ids (bind m k).
Proof.
  intros Hm Hk s Hs. unfold bind. specialize (Hm s Hs).
  destruct (m s) as [[a|e] s1]; simpl in *; [apply Hk; exact Hm | exact Hm].
Qed.

Lemma cursor_only_bind {A B} (m : M A) (k : A → M B) :
  cursor_only m → (∀ a, cursor_only (k a)) → cursor_only (bind m k).
Proof.
  intros Hm Hk s. unfold bind. specialize (Hm s).
  destruct (m s) as [[a|e] s1]; simpl in *; [rewrite Hk; exact Hm | exact Hm].
Qed.

Lemma untouched_keeps_ids {A} (m : M A) : tables_untouched m → keeps_ids m.
Proof. intros H s Hs. destruct (H s) as [-> _]. exact Hs. Qed.

Lemma untouched_cursor_only {A} (m : M A) : tables_untouched m → cursor_only m.
Proof. intros H s. apply H. Qed.

Lemma untouched_ret {A} (a : A) : tables_untouched (ret a).
Proof. intros s; split; reflexivity. Qed.

Lemma untouched_raise {A} e : tables_untouched (@raise A e).
Proof. intros s; split; reflexivity. Qed.

Lemma untouched_lift {A} (r : result A) : tables_untouched (lift r).
Proof. intros s; split; reflexivity. Qed.

Lemma untouched_setitem data key v : tables_untouched (setitem data key v).
Proof.
  intros s. unfold setitem. destruct (heap s !! data) as [[d|]|]; split; reflexivity.
Qed.

Lemma untouched_json_dumps data : tables_untouched (json_dumps data).
Proof.
  intros s. unfold json_dumps. destruct (heap s !! data) as [[d|]|];
    [destruct (serializable_dict d)| |]; split; reflexivity.
Qed.

Lemma untouched_read_mapping data : tables_untouched (read_mapping data).
Proof.
  intros s. unfold read_mapping. destruct (heap s !! data) as [[d|]|]; split; reflexivity.
Qed.

Lemma untouched_alloc d : tables_untouched (alloc d).
Proof. intros s; split; reflexivity. Qed.

Lemma untouched_bind {A B} (m : M A) (k : A → M B) :
  tables_untouched m → (∀ a, tables_untouched (k a)) → tables_untouched (bind m k).
Proof.
  intros Hm Hk s. unfold bind. specialize (Hm s).
  destruct (m s) as [[a|e] s1]; simpl in *; [|exact Hm].
  destruct (Hk a s1) as [-> ->]. exact Hm.
Qed.

Lemma untouched_set_id identifier data : tables_untouched (Database._set_id identifier data).
Proof.
  destruct identifier; simpl; [|apply untouched_ret].
  apply untouched_bind; [apply untouched_setitem | intros; apply untouched_ret].
Qed.

Lemma keeps_ids_for_each {A} (f : A → M unit) xs :
  (∀ x, keeps_ids (f x)) → keeps_ids (for_each f xs).
Proof.
  intros Hf. induction xs as [|x xs IH]; simpl.
  - apply untouched_keeps_ids, untouched_ret.
  - apply keeps_ids_bind; [apply Hf | intros _; exact IH].
Qed.

Lemma cursor_only_for_each {A} (f : A → M unit) xs :
  (∀ x, cursor_only (f x)) → cursor_only (for_each f xs).
Proof.
  intros Hf. induction xs as [|x xs IH]; simpl.
  - apply untouched_cursor_only, untouched_ret.
  - apply cursor_only_bind; [apply Hf | intros _; exact IH].
Qed.

Lemma untouched_map_m {A B} (f : A → M B) xs :
  (∀ x, tables_untouched (f x)) → tables_untouched (map_m f xs).
Proof.
  intros Hf. induction xs as [|x xs IH]; simpl.
  - apply untouched_ret.
  - apply untouched_bind; [apply Hf|]. intros y.
    apply untouched_bind; [exact IH|]. intros ys. apply untouched_ret.
Qed.

Lemma keeps_ids_insert_node identifier data :
  keeps_ids (Database._insert_node identifier data).
Proof.
  unfold Database._insert_node.
  apply keeps_ids_bind; [apply untouched_keeps_ids, untouched_set_id|]. intros d.
  apply keeps_ids_bind; [apply untouched_keeps_ids, untouched_json_dumps|]. intros body.
  apply keeps_ids_bind; [apply keeps_ids_execute; exact I|]. intros _.
  apply untouched_keeps_ids, untouched_ret.
Qed.

Lemma cursor_only_insert_node identifier data :
  cursor_only (Database._insert_node identifier data).
Proof.
  unfold Database._insert_node.
  apply cursor_only_bind; [apply untouched_cursor_only, untouched_set_id|]. intros d.
  apply cursor_only_bind; [apply untouched_cursor_only, untouched_json_dumps|]. intros body.
  apply cursor_only_bind; [apply cursor_only_execute|]. intros _.
  apply untouched_cursor_only, untouched_ret.
Qed.

Lemma cursor_only_find_node identifier : cursor_only (Database.find_node identifier).
Proof. intros s. rewrite find_node_run. reflexivity. Qed.

Lemma cursor_only_upsert_node identifier data :
  cursor_only (Database._upsert_node identifier data).
Proof.
  unfold Database._upsert_node.
  apply cursor_only_bind; [apply cursor_only_find_node|]. intros current.
  destruct (bool_decide _); [apply cursor_only_insert_node|].
  apply cursor_only_bind; [apply untouched_cursor_only, untouched_read_mapping|]. intros new.
  apply cursor_only_bind; [apply untouched_cursor_only, untouched_alloc|]. intros l.
  apply cursor_only_bind; [apply untouched_cursor_only, untouched_set_id|]. intros d.
  apply cursor_only_bind; [apply untouched_cursor_only, untouched_json_dumps|]. intros body.
  apply cursor_only_bind; [apply cursor_only_execute|]. intros _.
  apply untouched_cursor_only, untouched_ret.
Qed.

Lemma keeps_ids_upsert_node identifier data :
  keeps_ids (Database._upsert_node identifier data).
Proof.
  intros s Hs.
  destruct (decide (default ∅ (node_at identifier (working s)) = ∅)) as [Habs|Hpres].
  - rewrite (upsert_absent_run _ _ _ Habs).
    apply keeps_ids_insert_node. exact Hs.
  - destruct identifier as [i|]; [|exfalso; apply Hpres; reflexivity].
    simpl in Hpres. destruct (nodes (working s) !! i) as [current|] eqn:Hcur;
      [|exfalso; apply Hpres; reflexivity].
    simpl in Hpres. rewrite (upsert_present_run _ _ _ _ Hcur Hpres).
    destruct (heap s !! data) as [[new|]|]; try exact Hs.
    simpl. destruct (serializable_dict _); simpl; [|exact Hs].
    apply ids_mirrored_insert; [apply lookup_insert_eq | exact Hs].
Qed.

Lemma cursor_only_run_op op : cursor_only (run_op op).
Proof.
  destruct op; simpl.
  - apply cursor_only_insert_node.
  - unfold Database.add_nodes.
    apply cursor_only_bind.
    + apply untouched_cursor_only, untouched_map_m. intros [id node].
      apply untouched_bind; [apply untouched_set_id | intros; apply untouched_json_dumps].
    + intros params. apply cursor_only_for_each. intros body.
      apply cursor_only_bind; [apply cursor_only_execute|].
      intros _; apply untouched_cursor_only, untouched_ret.
  - apply cursor_only_upsert_node.
  - apply cursor_only_for_each. intros p. apply cursor_only_upsert_node.
Qed.

Lemma keeps_ids_run_op op : keeps_ids (run_op op).
Proof.
  destruct op; simpl.
  - apply keeps_ids_insert_node.
  - unfold Database.add_nodes.
    apply keeps_ids_bind.
    + apply untouched_keeps_ids, untouched_map_m. intros [id node].
      apply untouched_bind; [apply untouched_set_id | intros; apply untouched_json_dumps].
    + intros params. apply keeps_ids_for_each. intros body.
      apply keeps_ids_bind; [apply keeps_ids_execute; exact I|].
      intros _; apply untouched_keeps_ids, untouched_ret.
  - apply keeps_ids_upsert_node.
  - apply keeps_ids_for_each. intros p. apply keeps_ids_upsert_node.
Qed.

(** *** The list comprehension of [add_nodes] *)

Lemma serializable_dict_false (d : dict) k v :
  d !! k = Some v → serializable v = false → serializable_dict d = false.
Proof.
  intros Hk Hv. apply bool_decide_eq_false. intros Hall.
  specialize (Hall k v Hk). simpl in Hall. congruence.
Qed.

Lemma dump_node_run id data s :
  dump_node (id, data) s =
  match heap s !! data with
  | Some (ODict d) =>
      let d' := match id with Some i => <["id" := ident_value i]> d | None => d end in
      let s' := match id with Some i => heap_set_id i data d s | None => s end in
      if serializable_dict d' then (Ok d', s') else (Raise TypeError, s')
  | _ => (Raise TypeError, s)
  end.
Proof.
  unfold dump_node; simpl fst; simpl snd. unfold bind.
  destruct (heap s !! data) as [[d|]|] eqn:Hd.
  - destruct id as [i|].
    + rewrite (set_id_run _ _ _ _ Hd), json_dumps_after_set_id. reflexivity.
    + unfold Database._set_id, ret, json_dumps. rewrite Hd. reflexivity.
  - destruct id as [i|].
    + rewrite set_id_not_mapping by (intros d; congruence). reflexivity.
    + unfold Database._set_id, ret, json_dumps. rewrite Hd. reflexivity.
  - destruct id as [i|].
    + rewrite set_id_not_mapping by (intros d; congruence). reflexivity.
    + unfold Database._set_id, ret, json_dumps. rewrite Hd. reflexivity.
Qed.

Lemma dump_node_malformed id data s :
  malformed (heap s) data → (dump_node (id, data) s).1 = Raise TypeError.
Proof.
  rewrite dump_node_run. unfold malformed.
  destruct (heap s !! data) as [[d|]|]; try reflexivity.
  intros (k & v & Hk & Hkv & Hv). simpl.
  rewrite (serializable_dict_false _ k v); [reflexivity| |exact Hv].
  destruct id; [rewrite lookup_insert_ne by congruence|]; exact Hkv.
Qed.

Lemma dump_node_raises id data s e s' :
  dump_node (id, data) s = (Raise e, s') → e = TypeError.
Proof.
  rewrite dump_node_run.
  destruct (heap s !! data) as [[d|]|]; simpl; try (intros [= <- _]; reflexivity).
  destruct (serializable_dict _); intros [= <- _]; reflexivity.
Qed.

Lemma dump_node_keeps_malformed id data s body s' l :
  dump_node (id, data) s = (Ok body, s') →
  malformed (heap s) l → malformed (heap s') l.
Proof.
  rewrite dump_node_run.
  destruct (heap s !! data) as [[d|]|] eqn:Hd; simpl; try (intros [=]; fail).
  destruct (serializable_dict _); [|intros [=]].
  intros [= _ <-]. destruct id as [i|]; [|intros H; exact H].
  unfold malformed. simpl.
  destruct (decide (data = l)) as [<-|Hne].
  - rewrite Hd, lookup_insert_eq. intros (k & v & Hk & Hkv & Hv).
    exists k, v. rewrite lookup_insert_ne by congruence. auto.
  - rewrite lookup_insert_ne by exact Hne. intros H; exact H.
Qed.

Lemma map_m_dump_malformed batch s :
  (∃ id data, (id, data) ∈ batch ∧ malformed (heap s) data) →
  (map_m dump_node batch s).1 = Raise TypeError.
Proof.
  revert s. induction batch as [|[id data] batch IH]; intros s (id' & data' & Hin & Hbad).
  - apply elem_of_nil in Hin. contradiction.
  - simpl. unfold bind at 1.
    destruct (dump_node (id, data) s) as [[body|e] s1] eqn:Hstep.
    + apply elem_of_cons in Hin as [[= -> ->]|Hin].
      * pose proof (dump_node_malformed id data s Hbad) as H.
        rewrite Hstep in H. discriminate H.
      * unfold bind. specialize (IH s1).
        destruct (map_m dump_node batch s1) as [[ys|e] s2]; simpl in *.
        -- exfalso. assert (Ok ys = Raise TypeError) as H; [|discriminate H].
           apply IH. exists id', data'. split; [exact Hin|].
           exact (dump_node_keeps_malformed _ _ _ _ _ _ Hstep Hbad).
        -- apply IH. exists id', data'. split; [exact Hin|].
           exact (dump_node_keeps_malformed _ _ _ _ _ _ Hstep Hbad).
    + simpl. f_equal. exact (dump_node_raises _ _ _ _ _ Hstep).
Qed.

Lemma add_nodes_unfold nodes ids :
  Database.add_nodes nodes ids =
  (params <- map_m dump_node (zip ids nodes) ;; cursor_executemany InsertNode params).
Proof. reflexivity. Qed.

(** *** Nodes an operation was given are in the store when it returns *)

Lemma untouched_keeps_nodes {A} (m : M A) : tables_untouched m → keeps_nodes m.
Proof. intros H s j Hj. destruct (H s) as [-> _]. exact Hj. Qed.

Lemma keeps_nodes_bind {A B} (m : M A) (k : A → M B) :
  keeps_nodes m → (∀ a, keeps_nodes (k a)) → keeps_nodes (bind m k).
Proof.
  intros Hm Hk s j Hj. unfold bind. specialize (Hm s j Hj).
  destruct (m s) as [[a|e] s1]; simpl in *; [apply Hk; exact Hm | exact Hm].
Qed.

Lemma keeps_nodes_for_each {A} (f : A → M unit) xs :
  (∀ x, keeps_nodes (f x)) → keeps_nodes (for_each f xs).
Proof.
  intros Hf. induction xs as [|x xs IH]; simpl.
  - apply untouched_keeps_nodes, untouched_ret.
  - apply keeps_nodes_bind; [apply Hf | intros _; exact IH].
Qed.

Lemma keeps_nodes_insert body : keeps_nodes (cursor_execute (InsertNode body)).
Proof.
  intros s j Hj. unfold cursor_execute, exec.
  destruct (body_id body) as [i|]; [|exact Hj].
  destruct (nodes (working s) !! i) eqn:Hi; [exact Hj|]. simpl.
  destruct (decide (i = j)) as [->|Hne].
  - rewrite lookup_insert_eq. eauto.
  - rewrite lookup_insert_ne by exact Hne. exact Hj.
Qed.

Lemma keeps_nodes_update body id : keeps_nodes (cursor_execute (UpdateNode body id)).
Proof.
  intros s j Hj. unfold cursor_execute, exec.
  destruct id as [i|]; [|exact Hj].
  destruct (nodes (working s) !! i) eqn:Hi; [|exact Hj]. simpl.
  destruct (decide (i = j)) as [->|Hne].
  - rewrite lookup_insert_eq. eauto.
  - rewrite lookup_insert_ne by exact Hne. exact Hj.
Qed.

Lemma keeps_nodes_find_node identifier : keeps_nodes (Database.find_node identifier).
Proof. intros s j Hj. rewrite find_node_run. exact Hj. Qed.

Lemma keeps_nodes_insert_node identifier data :
  keeps_nodes (Database._insert_node identifier data).
Proof.
  unfold Database._insert_node.
  apply keeps_nodes_bind; [apply untouched_keeps_nodes, untouched_set_id|]. intros d.
  apply keeps_nodes_bind; [apply untouched_keeps_nodes, untouched_json_dumps|]. intros body.
  apply keeps_nodes_bind; [apply keeps_nodes_insert|]. intros _.
  apply untouched_keeps_nodes, untouched_ret.
Qed.

Lemma keeps_nodes_upsert_node identifier data :
  keeps_nodes (Database._upsert_node identifier data).
Proof.
  unfold Database._upsert_node.
  apply keeps_nodes_bind; [apply keeps_nodes_find_node|]. intros current.
  destruct (bool_decide _); [apply keeps_nodes_insert_node|].
  apply keeps_nodes_bind; [apply untouched_keeps_nodes, untouched_read_mapping|]. intros new.
  apply keeps_nodes_bind; [apply untouched_keeps_nodes, untouched_alloc|]. intros l.
  apply keeps_nodes_bind; [apply untouched_keeps_nodes, untouched_set_id|]. intros d.
  apply keeps_nodes_bind; [apply untouched_keeps_nodes, untouched_json_dumps|]. intros body.
  apply keeps_nodes_bind; [apply keeps_nodes_update|]. intros _.
  apply untouched_keeps_nodes, untouched_ret.
Qed.

Lemma insert_node_stores i data s s' :
  Database._insert_node (Some i) data s = (Ok tt, s') →
  is_Some (nodes (working s') !! i).
Proof.
  destruct (heap s !! data) as [[d|]|] eqn:Hd.
  - rewrite (insert_node_run _ _ _ _ Hd). simpl.
    destruct (serializable_dict _); [|intros [=]].
    destruct (nodes (working s) !! i); intros [= <-]. simpl.
    rewrite lookup_insert_eq. eauto.
  - unfold Database._insert_node, bind.
    rewrite set_id_not_mapping by (intros d; congruence). intros [=].
  - unfold Database._insert_node, bind.
    rewrite set_id_not_mapping by (intros d; congruence). intros [=].
Qed.

Lemma upsert_node_stores i data s s' :
  Database._upsert_node (Some i) data s = (Ok tt, s') →
  is_Some (nodes (working s') !! i).
Proof.
  destruct (decide (default ∅ (node_at (Some i) (working s)) = ∅)) as [Habs|Hpres].
  - rewrite (upsert_absent_run _ _ _ Habs). apply insert_node_stores.
  - simpl in Hpres. destruct (nodes (working s) !! i) as [current|] eqn:Hcur;
      [|exfalso; apply Hpres; reflexivity].
    simpl in Hpres. rewrite (upsert_present_run _ _ _ _ Hcur Hpres).
    destruct (heap s !! data) as [[new|]|]; try (intros [=]; fail).
    simpl. destruct (serializable_dict _); intros [= <-]. simpl.
    rewrite lookup_insert_eq. eauto.
Qed.

Lemma for_each_upsert_stores batch s s' i :
  for_each (fun p => Database._upsert_node (fst p) (snd p)) batch s = (Ok tt, s') →
  i ∈ omap fst batch →
  is_Some (nodes (working s') !! i).
Proof.
  revert s. induction batch as [|[id data] batch IH]; intros s Hrun Hi.
  - apply elem_of_nil in Hi. contradiction.
  - simpl in Hrun. unfold bind in Hrun at 1. simpl in Hrun.
    destruct (Database._upsert_node id data s) as [[[]|e] s1] eqn:Hstep; [|discriminate Hrun].
    simpl in Hi. destruct id as [i0|]; simpl in Hi.
    + apply elem_of_cons in Hi as [->|Hi]; [|exact (IH s1 Hrun Hi)].
      pose proof (keeps_nodes_for_each
                    (fun p => Database._upsert_node (fst p) (snd p)) batch
                    (fun p => keeps_nodes_upsert_node _ _) s1 i0
                    (upsert_node_stores _ _ _ _ Hstep)) as H.
      rewrite Hrun in H. exact H.
    + exact (IH s1 Hrun Hi).
Qed.

Lemma dump_node_body_id id data s body s' :
  dump_node (id, data) s = (Ok body, s') →
  working s' = working s ∧ ∀ i, id = Some i → body_id body = Some i.
Proof.
  rewrite dump_node_run.
  destruct (heap s !! data) as [[d|]|]; simpl; try (intros [=]; fail).
  destruct (serializable_dict _); intros [= <- <-].
  destruct id as [i0|]; (split; [reflexivity|]); intros i [= <-].
  apply body_id_insert.
Qed.

Lemma map_m_dump_body_ids batch s params s' :
  map_m dump_node batch s = (Ok params, s') →
  working s' = working s
  ∧ ∀ i, i ∈ omap fst batch → ∃ body, body ∈ params ∧ body_id body = Some i.
Proof.
  revert s params. induction batch as [|[id data] batch IH]; intros s params Hrun.
  - injection Hrun as <- <-. split; [reflexivity|]. intros i Hi.
    apply elem_of_nil in Hi. contradiction.
  - simpl in Hrun. unfold bind in Hrun at 1.
    destruct (dump_node (id, data) s) as [[body|e] s1] eqn:Hstep; [|discriminate Hrun].
    unfold bind in Hrun.
    destruct (map_m dump_node batch s1) as [[ps|e] s2] eqn:Hrest; [|discriminate Hrun].
    injection Hrun as <- <-.
    destruct (dump_node_body_id _ _ _ _ _ Hstep) as [Hw1 Hid].
    destruct (IH _ _ Hrest) as [Hw2 Hin].
    split; [rewrite Hw2; exact Hw1|].
    intros i Hi. simpl in Hi. destruct id as [i0|]; simpl in Hi.
    + apply elem_of_cons in Hi as [->|Hi].
      * exists body. split; [left | apply Hid; reflexivity].
      * destruct (Hin i Hi) as (b & Hb & Hbid). exists b. split; [right; exact Hb | exact Hbid].
    + destruct (Hin i Hi) as (b & Hb & Hbid). exists b. split; [right; exact Hb | exact Hbid].
Qed.

Lemma executemany_insert_stores params s s' body i :
  cursor_executemany InsertNode params s = (Ok tt, s') →
  body ∈ params → body_id body = Some i →
  is_Some (nodes (working s') !! i).
Proof.
  unfold cursor_executemany. revert s.
  induction params as [|p params IH]; intros s Hrun Hin Hid.
  - apply elem_of_nil in Hin. contradiction.
  - simpl in Hrun. unfold bind in Hrun at 1.
    destruct ((cursor_execute (InsertNode p);; ret tt) s) as [[[]|e] s1] eqn:Hstep;
      [|discriminate Hrun].
    apply elem_of_cons in Hin as [->|Hin]; [|exact (IH s1 Hrun Hin Hid)].
    assert (is_Some (nodes (working s1) !! i)) as Hs1.
    { revert Hstep. unfold bind, cursor_execute, exec, ret. rewrite Hid.
      destruct (nodes (working s) !! i); intros [= <-]. simpl.
      rewrite lookup_insert_eq. eauto. }
    pose proof (keeps_nodes_for_each
                  (fun p => cursor_execute (InsertNode p);; ret tt) params
                  (fun p => keeps_nodes_bind _ _ (keeps_nodes_insert p)
                              (fun _ => untouched_keeps_nodes _ (untouched_ret tt)))
                  s1 i Hs1) as H.
    rewrite Hrun in H. exact H.
Qed.

Lemma run_op_stores op s s' i :
  run_op op s = (Ok tt, s') → i ∈ op_ids op → is_Some (nodes (working s') !! i).
Proof.
  destruct op as [data identifier|nodes ids|identifier data|nodes ids]; simpl; intros Hrun Hi.
  - destruct identifier as [i0|]; simpl in Hi; [|apply elem_of_nil in Hi; contradiction].
    apply list_elem_of_singleton in Hi. subst i0.
    exact (insert_node_stores _ _ _ _ Hrun).
  - rewrite add_nodes_unfold in Hrun. unfold bind in Hrun.
    destruct (map_m dump_node (zip ids nodes) s) as [[params|e] s1] eqn:Hdump;
      [|discriminate Hrun].
    destruct (map_m_dump_body_ids _ _ _ _ Hdump) as [_ Hin].
    destruct (Hin i Hi) as (body & Hb & Hbid).
    exact (executemany_insert_stores _ _ _ _ _ Hrun Hb Hbid).
  - destruct identifier as [i0|]; simpl in Hi; [|apply elem_of_nil in Hi; contradiction].
    apply list_elem_of_singleton in Hi. subst i0.
    exact (upsert_node_stores _ _ _ _ Hrun).
  - exact (for_each_upsert_stores _ _ _ _ Hrun Hi).
Qed.

(** What [atomic] leaves committed, for a unit of work that only uses the
    cursor: its view of the tables on normal return, the old tables on an
    exception. *)
Lemma atomic_committed {A} (f : M A) db_url auth_token s :
  cursor_only f →
  committed (Database.atomic db_url auth_token f s).2 =
  match f (opened db_url auth_token s) with
  | (Ok _, s1) => working s1
  | (Raise _, _) => committed s
  end.
Proof.
  intros Hf. rewrite atomic_run. specialize (Hf (opened db_url auth_token s)).
  destruct (f _) as [[r|e] s1]; simpl in *; [reflexivity | exact Hf].
Qed.

(** ** C7 *)

(** C7. Every node that is in the store after [add_node], [add_nodes],
    [upsert_node] or [upsert_nodes] (with an identifier or with [None]) has
    a body whose ["id"] field is the identifier the node is stored under:
    each operation, run through [atomic], keeps [ids_mirrored] on the
    committed tables.  And when the operation returns normally, every
    identifier the caller assigned has its node in the store, with that
    identifier in the ["id"] field of the body. *)
Theorem store_ops_keep_id_mirrored op db_url auth_token s :
  ids_mirrored (committed s) →
  ids_mirrored (committed (Database.atomic db_url auth_token (run_op op) s).2)
  ∧ (∀ s', Database.atomic db_url auth_token (run_op op) s = (Ok tt, s') →
       ∀ i, i ∈ op_ids op →
         ∃ body, nodes (committed s') !! i = Some body
                 ∧ body !! "id" = Some (ident_value i)).
Proof.
  intros Hs.
  assert (ids_mirrored (committed (Database.atomic db_url auth_token (run_op op) s).2)) as Hinv.
  { rewrite (atomic_committed _ _ _ _ (cursor_only_run_op op)).
    pose proof (keeps_ids_run_op op (opened db_url auth_token s) Hs) as Hk.
    destruct (run_op op _) as [[r|e] s1]; simpl in *; [exact Hk | exact Hs]. }
  split; [exact Hinv|].
  intros s' Hrun i Hi. rewrite Hrun in Hinv. simpl in Hinv.
  rewrite atomic_run in Hrun.
  destruct (run_op op (opened db_url auth_token s)) as [[[]|e] s1] eqn:Hop;
    [|discriminate Hrun].
  injection Hrun as <-.
  destruct (run_op_stores _ _ _ _ Hop Hi) as [body Hbody].
  exists body. split; [exact Hbody|]. exact (Hinv i body Hbody).
Qed.

(** ** C2 *)

Lemma atomic_upsert_absent db_url auth_token i data new s :
  heap s !! data = Some (ODict new) →
  nodes (committed s) !! i = None →
  serializable_dict (<["id" := ident_value i]> new) = true →
  ∃ s', Database.atomic db_url auth_token (Database.upsert_node (Some i) data) s = (Ok tt, s')
        ∧ heap s' = <[data := ODict (<["id" := ident_value i]> new)]> (heap s)
        ∧ committed s' = set_nodes (insert i (<["id" := ident_value i]> new)) (committed s).
Proof.
  intros Hd Habs Hser. rewrite atomic_run. unfold Database.upsert_node.
  rewrite upsert_absent_run by (simpl; rewrite Habs; reflexivity).
  erewrite insert_node_run by exact Hd.
  rewrite Hser. simpl. rewrite Habs.
  eexists; split; [reflexivity|]. split; reflexivity.
Qed.

Lemma atomic_upsert_present db_url auth_token i data new old s :
  heap s !! data = Some (ODict new) →
  nodes (committed s) !! i = Some old →
  old ≠ ∅ →
  serializable_dict (<["id" := ident_value i]> (new ∪ old)) = true →
  ∃ s', Database.atomic db_url auth_token (Database.upsert_node (Some i) data) s = (Ok tt, s')
        ∧ heap s' = <[fresh (dom (heap s)) := ODict (<["id" := ident_value i]> (new ∪ old))]> (heap s)
        ∧ committed s' = set_nodes (insert i (<["id" := ident_value i]> (new ∪ old))) (committed s).
Proof.
  intros Hd Hold Hne Hser. rewrite atomic_run. unfold Database.upsert_node.
  erewrite upsert_present_run by (try exact Hold; exact Hne).
  simpl. rewrite Hd, Hser.
  eexists; split; [reflexivity|]. split; reflexivity.
Qed.

Lemma atomic_find_node db_url auth_token identifier s :
  (Database.atomic db_url auth_token (Database.find_node identifier) s).1
  = Ok (default ∅ (node_at identifier (committed s))).
Proof. rewrite atomic_run, find_node_run. reflexivity. Qed.

Lemma serializable_ident i : serializable (ident_value i) = true.
Proof. destruct i; reflexivity. Qed.

Lemma serializable_dict_insert k v (d : dict) :
  serializable v = true → serializable_dict d = true →
  serializable_dict (<[k := v]> d) = true.
Proof.
  unfold serializable_dict. intros Hv Hd%bool_decide_eq_true.
  apply bool_decide_eq_true. apply map_Forall_insert_2; assumption.
Qed.

Lemma serializable_dict_union (d1 d2 : dict) :
  serializable_dict d1 = true → serializable_dict d2 = true →
  serializable_dict (d1 ∪ d2) = true.
Proof.
  unfold serializable_dict. intros H1%bool_decide_eq_true H2%bool_decide_eq_true.
  apply bool_decide_eq_true. intros k v [H|[_ H]]%lookup_union_Some_raw.
  - exact (H1 k v H).
  - exact (H2 k v H).
Qed.

Lemma serializable_dict_singleton k v :
  serializable v = true → serializable_dict ({[k := v]} : dict) = true.
Proof.
  intros Hv. apply bool_decide_eq_true. apply map_Forall_singleton. exact Hv.
Qed.

Ltac dict_eq :=
  let k := fresh "k" in
  apply map_eq; intros k;
  destruct (decide (k = "id")) as [->|];
    [|destruct (decide (k = "a")) as [->|];
      [|destruct (decide (k = "b")) as [->|]]];
  rewrite ?lookup_insert_eq, ?lookup_insert_ne, ?lookup_union,
    ?lookup_insert_eq, ?lookup_insert_ne, ?lookup_singleton_eq,
    ?lookup_singleton_ne, ?lookup_empty by done;
  try done.

Lemma odict_inj (d d' : dict) : Some (ODict d) = Some (ODict d') → d = d'.
Proof. congruence. Qed.

Lemma upsert_stored_lookup i (new old : dict) k :
  k ≠ "id" →
  (<["id" := ident_value i]> (new ∪ old)) !! k
  = match new !! k with Some v => Some v | None => old !! k end.
Proof.
  intros Hk. rewrite lookup_insert_ne by congruence. rewrite lookup_union.
  destruct (new !! k), (old !! k); reflexivity.
Qed.

(** C2 (amended). [upsert_node(id, data)] looks the record up by [id].
    With no record it behaves as [add_node(data, id)]: same outcome, same
    committed tables, same heap.  With a record [old] it stores the
    top-level merge of [old] and [data] with ["id"] set to the identifier:
    every key of [data] other than ["id"] takes the value [data] gives it
    (whatever that value is, a nested mapping included), every key absent
    from [data] keeps the value of [old], and ["id"] is the identifier;
    other nodes are untouched.  Hence the three upserts of the example
    leave [{"id": id, "a": 1, "b": 2}] and then [{"id": id, "a": 3, "b": 2}]. *)
Theorem upsert_node_shallow_merge db_url auth_token i :
  (∀ s data new,
     heap s !! data = Some (ODict new) →
     nodes (committed s) !! i = None →
     let up := Database.atomic db_url auth_token (Database.upsert_node (Some i) data) s in
     let add := Database.atomic db_url auth_token (Database.add_node data (Some i)) s in
     up.1 = add.1 ∧ committed up.2 = committed add.2 ∧ heap up.2 = heap add.2)
  ∧ (∀ s data new old,
       heap s !! data = Some (ODict new) →
       nodes (committed s) !! i = Some old →
       old ≠ ∅ →
       serializable_dict (<["id" := ident_value i]> (new ∪ old)) = true →
       ∃ s' stored,
         Database.atomic db_url auth_token (Database.upsert_node (Some i) data) s = (Ok tt, s')
         ∧ nodes (committed s') !! i = Some stored
         ∧ stored !! "id" = Some (ident_value i)
         ∧ (∀ k, k ≠ "id" →
              stored !! k = match new !! k with Some v => Some v | None => old !! k end)
         ∧ (∀ j, j ≠ i → nodes (committed s') !! j = nodes (committed s) !! j))
  ∧ (∀ s d1 d2 d3,
       heap s !! d1 = Some (ODict {["a" := VInt 1]}) →
       heap s !! d2 = Some (ODict {["b" := VInt 2]}) →
       heap s !! d3 = Some (ODict {["a" := VInt 3]}) →
       nodes (committed s) !! i = None →
       ∃ s1 s2 s3,
         Database.atomic db_url auth_token (Database.upsert_node (Some i) d1) s = (Ok tt, s1)
         ∧ Database.atomic db_url auth_token (Database.upsert_node (Some i) d2) s1 = (Ok tt, s2)
         ∧ (Database.atomic db_url auth_token (Database.find_node (Some i)) s2).1
           = Ok {["id" := ident_value i; "a" := VInt 1; "b" := VInt 2]}
         ∧ Database.atomic db_url auth_token (Database.upsert_node (Some i) d3) s2 = (Ok tt, s3)
         ∧ (Database.atomic db_url auth_token (Database.find_node (Some i)) s3).1
           = Ok {["id" := ident_value i; "a" := VInt 3; "b" := VInt 2]}).
Proof.
  split; [|split].
  - intros s data new Hd Habs up add. subst up add.
    rewrite !atomic_run. unfold Database.upsert_node, Database.add_node.
    rewrite upsert_absent_run by (simpl; rewrite Habs; reflexivity).
    erewrite !insert_node_run by exact Hd.
    simpl. rewrite Habs.
    destruct (serializable_dict _); simpl; repeat split; reflexivity.
  - intros s data new old Hd Hold Hne Hser.
    destruct (atomic_upsert_present db_url auth_token _ _ _ _ _ Hd Hold Hne Hser)
      as (s' & Hrun & _ & Hc).
    exists s', (<["id" := ident_value i]> (new ∪ old)).
    split; [exact Hrun|]. rewrite Hc. simpl.
    split; [apply lookup_insert_eq|].
    split; [apply lookup_insert_eq|].
    split; [intros k Hk; apply upsert_stored_lookup; exact Hk|].
    intros j Hj. apply lookup_insert_ne. congruence.
  - intros s d1 d2 d3 H1 H2 H3 Habs.
    assert (d1 ≠ d2) as H12.
    { intros ->. rewrite H1 in H2. apply odict_inj in H2.
      apply (f_equal (lookup "a")) in H2.
      rewrite lookup_singleton_eq, lookup_singleton_ne in H2 by done. discriminate H2. }
    assert (d1 ≠ d3) as H13.
    { intros ->. rewrite H1 in H3. apply odict_inj in H3.
      apply (f_equal (lookup "a")) in H3.
      rewrite !lookup_singleton_eq in H3. discriminate H3. }
    destruct (atomic_upsert_absent db_url auth_token i d1 _ s H1 Habs)
      as (s1 & Hrun1 & Hh1 & Hc1).
    { apply serializable_dict_insert; [apply serializable_ident|].
      apply serializable_dict_singleton; reflexivity. }
    assert (heap s1 !! d2 = Some (ODict {["b" := VInt 2]})) as H2'.
    { rewrite Hh1, lookup_insert_ne by exact H12. exact H2. }
    assert (heap s1 !! d3 = Some (ODict {["a" := VInt 3]})) as H3'.
    { rewrite Hh1, lookup_insert_ne by exact H13. exact H3. }
    destruct (atomic_upsert_present db_url auth_token i d2 _
                (<["id" := ident_value i]> {["a" := VInt 1]}) s1 H2')
      as (s2 & Hrun2 & Hh2 & Hc2).
    { rewrite Hc1. apply lookup_insert_eq. }
    { apply insert_non_empty. }
    { apply serializable_dict_insert; [apply serializable_ident|].
      apply serializable_dict_union; [apply serializable_dict_singleton; reflexivity|].
      apply serializable_dict_insert; [apply serializable_ident|].
      apply serializable_dict_singleton; reflexivity. }
    assert (heap s2 !! d3 = Some (ODict {["a" := VInt 3]})) as H3''.
    { rewrite Hh2, lookup_insert_ne; [exact H3'|].
      intros Heq. apply (is_fresh (dom (heap s1))). rewrite Heq.
      apply elem_of_dom. rewrite H3'. eauto. }
    assert (<["id" := ident_value i]> (({["b" := VInt 2]} : dict)
                                         ∪ <["id" := ident_value i]> {["a" := VInt 1]})
            = {["id" := ident_value i; "a" := VInt 1; "b" := VInt 2]}) as Hm2
      by dict_eq.
    rewrite Hm2 in Hc2.
    destruct (atomic_upsert_present db_url auth_token i d3 _
                {["id" := ident_value i; "a" := VInt 1; "b" := VInt 2]} s2 H3'')
      as (s3 & Hrun3 & Hh3 & Hc3).
    { rewrite Hc2. apply lookup_insert_eq. }
    { apply insert_non_empty. }
    { apply serializable_dict_insert; [apply serializable_ident|].
      apply serializable_dict_union; [apply serializable_dict_singleton; reflexivity|].
      apply serializable_dict_insert; [apply serializable_ident|].
      apply serializable_dict_insert; [reflexivity|].
      apply serializable_dict_singleton; reflexivity. }
    exists s1, s2, s3.
    split; [exact Hrun1|]. split; [exact Hrun2|].
    split.
    { rewrite atomic_find_node, Hc2. simpl. rewrite lookup_insert_eq. reflexivity. }
    split; [exact Hrun3|].
    rewrite atomic_find_node, Hc3. simpl. rewrite lookup_insert_eq. simpl.
    f_equal; try dict_eq.
Qed.

(** ** C1 *)

(** C1 (amended).  [atomic] opens a connection (which sees the committed
    tables), sets the pragma, runs the unit of work on it and, on normal
    return, commits and hands the result back.  When the
    unit of work raises, [atomic] commits nothing and does nothing else:
    the exception reaches the caller as it was raised, the committed tables
    are the ones from before the call, and that is what the next connection
    sees.  In particular [add_nodes] on a batch with a malformed element
    raises [TypeError] and leaves the committed tables unchanged, and so
    does any other failure of the batch. *)
Theorem atomic_commits_or_propagates {A} (f : M A) db_url auth_token s :
  (working (opened db_url auth_token s) = committed s
   ∧ trace (opened db_url auth_token s)
     = trace s ++ [EvConnect db_url auth_token; EvExecute PragmaForeignKeys])
  ∧ (∀ r s1, f (opened db_url auth_token s) = (Ok r, s1) →
       Database.atomic db_url auth_token f s = (Ok r, commit_state s1)
       ∧ committed (commit_state s1) = working s1
       ∧ trace (commit_state s1) = trace s1 ++ [EvCommit])
  ∧ (∀ e s1, f (opened db_url auth_token s) = (Raise e, s1) →
       Database.atomic db_url auth_token f s = (Raise e, s1)
       ∧ (cursor_only f →
          committed s1 = committed s
          ∧ ∀ db_url' auth_token', working (opened db_url' auth_token' s1) = committed s))
  ∧ (∀ nodes ids,
       let r := Database.atomic db_url auth_token (Database.add_nodes nodes ids) s in
       ((∃ id data, (id, data) ∈ zip ids nodes ∧ malformed (heap s) data) →
        r.1 = Raise TypeError)
       ∧ (∀ e, r.1 = Raise e → committed r.2 = committed s)).
Proof.
  split; [|split; [|split]].
  - split; [reflexivity|]. simpl. rewrite <- app_assoc. reflexivity.
  - intros r s1 Hrun. rewrite atomic_run, Hrun. repeat split.
  - intros e s1 Hrun. rewrite atomic_run, Hrun.
    split; [reflexivity|]. intros Hf.
    assert (committed s1 = committed s) as Hc.
    { specialize (Hf (opened db_url auth_token s)). rewrite Hrun in Hf. exact Hf. }
    split; [exact Hc|]. intros; simpl. exact Hc.
  - intros nodes ids r. subst r. split.
    + intros Hbad. rewrite atomic_run, add_nodes_unfold. unfold bind at 1.
      pose proof (map_m_dump_malformed (zip ids nodes) (opened db_url auth_token s) Hbad) as H.
      destruct (map_m dump_node _ _) as [[ps|e] s1]; simpl in *; [discriminate H|].
      injection H as ->. reflexivity.
    + intros e He.
      rewrite (atomic_committed _ _ _ _ (cursor_only_run_op (OpAddNodes nodes ids))).
      rewrite atomic_run in He. simpl in *.
      destruct (Database.add_nodes nodes ids _) as [[r|e'] s1]; [discriminate He | reflexivity].
Qed.

(** ** C4 *)

Lemma filter_touching_nil src tgt src' tgt' (es : list edge) :
  (∀ e, e ∈ es → edge_touches src tgt e = true → edge_touches src' tgt' e = true) →
  List.filter (edge_touches src tgt)
    (List.filter (fun e => negb (edge_touches src' tgt' e)) es) = [].
Proof.
  induction es as [|e es IH]; intros H; [reflexivity|]. simpl.
  assert (∀ e', e' ∈ es → edge_touches src tgt e' = true → edge_touches src' tgt' e' = true)
    as H' by (intros e' He'; apply H; right; exact He').
  destruct (edge_touches src' tgt' e) eqn:Ha; simpl; [exact (IH H')|].
  destruct (edge_touches src tgt e) eqn:Hb; [|exact (IH H')].
  rewrite (H e) in Ha; [discriminate Ha | left | exact Hb].
Qed.

Lemma atomic_get_connections db_url auth_token identifier s :
  (Database.atomic db_url auth_token (Database.get_connections identifier) s).1
  = Ok (map edge_row (List.filter (edge_touches identifier identifier) (edges (committed s)))).
Proof. rewrite atomic_run. reflexivity. Qed.

(** C4. [remove_node(id)], run through [atomic], issues on one connection
    the edge delete for [id] as source or target, then the node delete,
    then the commit, in that order; the committed tables lose every edge
    touching [id] and the node record.  For any other identifier [b],
    [find_node(b)] answers as before; and if every edge of [b] was an edge
    of [id] (as with the single edge [id -> b]), [get_connections(b)] is
    empty afterwards. *)
Theorem remove_node_cascades db_url auth_token a s :
  ∃ s',
    Database.atomic db_url auth_token (Database.remove_node (Some a)) s = (Ok tt, s')
    ∧ trace s' = trace s ++ [EvConnect db_url auth_token;
                            EvExecute PragmaForeignKeys;
                            EvExecute (DeleteEdge (Some a) (Some a));
                            EvExecute (DeleteNode (Some a));
                            EvCommit]
    ∧ edges (committed s')
      = List.filter (fun e => negb (edge_touches (Some a) (Some a) e)) (edges (committed s))
    ∧ nodes (committed s') = delete a (nodes (committed s))
    ∧ ∀ b db_url' auth_token', b ≠ a →
        (Database.atomic db_url' auth_token' (Database.find_node (Some b)) s').1
        = (Database.atomic db_url' auth_token' (Database.find_node (Some b)) s).1
        ∧ ((∀ e, e ∈ edges (committed s) →
                 edge_touches (Some b) (Some b) e = true →
                 edge_touches (Some a) (Some a) e = true) →
           (Database.atomic db_url' auth_token' (Database.get_connections (Some b)) s').1
           = Ok []).
Proof.
  eexists. split; [rewrite atomic_run; reflexivity|].
  split; [simpl; rewrite <- !app_assoc; reflexivity|].
  split; [reflexivity|]. split; [reflexivity|].
  intros b db_url' auth_token' Hb. split.
  - rewrite !atomic_find_node. simpl. rewrite lookup_delete_ne by congruence. reflexivity.
  - intros Hedges. rewrite atomic_get_connections. simpl.
    rewrite filter_touching_nil by exact Hedges. reflexivity.
Qed.

(** ** The path of [traverse] *)

Lemma elem_of_dedup_first x l : x ∈ dedup_first l ↔ x ∈ l.
Proof.
  induction l as [|y l IH]; simpl; [reflexivity|].
  rewrite !elem_of_cons, list_elem_of_filter, IH.
  destruct (decide (x = y)); tauto.
Qed.

Lemma NoDup_dedup_first l : NoDup (dedup_first l).
Proof.
  induction l as [|y l IH]; simpl; [constructor|].
  constructor.
  - rewrite list_elem_of_filter. intros [H _]. exact (H eq_refl).
  - apply NoDup_filter. exact IH.
Qed.

Lemma dedup_first_snoc l t : t ∉ l → dedup_first (l ++ [t]) = dedup_first l ++ [t].
Proof.
  induction l as [|y l IH]; intros Ht; simpl; [reflexivity|].
  apply not_elem_of_cons in Ht as [Hty Ht].
  rewrite (IH Ht), filter_app. f_equal. f_equal.
  rewrite filter_cons_True by exact Hty. reflexivity.
Qed.

Lemma upto_absent t l : t ∉ l → upto t l = l.
Proof.
  induction l as [|y l IH]; intros Ht; simpl; [reflexivity|].
  apply not_elem_of_cons in Ht as [Hty Ht].
  rewrite decide_False by congruence. rewrite (IH Ht). reflexivity.
Qed.

Lemma upto_present t l : t ∈ l → ∃ pre, upto t l = pre ++ [t] ∧ t ∉ pre.
Proof.
  induction l as [|y l IH]; intros Ht; [apply elem_of_nil in Ht; contradiction|].
  simpl. destruct (decide (y = t)) as [->|Hne].
  - exists []. split; [reflexivity | apply not_elem_of_nil].
  - apply elem_of_cons in Ht as [->|Ht]; [congruence|].
    destruct (IH Ht) as (pre & -> & Hpre). exists (y :: pre).
    split; [reflexivity|]. apply not_elem_of_cons. split; [congruence | exact Hpre].
Qed.

Lemma elem_of_upto x t l : x ∈ upto t l → x ∈ l.
Proof.
  induction l as [|y l IH]; simpl; [tauto|].
  destruct (decide (y = t)).
  - intros ->%list_elem_of_singleton. left.
  - intros [->|H]%elem_of_cons; [left | right; exact (IH H)].
Qed.

Lemma elem_of_PId x (p : list cell) : Database.PId x ∈ Database.PId <$> p ↔ x ∈ p.
Proof.
  rewrite list_elem_of_fmap. split.
  - intros (y & [= ->] & Hy). exact Hy.
  - intros Hx. exists x. split; [reflexivity | exact Hx].
Qed.

(** The loop invariant: with the identifiers [p] already in the path, none
    of them the target, the loop adds the new ones of the prefix that ends
    at the target. *)
Lemma traverse_rows_ids target rows p :
  CText target ∉ p →
  Database._traverse_loop false target rows (Database.PId <$> p)
  = Ok (Database.PId <$>
          (p ++ filter (fun y => y ∉ p)
                  (dedup_first (upto (CText target) (first_columns rows))))).
Proof.
  revert p. induction rows as [|row rows IH]; intros p Ht.
  - simpl. rewrite app_nil_r. reflexivity.
  - destruct row as [|identifier cols]; [exact (IH p Ht)|].
    cbn [Database._traverse_loop first_columns omap list_omap head].
    fold (first_columns rows).
    case_bool_decide as Hin.
    + apply elem_of_PId in Hin.
      assert (identifier ≠ CText target) as Hne by (intros ->; exact (Ht Hin)).
      rewrite (IH p Ht). cbn [upto]. rewrite decide_False by exact Hne.
      cbn [dedup_first]. rewrite filter_cons_False by (intros H; exact (H Hin)).
      rewrite list_filter_filter. do 3 f_equal.
      apply list_filter_iff. intros y. split; [|tauto].
      intros Hy. split; [exact Hy | intros ->; exact (Hy Hin)].
    + rewrite elem_of_PId in Hin.
      cbn [upto]. case_bool_decide as Heq.
      * rewrite decide_True by exact Heq. cbn [dedup_first].
        rewrite filter_nil, filter_cons_True by exact Hin.
        rewrite filter_nil, fmap_app. reflexivity.
      * rewrite decide_False by exact Heq.
        replace ((Database.PId <$> p) ++ [Database.PId identifier])
          with (Database.PId <$> (p ++ [identifier])) by (rewrite fmap_app; reflexivity).
        rewrite IH.
        2:{ rewrite elem_of_app, list_elem_of_singleton. intros [H|H]; [exact (Ht H)|].
            apply Heq. symmetry. exact H. }
        cbn [dedup_first]. rewrite filter_cons_True by exact Hin.
        rewrite list_filter_filter, <- app_assoc. do 3 f_equal. simpl. f_equal.
        apply list_filter_iff. intros y.
        rewrite elem_of_app, list_elem_of_singleton. tauto.
Qed.

Lemma filter_not_in_nil (l : list cell) : filter (fun y => y ∉ ([] : list cell)) l = l.
Proof.
  induction l as [|x l IH]; [reflexivity|].
  rewrite filter_cons_True by apply not_elem_of_nil. rewrite IH. reflexivity.
Qed.

Lemma traverse_run traverse_template db_url auth_token src tgt neighbors_fn s :
  (Database.traverse traverse_template db_url auth_token src tgt neighbors_fn false s).1
  = Ok (Database.PId <$>
          dedup_first (upto (CText (json_dumps_scalar tgt))
                         (first_columns (traverse_template (neighbors_fn false) src (committed s))))).
Proof.
  unfold Database.traverse. rewrite atomic_run.
  unfold Database._traverse, bind, Database.cursor_execute_traverse, lift. simpl.
  pose proof (traverse_rows_ids (json_dumps_scalar tgt)
                (traverse_template (neighbors_fn false) src (committed s)) []
                (not_elem_of_nil _)) as H.
  simpl in H. rewrite H. simpl. rewrite filter_not_in_nil. reflexivity.
Qed.

(** What [traverse] computes with [with_bodies] false, as the code stands.
    It never raises.  Its path is the sequence of first columns of the
    rows, cut after the first one equal to [json.dumps(tgt)] and stripped
    of repetitions: it is duplicate-free, it is empty when there are no
    rows, and it holds every distinct identifier of the rows when none
    equals that text.  The comparison value is the serialised target, not
    the target. *)
Theorem traverse_stops_at_serialised_target
    traverse_template db_url auth_token src tgt neighbors_fn s :
  let rows := traverse_template (neighbors_fn false) src (committed s) in
  let target := CText (json_dumps_scalar tgt) in
  ∃ ids,
    (Database.traverse traverse_template db_url auth_token src tgt neighbors_fn false s).1
    = Ok (Database.PId <$> ids)
    ∧ ids = dedup_first (upto target (first_columns rows))
    ∧ NoDup (Database.PId <$> ids)
    ∧ (∀ x, x ∈ ids → x ∈ first_columns rows)
    ∧ (target ∈ first_columns rows → last ids = Some target)
    ∧ (rows = [] → ids = [])
    ∧ (target ∉ first_columns rows →
       ids = dedup_first (first_columns rows) ∧ ∀ x, x ∈ first_columns rows → x ∈ ids).
Proof.
  intros rows target. eexists. split; [apply traverse_run|].
  fold rows target. split; [reflexivity|].
  split; [apply NoDup_fmap_2; [intros x y [= ->]; reflexivity | apply NoDup_dedup_first]|].
  split; [intros x Hx; exact (elem_of_upto _ _ _ (proj1 (elem_of_dedup_first _ _) Hx))|].
  split.
  { intros Hin. destruct (upto_present _ _ Hin) as (pre & -> & Hpre).
    rewrite dedup_first_snoc by exact Hpre. apply last_snoc. }
  split; [intros ->; reflexivity|].
  intros Habs. rewrite upto_absent by exact Habs.
  split; [reflexivity|]. intros x Hx. apply elem_of_dedup_first. exact Hx.
Qed.

(** ** C6 *)

Lemma db_atomic_run {A} (f : M A) s :
  SQLiteVSS.db_atomic f s =
  match f (db_opened s) with
  | (Ok r, s1) => (Ok r, commit_state s1)
  | (Raise e, s1) => (Raise (TransactionError e), rollback_state s1)
  end.
Proof.
  unfold SQLiteVSS.db_atomic, bind, connect, db_opened. simpl.
  destruct (f _) as [[r|e] s1]; reflexivity.
Qed.

Lemma search_node_run get_embedding sql data threshold descending limit sort_by v s :
  get_embedding (SQLiteVSS.QueryText data) = Ok v →
  (SQLiteVSS.vector_search_node get_embedding sql data threshold descending limit sort_by s).1
  = let nodes := sql v limit sort_by descending (committed s) in
    match nodes with
    | [] => Ok None
    | _ =>
        match threshold with
        | Some t => Ok (Some (SQLiteVSS.slice_to limit
                                (List.filter (fun node => PrimFloat.ltb (SQLiteVSS.hit_distance node) t)
                                   nodes)))
        | None => Ok (Some (SQLiteVSS.slice_to limit nodes))
        end
    end.
Proof.
  intros Hv. unfold SQLiteVSS.vector_search_node. rewrite db_atomic_run.
  unfold SQLiteVSS._search_node, bind, lift. rewrite Hv. simpl.
  destruct (sql v limit sort_by descending (committed s)) as [|n nodes]; [reflexivity|].
  destruct threshold; reflexivity.
Qed.

Lemma filter_all_false {A} (f : A → bool) (l : list A) :
  (∀ x, x ∈ l → f x = false) → List.filter f l = [].
Proof.
  induction l as [|x l IH]; intros H; [reflexivity|]. simpl.
  rewrite (H x) by left. apply IH. intros y Hy. apply H. right. exact Hy.
Qed.

Lemma slice_to_nil {A} limit : SQLiteVSS.slice_to limit ([] : list A) = [].
Proof. unfold SQLiteVSS.slice_to. destruct (0 <=? limit); apply take_nil. Qed.

(** C6. With the embedding of the query text at hand,
    [vector_search_node] returns [None] when the scan yields no row.
    Otherwise, with a threshold [t], it keeps exactly the rows whose
    distance is strictly below [t] (a row with [distance < t] false, equal
    or greater, is dropped), in scan order, and then cuts the kept list at
    [limit]; so when every row fails the threshold the result is the empty
    list, not [None].  Without a threshold the rows are cut at [limit]. *)
Theorem vector_search_node_threshold
    get_embedding sql data threshold descending limit sort_by v s :
  get_embedding (SQLiteVSS.QueryText data) = Ok v →
  let nodes := sql v limit sort_by descending (committed s) in
  let r := (SQLiteVSS.vector_search_node get_embedding sql data threshold
              descending limit sort_by s).1 in
  (nodes = [] → r = Ok None)
  ∧ (nodes ≠ [] → ∀ t, threshold = Some t →
       let kept := List.filter (fun node => PrimFloat.ltb (SQLiteVSS.hit_distance node) t) nodes in
       r = Ok (Some (SQLiteVSS.slice_to limit kept))
       ∧ (∀ n, n ∈ kept ↔ n ∈ nodes ∧ PrimFloat.ltb (SQLiteVSS.hit_distance n) t = true)
       ∧ (0 ≤ limit → SQLiteVSS.slice_to limit kept = take (Z.to_nat limit) kept)
       ∧ ((∀ n, n ∈ nodes → PrimFloat.ltb (SQLiteVSS.hit_distance n) t = false) →
          r = Ok (Some [])))
  ∧ (nodes ≠ [] → threshold = None → r = Ok (Some (SQLiteVSS.slice_to limit nodes))).
Proof.
  intros Hv nodes r. subst r.
  rewrite (search_node_run _ _ _ _ _ _ _ _ _ Hv). fold nodes. simpl.
  split; [intros ->; reflexivity|]. split.
  - intros Hne t ->. destruct nodes as [|n0 nodes0] eqn:Hn; [contradiction|].
    rewrite <- Hn. split; [reflexivity|].
    split.
    { intros n. rewrite !list_elem_of_In, filter_In. reflexivity. }
    split.
    { intros Hl. unfold SQLiteVSS.slice_to.
      destruct (0 <=? limit) eqn:E; [reflexivity|]. apply Z.leb_gt in E. lia. }
    intros Hall. rewrite (filter_all_false _ _ Hall), slice_to_nil. reflexivity.
  - intros Hne ->. destruct nodes; [contradiction | reflexivity].
Qed.

(** ** C9 *)

Lemma filter_filter_andb {A} (f g : A → bool) (l : list A) :
  List.filter f (List.filter g l) = List.filter (fun x => g x && f x) l.
Proof.
  induction l as [|x l IH]; [reflexivity|]. simpl.
  destruct (g x); simpl; [destruct (f x)|]; rewrite IH; reflexivity.
Qed.

Lemma filter_all_true {A} (f : A → bool) (l : list A) :
  (∀ x, x ∈ l → f x = true) → List.filter f l = l.
Proof.
  induction l as [|x l IH]; intros H; [reflexivity|]. simpl.
  rewrite (H x) by left. f_equal. apply IH. intros y Hy. apply H. right. exact Hy.
Qed.

Lemma remove_edge_step_run item p s :
  binds_first item p →
  remove_edge_step item s =
  (Ok tt, log (EvExecute (DeleteEdgeEmbedding p))
            (set_working
               (set_relationship_embedding
                  (List.filter (fun e => negb (cell_eqb (emb_id e) p))) (working s)) s)).
Proof.
  intros (key & Hkey & Hp). unfold remove_edge_step, bind, lift.
  rewrite Hkey, Hp. reflexivity.
Qed.

Lemma remove_edge_loop items keys s :
  Forall2 binds_first items keys →
  ∃ s', for_each remove_edge_step items s = (Ok tt, s')
        ∧ working s' = set_relationship_embedding (List.filter (keyed_by_none keys)) (working s)
        ∧ committed s' = committed s ∧ heap s' = heap s.
Proof.
  intros H. revert s. induction H as [|item p items keys Hb _ IH]; intros s.
  - exists s. split; [reflexivity|]. split; [|split; reflexivity].
    destruct (working s) as [n e ne re]. unfold set_relationship_embedding. simpl.
    rewrite filter_all_true by reflexivity. reflexivity.
  - simpl. unfold bind at 1. rewrite (remove_edge_step_run _ _ _ Hb).
    destruct (IH (log (EvExecute (DeleteEdgeEmbedding p))
                    (set_working
                       (set_relationship_embedding
                          (List.filter (fun e => negb (cell_eqb (emb_id e) p))) (working s)) s)))
      as (s' & Hrun & Hw & Hc & Hh).
    exists s'. split; [exact Hrun|]. split; [|split; assumption].
    rewrite Hw. simpl. unfold set_relationship_embedding. simpl.
    rewrite filter_filter_andb. reflexivity.
Qed.

(** C9 (amended).  [delete_node_embedding(id)] subscripts its argument: it
    removes the rows of [nodes_embedding] addressed by [id[0]], the first
    element of the sequence it is given, and [delete_edge_embedding(ids)]
    removes from [relationship_embedding], for each element of [ids] in
    turn, the rows addressed by that element's first item.  Both return
    normally, and leave the table as it was when no such rows exist. *)
Theorem delete_embedding_by_first_element s :
  (∀ id p,
     binds_first id p →
     ∃ s', SQLiteVSS.delete_node_embedding id s = (Ok tt, s')
           ∧ nodes_embedding (committed s')
             = List.filter (fun e => negb (cell_eqb (emb_id e) p)) (nodes_embedding (committed s))
           ∧ ((∀ e, e ∈ nodes_embedding (committed s) → cell_eqb (emb_id e) p = false) →
              nodes_embedding (committed s') = nodes_embedding (committed s)))
  ∧ (∀ items keys,
       Forall2 binds_first items keys →
       ∃ s', SQLiteVSS.delete_edge_embedding (VList items) s = (Ok tt, s')
             ∧ relationship_embedding (committed s')
               = List.filter (keyed_by_none keys) (relationship_embedding (committed s))
             ∧ ((∀ e p, e ∈ relationship_embedding (committed s) → p ∈ keys →
                        cell_eqb (emb_id e) p = false) →
                relationship_embedding (committed s') = relationship_embedding (committed s))).
Proof.
  split.
  - intros id p (key & Hkey & Hp).
    unfold SQLiteVSS.delete_node_embedding. rewrite db_atomic_run.
    unfold SQLiteVSS._remove_node, bind, lift. rewrite Hkey, Hp. simpl.
    eexists. split; [reflexivity|]. simpl. split; [reflexivity|].
    intros Hnone. apply filter_all_true. intros e He. rewrite (Hnone e He). reflexivity.
  - intros items keys Hb.
    unfold SQLiteVSS.delete_edge_embedding. rewrite db_atomic_run.
    unfold SQLiteVSS._remove_edge. unfold bind at 1. simpl.
    fold remove_edge_step.
    change (for_each _ items) with (for_each remove_edge_step items).
    destruct (remove_edge_loop items keys (db_opened s) Hb) as (s' & Hrun & Hw & Hc & Hh).
    rewrite Hrun. eexists. split; [reflexivity|]. simpl. rewrite Hw. simpl.
    split; [reflexivity|].
    intros Hnone. apply filter_all_true. intros e He.
    unfold keyed_by_none. apply forallb_forall. intros p Hp.
    rewrite (Hnone e p He) by (apply list_elem_of_In; exact Hp). reflexivity.
Qed.

(** ** C10 *)

Lemma add_node_heap db_url auth_token i data d s :
  heap s !! data = Some (ODict d) →
  heap (Database.atomic db_url auth_token (Database.add_node data (Some i)) s).2 !! data
  = Some (ODict (<["id" := ident_value i]> d)).
Proof.
  intros Hd. rewrite atomic_run. unfold Database.add_node.
  erewrite insert_node_run by exact Hd.
  destruct (serializable_dict _); [destruct (nodes _ !! i)|]; simpl; apply lookup_insert_eq.
Qed.

Lemma add_node_embedding_heap get_embedding i data d s :
  heap s !! data = Some (ODict d) →
  heap (SQLiteVSS.add_node_embedding get_embedding (Some i) data s).2 !! data
  = Some (ODict (<["id" := ident_value i]> d)).
Proof.
  intros Hd. unfold SQLiteVSS.add_node_embedding. rewrite db_atomic_run.
  unfold SQLiteVSS._add_embedding, SQLiteVSS._set_id, bind, setitem, ret. simpl.
  rewrite Hd. simpl. unfold json_dumps. simpl. rewrite lookup_insert_eq.
  destruct (serializable_dict _); simpl; [|apply lookup_insert_eq].
  unfold lift. destruct (get_embedding _) as [vec|e]; simpl; apply lookup_insert_eq.
Qed.

(** C10 (amended).  Let [data] refer to the mapping [d] and let the
    identifier not be [None].  After [add_node(data, identifier)] and after
    [add_node_embedding(identifier, data)] have run (whether they returned
    or raised), the caller's mapping itself holds ["id"] bound to the
    identifier.  [upsert_node(identifier, data)] does the same when it
    finds no record and inserts; when it finds a record it builds the
    merged mapping as a new object and injects the identifier there, so
    the caller's mapping is left exactly as it was. *)
Theorem set_id_mutates_caller_mapping get_embedding db_url auth_token i data d s :
  heap s !! data = Some (ODict d) →
  let injected := Some (ODict (<["id" := ident_value i]> d)) in
  heap (Database.atomic db_url auth_token (Database.add_node data (Some i)) s).2 !! data
  = injected
  ∧ heap (SQLiteVSS.add_node_embedding get_embedding (Some i) data s).2 !! data = injected
  ∧ (nodes (committed s) !! i = None →
     heap (Database.atomic db_url auth_token (Database.upsert_node (Some i) data) s).2 !! data
     = injected)
  ∧ (∀ old, nodes (committed s) !! i = Some old → old ≠ ∅ →
       heap (Database.atomic db_url auth_token (Database.upsert_node (Some i) data) s).2 !! data
       = Some (ODict d)).
Proof.
  intros Hd injected. subst injected.
  split; [apply add_node_heap; exact Hd|].
  split; [apply add_node_embedding_heap; exact Hd|].
  split.
  - intros Habs. rewrite atomic_run. unfold Database.upsert_node.
    rewrite upsert_absent_run by (simpl; rewrite Habs; reflexivity).
    erewrite insert_node_run by exact Hd.
    destruct (serializable_dict _); simpl; [rewrite Habs; simpl|]; apply lookup_insert_eq.
  - intros old Hold Hne. rewrite atomic_run. unfold Database.upsert_node.
    erewrite upsert_present_run by (try exact Hold; exact Hne).
    simpl. rewrite Hd.
    assert (fresh (dom (heap s)) ≠ data) as Hfresh.
    { intros Heq. apply (is_fresh (dom (heap s))). rewrite Heq.
      apply elem_of_dom. rewrite Hd. eauto. }
    destruct (serializable_dict _); simpl;
      rewrite lookup_insert_ne by exact Hfresh; exact Hd.
Qed.

(** * The properties at concrete stores *)

Ltac by_computation := vm_compute; reflexivity.

(** ** C8, C5, C7 *)

Lemma find_node_absent_returns_empty_witness :
  node_at (Some id_n) (committed demo_state) = None
  ∧ ∃ s', Database.atomic "" "" (Database.find_node (Some id_n)) demo_state = (Ok ∅, s')
          ∧ committed s' = committed demo_state ∧ heap s' = heap demo_state.
Proof.
  split; [by_computation|].
  apply (find_node_absent_returns_empty "" "" (Some id_n) demo_state).
  by_computation.
Defined.

Lemma find_node_after_add_node_witness :
  heap demo_state !! 0%nat = Some (ODict {["a" := VInt 1]})
  ∧ ∃ s1 s2,
      Database.atomic "" "" (Database.add_node 0%nat (Some id_n)) demo_state = (Ok tt, s1)
      ∧ Database.atomic "" "" (Database.find_node (Some id_n)) s1
        = (Ok {["id" := VStr "n"; "a" := VInt 1]}, s2).
Proof.
  split; [by_computation|].
  destruct (find_node_after_add_node "" "" demo_state 0%nat {["a" := VInt 1]} id_n)
    as [Hadd Hfind]; [by_computation|].
  destruct Hadd as [s1 Hs1]; [by_computation | by_computation|].
  destruct (Hfind s1 Hs1 "" "") as [s2 Hs2].
  exists s1, s2. split; [exact Hs1 | exact Hs2].
Defined.

Lemma store_ops_keep_id_mirrored_witness :
  ids_mirrored (committed demo_state_n)
  ∧ ids_mirrored
      (committed (Database.atomic "" ""
                    (run_op (OpUpsertNodes [0%nat; 3%nat] [Some id_n; Some id_m]))
                    demo_state_n).2)
  ∧ ∃ s' body,
      Database.atomic "" "" (run_op (OpUpsertNodes [0%nat; 3%nat] [Some id_n; Some id_m]))
        demo_state_n = (Ok tt, s')
      ∧ nodes (committed s') !! id_m = Some body
      ∧ body !! "id" = Some (VStr "m").
Proof.
  assert (ids_mirrored (committed demo_state_n)) as H.
  { intros i body Hi.
    change (({[id_n := {["id" := VStr "n"]}]} : gmap ident dict) !! i = Some body) in Hi.
    apply lookup_singleton_Some in Hi as [<- <-]. by_computation. }
  destruct (store_ops_keep_id_mirrored
              (OpUpsertNodes [0%nat; 3%nat] [Some id_n; Some id_m]) "" "" demo_state_n H)
    as [Hinv Hstored].
  split; [exact H|]. split; [exact Hinv|].
  eexists. 
  destruct (Hstored _ ltac:(by_computation) id_m) as (body & Hbody & Hid).
  { apply elem_of_cons; right. apply elem_of_cons; left. reflexivity. }
  exists body. split; [reflexivity|]. split; [exact Hbody | exact Hid].
Defined.

(** ** C2 *)

(** The merge leaves an ["id"] key of [data] behind: upserting
    [{"id": "m"}] under the identifier [n] stores ["id": "n"]. *)
Lemma upsert_node_id_key_not_overwritten :
  let r := Database.atomic "" "" (Database.upsert_node (Some id_n) 3%nat) demo_state_n in
  heap demo_state_n !! 3%nat = Some (ODict {["id" := VStr "m"]})
  ∧ r.1 = Ok tt
  ∧ ¬ (∀ k v, ({["id" := VStr "m"]} : dict) !! k = Some v →
              ∃ stored, nodes (committed r.2) !! id_n = Some stored ∧ stored !! k = Some v).
Proof.
  split; [by_computation|]. split; [by_computation|].
  intros H. destruct (H "id" (VStr "m")) as (stored & Hs & Hk); [by_computation|].
  vm_compute in Hs. injection Hs as <-. vm_compute in Hk. discriminate Hk.
Qed.

Lemma upsert_node_shallow_merge_witness :
  (∃ s1 s2 s3,
     Database.atomic "" "" (Database.upsert_node (Some id_n) 0%nat) demo_state = (Ok tt, s1)
     ∧ Database.atomic "" "" (Database.upsert_node (Some id_n) 1%nat) s1 = (Ok tt, s2)
     ∧ (Database.atomic "" "" (Database.find_node (Some id_n)) s2).1
       = Ok {["id" := VStr "n"; "a" := VInt 1; "b" := VInt 2]}
     ∧ Database.atomic "" "" (Database.upsert_node (Some id_n) 2%nat) s2 = (Ok tt, s3)
     ∧ (Database.atomic "" "" (Database.find_node (Some id_n)) s3).1
       = Ok {["id" := VStr "n"; "a" := VInt 3; "b" := VInt 2]})
  ∧ (∃ s' stored,
       Database.atomic "" "" (Database.upsert_node (Some id_n) 0%nat) demo_state_n = (Ok tt, s')
       ∧ nodes (committed s') !! id_n = Some stored
       ∧ stored !! "id" = Some (VStr "n")
       ∧ stored !! "a" = Some (VInt 1))
  ∧ (∃ s' stored,
       Database.atomic "" "" (Database.upsert_node (Some id_n) 5%nat) demo_state_cfg = (Ok tt, s')
       ∧ nodes (committed s') !! id_n = Some stored
       ∧ stored !! "cfg" = Some (VDict [("x", VInt 1)])
       ∧ stored !! "z" = Some (VInt 0))
  ∧ (Database.atomic "" "" (Database.upsert_node (Some id_n) 0%nat) demo_state).1
    = (Database.atomic "" "" (Database.add_node 0%nat (Some id_n)) demo_state).1.
Proof.
  destruct (upsert_node_shallow_merge "" "" id_n) as (Habs & Hpres & Hex).
  split; [|split; [|split]].
  - apply (Hex demo_state 0%nat 1%nat 2%nat); by_computation.
  - destruct (Hpres demo_state_n 0%nat {["a" := VInt 1]} {["id" := VStr "n"]})
      as (s' & stored & Hrun & Hst & Hid & Hk & _);
      [by_computation | by_computation | apply insert_non_empty | by_computation |].
    exists s', stored. split; [exact Hrun|]. split; [exact Hst|]. split; [exact Hid|].
    rewrite (Hk "a") by discriminate. by_computation.
  - destruct (Hpres demo_state_cfg 5%nat {["cfg" := VDict [("x", VInt 1)]]}
                {["id" := VStr "n"; "cfg" := VDict [("y", VInt 2)]; "z" := VInt 0]})
      as (s' & stored & Hrun & Hst & _ & Hk & _);
      [by_computation | by_computation | apply insert_non_empty | by_computation |].
    exists s', stored. split; [exact Hrun|]. split; [exact Hst|].
    rewrite (Hk "cfg"), (Hk "z") by discriminate. split; by_computation.
  - apply (Habs demo_state 0%nat {["a" := VInt 1]}); by_computation.
Defined.

(** ** C1 *)

(** A batch whose second element is no mapping: the [TypeError] of the
    unit of work reaches the caller unwrapped, and the connection was asked
    for nothing after the pragma, no rollback included. *)
Lemma atomic_propagates_unwrapped :
  let r := Database.atomic "" "" (Database.add_nodes [0%nat; 4%nat] [Some id_n; Some id_m])
             demo_state in
  r.1 = Raise TypeError
  ∧ (∀ cause, r.1 ≠ Raise (TransactionError cause))
  ∧ trace r.2 = [EvConnect "" ""; EvExecute PragmaForeignKeys]
  ∧ EvRollback ∉ trace r.2.
Proof.
  split; [by_computation|]. split; [intros cause; vm_compute; discriminate|].
  split; [by_computation|].
  vm_compute. intros H. inversion H as [|? ? ? H']; subst.
  inversion H' as [|? ? ? H'']; subst. inversion H''.
Qed.

Lemma atomic_commits_or_propagates_witness :
  (∃ s1, Database.add_node 0%nat (Some id_n) (opened "" "" demo_state) = (Ok tt, s1)
         ∧ Database.atomic "" "" (Database.add_node 0%nat (Some id_n)) demo_state
           = (Ok tt, commit_state s1))
  ∧ (∃ s1, Database.add_node 4%nat (Some id_n) (opened "" "" demo_state) = (Raise TypeError, s1)
           ∧ Database.atomic "" "" (Database.add_node 4%nat (Some id_n)) demo_state
             = (Raise TypeError, s1)
           ∧ committed s1 = committed demo_state)
  ∧ (let r := Database.atomic "" "" (Database.add_nodes [0%nat; 4%nat] [Some id_n; Some id_m])
                demo_state in
     r.1 = Raise TypeError ∧ committed r.2 = committed demo_state).
Proof.
  split; [|split].
  - eexists. split; [by_computation|].
    destruct (atomic_commits_or_propagates (Database.add_node 0%nat (Some id_n)) "" "" demo_state)
      as (_ & Hok & _).
    apply Hok. by_computation.
  - eexists. split; [by_computation|].
    destruct (atomic_commits_or_propagates (Database.add_node 4%nat (Some id_n)) "" "" demo_state)
      as (_ & _ & Hfail & _).
    destruct (Hfail TypeError _ ltac:(by_computation)) as [Hrun Hc].
    split; [exact Hrun|].
    apply Hc. exact (cursor_only_run_op (OpAddNode 4%nat (Some id_n))).
  - destruct (atomic_commits_or_propagates (Database.add_node 0%nat (Some id_n)) "" "" demo_state)
      as (_ & _ & _ & Hbatch).
    destruct (Hbatch [0%nat; 4%nat] [Some id_n; Some id_m]) as [Hraise Hkeep].
    assert ((Database.atomic "" "" (Database.add_nodes [0%nat; 4%nat] [Some id_n; Some id_m])
               demo_state).1 = Raise TypeError) as Hr.
    { apply Hraise. exists (Some id_m), 4%nat. split.
      - apply elem_of_cons; right; apply elem_of_cons; left; reflexivity.
      - vm_compute. exact I. }
    split; [exact Hr | exact (Hkeep TypeError Hr)].
Defined.

(** ** C4 *)

Lemma remove_node_cascades_witness :
  id_B ≠ id_A
  ∧ ∃ s',
      Database.atomic "" "" (Database.remove_node (Some id_A)) demo_state_AB = (Ok tt, s')
      ∧ (Database.atomic "" "" (Database.find_node (Some id_B)) s').1
        = Ok {["id" := VStr "B"]}
      ∧ (Database.atomic "" "" (Database.get_connections (Some id_B)) demo_state_AB).1
        ≠ Ok []
      ∧ (Database.atomic "" "" (Database.get_connections (Some id_B)) s').1 = Ok [].
Proof.
  assert (id_B ≠ id_A) as Hne by discriminate.
  split; [exact Hne|].
  destruct (remove_node_cascades "" "" id_A demo_state_AB) as (s' & Hrun & _ & _ & _ & Hb).
  destruct (Hb id_B "" "" Hne) as [Hfind Hconn].
  exists s'. split; [exact Hrun|].
  split; [rewrite Hfind; by_computation|].
  split; [vm_compute; discriminate|].
  apply Hconn. intros e He _.
  apply list_elem_of_singleton in He. subst e. by_computation.
Defined.

(** ** C3 and the path of [traverse] *)

(** C3. The failing input: [traverse(src, tgt="B")] when the adjacency rows
    of the source are [B], [C].  The claim has the traversal stop as soon
    as [B] is appended, which gives the path [B]; the code compares each
    identifier with [json.dumps("B")], the text of [B] between double
    quotes, which is not the identifier [B], so the [break] is not taken
    and the path is [B], [C].  The defect is in the serialisation of the
    target and nowhere else: on the rows [2], [1], [2], [3], [4] the same
    loop stops at an [int] target [3], whose JSON text is [3], and runs
    past the [str] target ["3"]. *)
Theorem traverse_misses_string_target :
  let run rows_of tgt :=
    (Database.traverse rows_of "" "" (Some id_A) tgt Database.find_neighbors false
       demo_state).1 in
  json_dumps_scalar (Some id_B)
  = String (ascii_of_N 34) (String "B" (String (ascii_of_N 34) EmptyString))
  ∧ run template_BC (Some id_B) = Ok [Database.PId (CText "B"); Database.PId (CText "C")]
  ∧ run template_BC (Some id_B)
    ≠ Ok (Database.PId <$>
            dedup_first (upto (cell_of_ident (Some id_B)) (first_columns rows_BC)))
  ∧ run template_21234 (Some (IdInt 3))
    = Ok [Database.PId (CText "2"); Database.PId (CText "1"); Database.PId (CText "3")]
  ∧ run template_21234 (Some (IdStr "3"))
    = Ok [Database.PId (CText "2"); Database.PId (CText "1"); Database.PId (CText "3");
          Database.PId (CText "4")].
Proof.
  split; [by_computation|]. split; [by_computation|].
  split; [vm_compute; discriminate|]. split; by_computation.
Qed.

Lemma traverse_stops_at_serialised_target_witness :
  CText (json_dumps_scalar (Some (IdInt 3))) ∈ first_columns rows_21234
  ∧ ∃ ids,
      (Database.traverse template_21234 "" "" (Some id_A) (Some (IdInt 3))
         Database.find_neighbors false demo_state).1 = Ok (Database.PId <$> ids)
      ∧ ids = [CText "2"; CText "1"; CText "3"]
      ∧ NoDup (Database.PId <$> ids)
      ∧ last ids = Some (CText "3").
Proof.
  assert (CText (json_dumps_scalar (Some (IdInt 3))) ∈ first_columns rows_21234) as Hin.
  { vm_compute. do 3 (apply elem_of_cons; right). apply elem_of_cons; left. reflexivity. }
  split; [exact Hin|].
  destruct (traverse_stops_at_serialised_target template_21234 "" "" (Some id_A)
              (Some (IdInt 3)) Database.find_neighbors demo_state)
    as (ids & Hrun & Hids & Hnd & _ & Hlast & _).
  exists ids. split; [exact Hrun|].
  split; [rewrite Hids; by_computation|].
  split; [exact Hnd|].
  exact (Hlast Hin).
Defined.

(** ** C6 *)

Lemma vector_search_node_threshold_witness :
  embed_nil (SQLiteVSS.QueryText "q") = Ok []
  ∧ (SQLiteVSS.vector_search_node embed_nil scan_none "q" (Some 0.5%float) false 2 "distance"
       demo_state).1 = Ok None
  ∧ (SQLiteVSS.vector_search_node embed_nil scan_two "q" (Some 0.5%float) false 2 "distance"
       demo_state).1 = Ok (Some [hit_near])
  ∧ (SQLiteVSS.vector_search_node embed_nil scan_two "q" (Some 0.25%float) false 2 "distance"
       demo_state).1 = Ok (Some [])
  ∧ (SQLiteVSS.vector_search_node embed_nil scan_two "q" None false 1 "distance"
       demo_state).1 = Ok (Some [hit_near]).
Proof.
  split; [reflexivity|]. split; [|split; [|split]].
  - destruct (vector_search_node_threshold embed_nil scan_none "q" (Some 0.5%float) false 2
                "distance" [] demo_state eq_refl) as (Hnone & _).
    apply Hnone. reflexivity.
  - destruct (vector_search_node_threshold embed_nil scan_two "q" (Some 0.5%float) false 2
                "distance" [] demo_state eq_refl) as (_ & Hsome & _).
    destruct (Hsome ltac:(discriminate) 0.5%float eq_refl) as (Hr & _).
    rewrite Hr. by_computation.
  - destruct (vector_search_node_threshold embed_nil scan_two "q" (Some 0.25%float) false 2
                "distance" [] demo_state eq_refl) as (_ & Hsome & _).
    destruct (Hsome ltac:(discriminate) 0.25%float eq_refl) as (_ & _ & _ & Hall).
    apply Hall. intros n Hn.
    apply elem_of_cons in Hn as [->|Hn]; [by_computation|].
    apply list_elem_of_singleton in Hn. subst n. by_computation.
  - destruct (vector_search_node_threshold embed_nil scan_two "q" None false 1
                "distance" [] demo_state eq_refl) as (_ & _ & Hno).
    rewrite (Hno ltac:(discriminate) eq_refl). by_computation.
Defined.

(** ** C9 *)

(** Handed the identifier itself, the deletes go wrong: an integer cannot
    be subscripted, so the call raises and the row addressed by it stays;
    a string gives its first character, so the row of ["ab"] stays and the
    row of ["a"] goes. *)
Lemma delete_node_embedding_scalar_identifier :
  let r1 := SQLiteVSS.delete_node_embedding (VInt 1) demo_state_emb in
  let r2 := SQLiteVSS.delete_node_embedding (VStr "ab") demo_state_emb in
  mkEmbedding (CInt 1) [] ∈ nodes_embedding (committed demo_state_emb)
  ∧ (SQLiteVSS._remove_node (VInt 1) (db_opened demo_state_emb)).1 = Raise TypeError
  ∧ is_ok r1.1 = false
  ∧ nodes_embedding (committed r1.2) = nodes_embedding (committed demo_state_emb)
  ∧ r2.1 = Ok tt
  ∧ nodes_embedding (committed r2.2)
    = [mkEmbedding (CInt 1) []; mkEmbedding (CInt 2) []; mkEmbedding (CText "ab") []].
Proof.
  split; [apply elem_of_cons; left; reflexivity|].
  split; [by_computation|]. split; [by_computation|]. split; [by_computation|].
  split; by_computation.
Qed.

Lemma delete_embedding_by_first_element_witness :
  binds_first (VList [VInt 1]) (CInt 1)
  ∧ Forall2 binds_first [VList [VInt 1]; VList [VInt 7]] [CInt 1; CInt 7]
  ∧ (∃ s', SQLiteVSS.delete_node_embedding (VList [VInt 1]) demo_state_emb = (Ok tt, s')
           ∧ nodes_embedding (committed s')
             = [mkEmbedding (CInt 2) []; mkEmbedding (CText "ab") []; mkEmbedding (CText "a") []])
  ∧ (∃ s', SQLiteVSS.delete_node_embedding (VList [VInt 7]) demo_state_emb = (Ok tt, s')
           ∧ nodes_embedding (committed s') = nodes_embedding (committed demo_state_emb))
  ∧ (∃ s', SQLiteVSS.delete_edge_embedding (VList [VList [VInt 1]; VList [VInt 7]]) demo_state_emb
           = (Ok tt, s')
           ∧ relationship_embedding (committed s')
             = [mkEmbedding (CInt 2) []; mkEmbedding (CInt 3) []]).
Proof.
  assert (∀ z, binds_first (VList [VInt z]) (CInt z)) as Hb
    by (intros z; exists (VInt z); split; reflexivity).
  assert (Forall2 binds_first [VList [VInt 1]; VList [VInt 7]] [CInt 1; CInt 7]) as Hbs
    by (repeat constructor; apply Hb).
  destruct (delete_embedding_by_first_element demo_state_emb) as [Hnode Hedge].
  split; [apply Hb|]. split; [exact Hbs|]. split; [|split].
  - destruct (Hnode _ _ (Hb 1)) as (s' & Hrun & Htab & _).
    exists s'. split; [exact Hrun|]. rewrite Htab. by_computation.
  - destruct (Hnode _ _ (Hb 7)) as (s' & Hrun & _ & Hsame).
    exists s'. split; [exact Hrun|]. apply Hsame.
    intros e He. vm_compute in He.
    repeat (apply elem_of_cons in He as [->|He]; [by_computation|]).
    apply elem_of_nil in He. contradiction.
  - destruct (Hedge _ _ Hbs) as (s' & Hrun & Htab & _).
    exists s'. split; [exact Hrun|]. rewrite Htab. by_computation.
Defined.

(** ** C10 *)

(** Upserting into an existing record leaves the caller's mapping without
    an ["id"]. *)
Lemma upsert_node_leaves_caller_mapping :
  let r := Database.atomic "" "" (Database.upsert_node (Some id_n) 0%nat) demo_state_n in
  heap demo_state_n !! 0%nat = Some (ODict {["a" := VInt 1]})
  ∧ r.1 = Ok tt
  ∧ heap r.2 !! 0%nat = Some (ODict {["a" := VInt 1]})
  ∧ ¬ (∃ d, heap r.2 !! 0%nat = Some (ODict d) ∧ d !! "id" = Some (ident_value id_n)).
Proof.
  split; [by_computation|]. split; [by_computation|]. split; [by_computation|].
  intros (d & Hd & Hid). vm_compute in Hd. injection Hd as <-.
  vm_compute in Hid. discriminate Hid.
Qed.

Lemma set_id_mutates_caller_mapping_witness :
  heap demo_state !! 0%nat = Some (ODict {["a" := VInt 1]})
  ∧ heap (Database.atomic "" "" (Database.add_node 0%nat (Some id_n)) demo_state).2 !! 0%nat
    = Some (ODict {["id" := VStr "n"; "a" := VInt 1]})
  ∧ heap (SQLiteVSS.add_node_embedding embed_nil (Some id_n) 0%nat demo_state).2 !! 0%nat
    = Some (ODict {["id" := VStr "n"; "a" := VInt 1]})
  ∧ heap (Database.atomic "" "" (Database.upsert_node (Some id_n) 0%nat) demo_state).2 !! 0%nat
    = Some (ODict {["id" := VStr "n"; "a" := VInt 1]})
  ∧ heap (Database.atomic "" "" (Database.upsert_node (Some id_n) 0%nat) demo_state_n).2 !! 0%nat
    = Some (ODict {["a" := VInt 1]}).
Proof.
  assert (heap demo_state !! 0%nat = Some (ODict {["a" := VInt 1]})) as Hd by by_computation.
  destruct (set_id_mutates_caller_mapping embed_nil "" "" id_n 0%nat _ demo_state Hd)
    as (Hadd & Hemb & Hup & _).
  destruct (set_id_mutates_caller_mapping embed_nil "" "" id_n 0%nat _ demo_state_n Hd)
    as (_ & _ & _ & Hkeep).
  split; [exact Hd|]. split; [exact Hadd|]. split; [exact Hemb|].
  split; [apply Hup; by_computation|].
  apply (Hkeep {["id" := VStr "n"]}); [by_computation | apply insert_non_empty].
Defined.

(** * Further properties of the store and of the embedding layer *)

(** ** Upsert is idempotent *)

Lemma atomic_upsert_ok_serializable db_url auth_token i data new s s1 :
  heap s !! data = Some (ODict new) →
  Database.atomic db_url auth_token (Database.upsert_node (Some i) data) s = (Ok tt, s1) →
  match nodes (committed s) !! i with
  | None => serializable_dict (<["id" := ident_value i]> new) = true
  | Some old =>
      old ≠ ∅ ∧ serializable_dict (<["id" := ident_value i]> (new ∪ old)) = true
  end.
Proof.
  intros Hd. rewrite atomic_run. unfold Database.upsert_node.
  destruct (nodes (committed s) !! i) as [old|] eqn:Hi.
  - destruct (decide (old = ∅)) as [->|Hne].
    + rewrite upsert_absent_run by (simpl; rewrite Hi; reflexivity).
      erewrite insert_node_run by exact Hd.
      destruct (serializable_dict _); simpl; [rewrite Hi|]; intros [=].
    + erewrite upsert_present_run by (try exact Hi; exact Hne).
      simpl. rewrite Hd.
      destruct (serializable_dict _); [intros _; split; [exact Hne | reflexivity] | intros [=]].
  - rewrite upsert_absent_run by (simpl; rewrite Hi; reflexivity).
    erewrite insert_node_run by exact Hd.
    destruct (serializable_dict _); [reflexivity | intros [=]].
Qed.

Lemma merge_absorbs i (new old : dict) :
  <["id" := ident_value i]> (new ∪ <["id" := ident_value i]> (new ∪ old))
  = <["id" := ident_value i]> (new ∪ old).
Proof.
  apply map_eq. intros k. destruct (decide (k = "id")) as [->|Hk].
  - rewrite !lookup_insert_eq. reflexivity.
  - rewrite !lookup_insert_ne by congruence. rewrite !lookup_union.
    rewrite lookup_insert_ne by congruence. rewrite lookup_union.
    destruct (new !! k), (old !! k); reflexivity.
Qed.

Lemma set_nodes_insert_twice i body db :
  set_nodes (insert i body) (set_nodes (insert i body) db) = set_nodes (insert i body) db.
Proof. unfold set_nodes. simpl. rewrite insert_insert_eq. reflexivity. Qed.

(** X1. [upsert_node] is idempotent: when [upsert_node(id, data)] has
    committed, running it again with the same arguments commits too and
    leaves the tables as the first run left them (in the insert case the
    second run merges the caller's mapping, which now carries the
    identifier, over the record it has just stored). *)
Theorem upsert_node_idempotent db_url auth_token i data new s s1 :
  heap s !! data = Some (ODict new) →
  Database.atomic db_url auth_token (Database.upsert_node (Some i) data) s = (Ok tt, s1) →
  ∃ s2,
    Database.atomic db_url auth_token (Database.upsert_node (Some i) data) s1 = (Ok tt, s2)
    ∧ committed s2 = committed s1.
Proof.
  intros Hd Hrun.
  pose proof (atomic_upsert_ok_serializable _ _ _ _ _ _ _ Hd Hrun) as Hser.
  destruct (nodes (committed s) !! i) as [old|] eqn:Hi.
  - destruct Hser as [Hne Hser].
    destruct (atomic_upsert_present db_url auth_token _ _ _ _ _ Hd Hi Hne Hser)
      as (s' & Hrun' & Hh & Hc).
    rewrite Hrun in Hrun'. injection Hrun' as <-.
    assert (heap s1 !! data = Some (ODict new)) as Hd1.
    { rewrite Hh, lookup_insert_ne; [exact Hd|].
      intros Heq. apply (is_fresh (dom (heap s))). rewrite Heq.
      apply elem_of_dom. rewrite Hd. eauto. }
    destruct (atomic_upsert_present db_url auth_token i data new
                (<["id" := ident_value i]> (new ∪ old)) s1 Hd1)
      as (s2 & Hrun2 & _ & Hc2).
    { rewrite Hc. apply lookup_insert_eq. }
    { apply insert_non_empty. }
    { rewrite merge_absorbs. exact Hser. }
    exists s2. split; [exact Hrun2|].
    rewrite Hc2, merge_absorbs, Hc. apply set_nodes_insert_twice.
  - destruct (atomic_upsert_absent db_url auth_token _ _ _ _ Hd Hi Hser)
      as (s' & Hrun' & Hh & Hc).
    rewrite Hrun in Hrun'. injection Hrun' as <-.
    assert (<["id" := ident_value i]>
              (<["id" := ident_value i]> new ∪ <["id" := ident_value i]> new)
            = <["id" := ident_value i]> new) as Hsame.
    { apply map_eq. intros k. destruct (decide (k = "id")) as [->|Hk].
      - rewrite !lookup_insert_eq. reflexivity.
      - rewrite lookup_insert_ne by congruence. rewrite lookup_union.
        destruct (<["id" := ident_value i]> new !! k); reflexivity. }
    destruct (atomic_upsert_present db_url auth_token i data
                (<["id" := ident_value i]> new) (<["id" := ident_value i]> new) s1)
      as (s2 & Hrun2 & _ & Hc2).
    { rewrite Hh. apply lookup_insert_eq. }
    { rewrite Hc. apply lookup_insert_eq. }
    { apply insert_non_empty. }
    { rewrite Hsame. exact Hser. }
    exists s2. split; [exact Hrun2|].
    rewrite Hc2, Hsame, Hc. apply set_nodes_insert_twice.
Qed.

(** ** One atomic unit against two *)

Lemma view_determined_ret {A} (a : A) : view_determined (ret a).
Proof. intros s s' H. split; [reflexivity | exact H]. Qed.

Lemma view_determined_raise {A} e : view_determined (@raise A e).
Proof. intros s s' H. split; [reflexivity | exact H]. Qed.

Lemma view_determined_lift {A} (r : result A) : view_determined (lift r).
Proof. intros s s' H. split; [reflexivity | exact H]. Qed.

Lemma view_determined_bind {A B} (m : M A) (k : A → M B) :
  view_determined m → (∀ a, view_determined (k a)) → view_determined (bind m k).
Proof.
  intros Hm Hk s s' H. unfold bind. destruct (Hm s s' H) as [Hr Hv].
  destruct (m s) as [[a|e] s1], (m s') as [[a'|e'] s1']; simpl in *;
    try discriminate Hr.
  - injection Hr as <-. exact (Hk a s1 s1' Hv).
  - injection Hr as <-. split; [reflexivity | exact Hv].
Qed.

Lemma view_determined_setitem data key v : view_determined (setitem data key v).
Proof.
  intros s s' [Hh Hw]. unfold setitem. rewrite <- Hh.
  destruct (heap s !! data) as [[d|]|]; simpl; (split; [reflexivity|]);
    split; simpl; congruence.
Qed.

Lemma view_determined_json_dumps data : view_determined (json_dumps data).
Proof.
  intros s s' [Hh Hw]. unfold json_dumps. rewrite <- Hh.
  destruct (heap s !! data) as [[d|]|]; [destruct (serializable_dict d)| |];
    simpl; (split; [reflexivity|]); split; assumption.
Qed.

Lemma view_determined_read_mapping data : view_determined (read_mapping data).
Proof.
  intros s s' [Hh Hw]. unfold read_mapping. rewrite <- Hh.
  destruct (heap s !! data) as [[d|]|]; simpl; (split; [reflexivity|]); split; assumption.
Qed.

Lemma view_determined_alloc d : view_determined (alloc d).
Proof.
  intros s s' [Hh Hw]. unfold alloc. simpl. rewrite <- Hh.
  split; [reflexivity|]. split; simpl; [reflexivity | exact Hw].
Qed.

Lemma view_determined_execute st : view_determined (cursor_execute st).
Proof.
  intros s s' [Hh Hw]. unfold cursor_execute. rewrite <- Hw.
  destruct (exec st (working s)) as [[db rows]|e]; simpl;
    (split; [reflexivity|]); split; simpl; congruence.
Qed.

Lemma view_determined_for_each {A} (f : A → M unit) xs :
  (∀ x, view_determined (f x)) → view_determined (for_each f xs).
Proof.
  intros Hf. induction xs as [|x xs IH]; simpl.
  - apply view_determined_ret.
  - apply view_determined_bind; [apply Hf | intros _; exact IH].
Qed.

Lemma view_determined_map_m {A B} (f : A → M B) xs :
  (∀ x, view_determined (f x)) → view_determined (map_m f xs).
Proof.
  intros Hf. induction xs as [|x xs IH]; simpl.
  - apply view_determined_ret.
  - apply view_determined_bind; [apply Hf|]. intros y.
    apply view_determined_bind; [exact IH|]. intros ys. apply view_determined_ret.
Qed.

Lemma view_determined_set_id identifier data :
  view_determined (Database._set_id identifier data).
Proof.
  destruct identifier; simpl; [|apply view_determined_ret].
  apply view_determined_bind; [apply view_determined_setitem|].
  intros _; apply view_determined_ret.
Qed.

Lemma view_determined_insert_node identifier data :
  view_determined (Database._insert_node identifier data).
Proof.
  unfold Database._insert_node.
  apply view_determined_bind; [apply view_determined_set_id|]. intros d.
  apply view_determined_bind; [apply view_determined_json_dumps|]. intros body.
  apply view_determined_bind; [apply view_determined_execute|]. intros _.
  apply view_determined_ret.
Qed.

Lemma view_determined_find_node identifier :
  view_determined (Database.find_node identifier).
Proof.
  unfold Database.find_node.
  apply view_determined_bind; [apply view_determined_execute|]. intros rows.
  destruct (fetchone rows) as [[|c ?]|]; try apply view_determined_ret.
  destruct c; simpl; first [apply view_determined_ret | apply view_determined_raise].
Qed.

Lemma view_determined_upsert_node identifier data :
  view_determined (Database._upsert_node identifier data).
Proof.
  unfold Database._upsert_node.
  apply view_determined_bind; [apply view_determined_find_node|]. intros current.
  destruct (bool_decide _); [apply view_determined_insert_node|].
  apply view_determined_bind; [apply view_determined_read_mapping|]. intros new.
  apply view_determined_bind; [apply view_determined_alloc|]. intros l.
  apply view_determined_bind; [apply view_determined_set_id|]. intros d.
  apply view_determined_bind; [apply view_determined_json_dumps|]. intros body.
  apply view_determined_bind; [apply view_determined_execute|]. intros _.
  apply view_determined_ret.
Qed.

Lemma view_determined_run_op op : view_determined (run_op op).
Proof.
  destruct op; simpl.
  - apply view_determined_insert_node.
  - unfold Database.add_nodes. apply view_determined_bind.
    + apply view_determined_map_m. intros [id node].
      apply view_determined_bind; [apply view_determined_set_id|].
      intros; apply view_determined_json_dumps.
    + intros params. apply view_determined_for_each. intros body.
      apply view_determined_bind; [apply view_determined_execute|].
      intros _; apply view_determined_ret.
  - apply view_determined_upsert_node.
  - apply view_determined_for_each. intros p. apply view_determined_upsert_node.
Qed.

(** X2. Two units of work in one [atomic] against one [atomic] each.  Let
    [f] return normally on a fresh connection and let [g] depend on the
    caller objects and the connection's view only.  Then [g] has the same
    outcome either way; when it returns, both ways commit the same tables
    and leave the same caller objects; when it raises, the single unit
    commits nothing at all, while the two units keep what [f] wrote. *)
Theorem atomic_one_unit_or_two {A B} (f : M A) (g : M B) db_url auth_token s a s1 :
  view_determined g →
  cursor_only f →
  cursor_only g →
  f (opened db_url auth_token s) = (Ok a, s1) →
  let one := Database.atomic db_url auth_token (f ;; g) s in
  let two := Database.atomic db_url auth_token g
               (Database.atomic db_url auth_token f s).2 in
  one.1 = two.1
  ∧ (is_ok one.1 = true → committed one.2 = committed two.2 ∧ heap one.2 = heap two.2)
  ∧ (is_ok one.1 = false →
     committed one.2 = committed s ∧ committed two.2 = working s1).
Proof.
  intros Hg Hcf Hcg Hf one two. subst one two.
  assert ((f ;; g) (opened db_url auth_token s) = g s1) as Hfg
    by (unfold bind; rewrite Hf; reflexivity).
  rewrite !atomic_run, Hfg, Hf. simpl.
  assert (same_view s1 (opened db_url auth_token (commit_state s1))) as Hv
    by (split; reflexivity).
  destruct (Hg _ _ Hv) as [Hr [Hh Hw]].
  pose proof (Hcg s1) as Hc1.
  pose proof (Hcg (opened db_url auth_token (commit_state s1))) as Hc2.
  pose proof (Hcf (opened db_url auth_token s)) as Hc0. rewrite Hf in Hc0.
  destruct (g s1) as [[b|e] s2], (g (opened db_url auth_token (commit_state s1))) as [[b'|e'] s2'];
    simpl in *; try discriminate Hr.
  - injection Hr as <-. split; [reflexivity|]. split; [|intros [=]].
    intros _. split; [exact Hw | exact Hh].
  - injection Hr as <-. split; [reflexivity|]. split; [intros [=]|].
    intros _. split; [congruence | exact Hc2].
Qed.

(** ** Removing nodes *)

Lemma set_edges_compose f g db : set_edges f (set_edges g db) = set_edges (fun es => f (g es)) db.
Proof. reflexivity. Qed.

Lemma delete_edges_run identifiers s :
  cursor_executemany (fun id => DeleteEdge id id) identifiers s
  = (Ok tt,
     mkState (heap s) (committed s)
       (set_edges (List.filter (untouched_by identifiers)) (working s))
       (trace s ++ map (fun id => EvExecute (DeleteEdge id id)) identifiers)).
Proof.
  unfold cursor_executemany. revert s.
  induction identifiers as [|id ids IH]; intros [h c w t].
  - simpl. unfold ret. rewrite app_nil_r. do 2 f_equal.
    destruct w. unfold set_edges. simpl. f_equal.
    symmetry. apply filter_all_true. reflexivity.
  - simpl. unfold bind at 1. unfold bind at 1. unfold cursor_execute, ret. simpl.
    rewrite IH. simpl. rewrite <- app_assoc. simpl. do 2 f_equal.
    unfold set_edges. simpl. f_equal. rewrite filter_filter_andb. reflexivity.
Qed.

Lemma delete_nodes_run identifiers s :
  cursor_executemany DeleteNode identifiers s
  = (Ok tt,
     mkState (heap s) (committed s)
       (set_nodes (drop_nodes identifiers) (working s))
       (trace s ++ map (fun id => EvExecute (DeleteNode id)) identifiers)).
Proof.
  unfold cursor_executemany. revert s.
  induction identifiers as [|id ids IH]; intros [h c w t].
  - simpl. unfold ret. rewrite app_nil_r. do 2 f_equal. destruct w. reflexivity.
  - simpl. unfold bind at 1. unfold bind at 1. unfold cursor_execute, ret. simpl.
    destruct id as [i|]; simpl; rewrite IH; simpl; rewrite <- app_assoc; simpl;
      do 2 f_equal; destruct w; reflexivity.
Qed.

Lemma lookup_drop_nodes identifiers (m : gmap ident dict) j :
  drop_nodes identifiers m !! j
  = if decide (Some j ∈ identifiers) then None else m !! j.
Proof.
  unfold drop_nodes. revert m.
  induction identifiers as [|id ids IH]; intros m.
  - destruct (decide (Some j ∈ [])) as [H|_]; [|reflexivity].
    apply elem_of_nil in H. contradiction.
  - cbn [foldl]. rewrite IH.
    destruct (decide (Some j ∈ ids)) as [Hin|Hnin];
      destruct (decide (Some j ∈ id :: ids)) as [Hin'|Hnin']; try reflexivity.
    + exfalso. apply Hnin'. right. exact Hin.
    + apply elem_of_cons in Hin' as [<-|H]; [|exact (False_ind _ (Hnin H))].
      apply lookup_delete_eq.
    + destruct id as [i|]; [|reflexivity].
      apply lookup_delete_ne. intros ->. apply Hnin'. left.
Qed.

Lemma untouched_by_spec identifiers e :
  untouched_by identifiers e = true
  ↔ ∀ id, id ∈ identifiers → edge_touches id id e = false.
Proof.
  unfold untouched_by. rewrite forallb_forall. split.
  - intros H id Hid. apply list_elem_of_In in Hid. apply negb_true_iff. exact (H id Hid).
  - intros H id Hid. apply list_elem_of_In in Hid. apply negb_true_iff. exact (H id Hid).
Qed.

(** X3. [remove_nodes(identifiers)], run through [atomic], returns
    normally on any store.  It issues every edge delete, in list order,
    before the first node delete, and commits once.  Afterwards no node is
    stored under any of the identifiers, the other nodes are as before, and
    the edges left are exactly the old edges that have none of the
    identifiers as source or target: no edge dangles from a removed node. *)
Theorem remove_nodes_cascades db_url auth_token identifiers s :
  ∃ s',
    Database.atomic db_url auth_token (Database.remove_nodes identifiers) s = (Ok tt, s')
    ∧ trace s' = trace s
                 ++ [EvConnect db_url auth_token; EvExecute PragmaForeignKeys]
                 ++ map (fun id => EvExecute (DeleteEdge id id)) identifiers
                 ++ map (fun id => EvExecute (DeleteNode id)) identifiers
                 ++ [EvCommit]
    ∧ (∀ j, nodes (committed s') !! j
            = if decide (Some j ∈ identifiers) then None else nodes (committed s) !! j)
    ∧ (∀ e, e ∈ edges (committed s')
            ↔ e ∈ edges (committed s)
              ∧ ∀ id, id ∈ identifiers → edge_touches id id e = false)
    ∧ heap s' = heap s.
Proof.
  eexists. split.
  { rewrite atomic_run. unfold Database.remove_nodes. unfold bind at 1.
    rewrite delete_edges_run, delete_nodes_run. reflexivity. }
  simpl. split; [rewrite <- !app_assoc; reflexivity|].
  split; [intros j; apply lookup_drop_nodes|].
  split; [|reflexivity].
  intros e. rewrite !list_elem_of_In, filter_In, untouched_by_spec. reflexivity.
Qed.

Lemma filter_idem {A} (f : A → bool) (l : list A) :
  List.filter f (List.filter f l) = List.filter f l.
Proof.
  rewrite filter_filter_andb. apply filter_ext. intros x. destruct (f x); reflexivity.
Qed.

Lemma atomic_remove_node_run db_url auth_token a s :
  ∃ s1,
    Database.atomic db_url auth_token (Database.remove_node (Some a)) s = (Ok tt, s1)
    ∧ committed s1
      = set_nodes (delete a)
          (set_edges (List.filter (fun e => negb (edge_touches (Some a) (Some a) e)))
             (committed s))
    ∧ heap s1 = heap s.
Proof.
  eexists. split; [rewrite atomic_run; reflexivity|]. split; reflexivity.
Qed.

(** X4. After [remove_node(id)] the identifier is free: [find_node(id)]
    returns the empty mapping, [get_connections(id)] returns no row, a
    second [remove_node(id)] changes no table, and [add_node(data, id)]
    with a serialisable mapping commits and is found again. *)
Theorem remove_node_frees_identifier db_url auth_token a s :
  let s1 := (Database.atomic db_url auth_token (Database.remove_node (Some a)) s).2 in
  (Database.atomic db_url auth_token (Database.find_node (Some a)) s1).1 = Ok ∅
  ∧ (Database.atomic db_url auth_token (Database.get_connections (Some a)) s1).1 = Ok []
  ∧ committed (Database.atomic db_url auth_token (Database.remove_node (Some a)) s1).2
    = committed s1
  ∧ (∀ data d,
       heap s !! data = Some (ODict d) →
       serializable_dict (<["id" := ident_value a]> d) = true →
       ∃ s2,
         Database.atomic db_url auth_token (Database.add_node data (Some a)) s1 = (Ok tt, s2)
         ∧ (Database.atomic db_url auth_token (Database.find_node (Some a)) s2).1
           = Ok (<["id" := ident_value a]> d)).
Proof.
  intros s1. subst s1.
  destruct (atomic_remove_node_run db_url auth_token a s) as (s1 & -> & Hc & Hh).
  cbn [snd].
  split; [rewrite atomic_find_node, Hc; simpl; rewrite lookup_delete_eq; reflexivity|].
  split.
  { rewrite atomic_get_connections, Hc. simpl.
    rewrite filter_touching_nil by (intros e _ H; exact H). reflexivity. }
  split.
  { destruct (atomic_remove_node_run db_url auth_token a s1) as (s2 & -> & Hc2 & _).
    cbn [snd]. rewrite Hc2, Hc. unfold set_nodes, set_edges. simpl.
    rewrite filter_idem. f_equal. apply delete_id. apply lookup_delete_eq. }
  intros data d Hd Hser.
  rewrite atomic_run. unfold Database.add_node.
  erewrite insert_node_run by (simpl; rewrite Hh; exact Hd).
  rewrite Hser. simpl. rewrite Hc. simpl.
  rewrite lookup_delete_eq. eexists. split; [reflexivity|].
  rewrite atomic_find_node. simpl. rewrite lookup_insert_eq. reflexivity.
Qed.

(** ** Connecting nodes *)

Lemma json_dumps_run l s :
  json_dumps l s = (match dump_of (heap s) l with
                    | Some d => Ok d
                    | None => Raise TypeError
                    end, s).
Proof.
  unfold json_dumps, dump_of. destruct (heap s !! l) as [[d|]|]; try reflexivity.
  destruct (serializable_dict d); reflexivity.
Qed.






(** ** A batch of nodes *)

Lemma dump_batch_run pairs s0 :
  NoDup pairs.*2 →
  (∀ p, p ∈ pairs → ∃ i d, fst p = Some i ∧ heap s0 !! snd p = Some (ODict d)
                           ∧ serializable_dict (<["id" := ident_value i]> d) = true) →
  ∃ bodies s1,
    map_m dump_node pairs s0 = (Ok bodies, s1)
    ∧ working s1 = working s0 ∧ committed s1 = committed s0 ∧ trace s1 = trace s0
    ∧ Forall2 (dumped (heap s0) (heap s1)) pairs bodies
    ∧ (∀ l, l ∉ pairs.*2 → heap s1 !! l = heap s0 !! l).
Proof.
  revert s0. induction pairs as [|[id l] pairs IH]; intros s0 Hnd Hall.
  - exists [], s0. do 4 (split; [reflexivity|]).
    split; [constructor | intros; reflexivity].
  - apply NoDup_cons in Hnd as [Hl Hnd]. simpl in Hl.
    destruct (Hall (id, l)) as (i & d & Hid & Hd & Hser); [left|].
    simpl in Hid, Hd. subst id.
    assert (dump_node (Some i, l) s0
            = (Ok (<["id" := ident_value i]> d), heap_set_id i l d s0)) as Hstep.
    { rewrite dump_node_run, Hd. simpl. rewrite Hser. reflexivity. }
    assert (∀ l', l' ≠ l → heap (heap_set_id i l d s0) !! l' = heap s0 !! l') as Hother.
    { intros l' Hne. simpl. apply lookup_insert_ne. congruence. }
    destruct (IH (heap_set_id i l d s0) Hnd) as (bodies & s1 & Hrun & Hw & Hc & Ht & Hf & Hrest).
    { intros p Hp. destruct (Hall p) as (i' & d' & Hi' & Hd' & Hser'); [right; exact Hp|].
      exists i', d'. split; [exact Hi'|]. split; [|exact Hser'].
      rewrite Hother; [exact Hd'|]. intros Heq. apply Hl. rewrite <- Heq.
      apply list_elem_of_fmap. exists p. split; [reflexivity | exact Hp]. }
    exists (<["id" := ident_value i]> d :: bodies), s1.
    split; [cbn [map_m]; unfold bind at 1; rewrite Hstep; unfold bind; rewrite Hrun; reflexivity|].
    split; [exact Hw|]. split; [exact Hc|]. split; [exact Ht|].
    split.
    + constructor.
      * exists i, d. simpl. split; [reflexivity|]. split; [exact Hd|]. split; [reflexivity|].
        rewrite (Hrest l Hl). apply lookup_insert_eq.
      * clear -Hf Hother Hl.
        induction Hf as [|p body ps bs (i' & d' & Hi' & Hd' & Hb & Hh) _ IHf]; constructor.
        -- exists i', d'. split; [exact Hi'|]. split; [|split; assumption].
           rewrite <- Hother; [exact Hd'|]. intros Heq. apply Hl. rewrite <- Heq.
           simpl. left.
        -- apply IHf. intros Hin. apply Hl. simpl. right. exact Hin.
    + intros l' Hl'. simpl in Hl'. apply not_elem_of_cons in Hl' as [Hne Hl'].
      rewrite (Hrest l' Hl'). apply Hother. exact Hne.
Qed.

Lemma insert_batch_run pairs bodies s :
  Forall2 (fun (p : option ident * loc) body => ∃ i, fst p = Some i ∧ body_id body = Some i)
    pairs bodies →
  NoDup pairs.*1 →
  (∀ p i, p ∈ pairs → fst p = Some i → nodes (working s) !! i = None) →
  ∃ s2,
    cursor_executemany InsertNode bodies s = (Ok tt, s2)
    ∧ heap s2 = heap s ∧ committed s2 = committed s
    ∧ (∀ j, Some j ∉ pairs.*1 → nodes (working s2) !! j = nodes (working s) !! j)
    ∧ Forall2 (fun (p : option ident * loc) body =>
                 ∀ i, fst p = Some i → nodes (working s2) !! i = Some body) pairs bodies.
Proof.
  intros Hf. revert s.
  induction Hf as [|p body pairs bodies (i & Hi & Hbid) _ IH]; intros s Hnd Hfresh.
  - exists s. do 3 (split; [reflexivity|]).
    split; [intros; reflexivity | constructor].
  - cbn [fmap list_fmap] in Hnd. apply NoDup_cons in Hnd as [Hp Hnd].
    assert (nodes (working s) !! i = None) as Hfree by (apply (Hfresh p); [left | exact Hi]).
    pose (s1 := log (EvExecute (InsertNode body))
                  (set_working (set_nodes (insert i body) (working s)) s)).
    assert ((cursor_execute (InsertNode body);; ret tt) s = (Ok tt, s1)) as Hstep.
    { unfold bind, cursor_execute, exec. rewrite Hbid, Hfree. reflexivity. }
    destruct (IH s1 Hnd) as (s2 & Hrun & Hh & Hc & Hother & Hstored).
    { intros q j Hq Hj. simpl. rewrite lookup_insert_ne.
      - apply (Hfresh q j); [right; exact Hq | exact Hj].
      - intros ->. apply Hp. rewrite Hi, <- Hj.
        apply list_elem_of_fmap. exists q. split; [reflexivity | exact Hq]. }
    exists s2. split.
    { unfold cursor_executemany in *. cbn [for_each]. unfold bind at 1.
      rewrite Hstep. exact Hrun. }
    split; [exact Hh|]. split; [exact Hc|]. split.
    + intros j Hj. cbn [fmap list_fmap] in Hj. apply not_elem_of_cons in Hj as [Hne Hj].
      rewrite (Hother j Hj). simpl. apply lookup_insert_ne.
      intros ->. apply Hne. symmetry. exact Hi.
    + constructor; [|exact Hstored].
      intros i' Hi'. rewrite Hi in Hi'. injection Hi' as <-.
      rewrite Hother by (rewrite <- Hi; exact Hp). simpl. apply lookup_insert_eq.
Qed.

(** X7. A batch that [add_nodes] stores.  Let the zipped pairs have
    distinct identifiers and distinct mapping objects, each identifier
    free and each mapping serialisable with its identifier.  Then
    [add_nodes] commits; every pair's node is stored under its identifier
    with the mapping plus ["id"]; the caller's mapping itself has become
    that body; nodes under other identifiers and objects outside the
    zipped pairs (the surplus of a longer list included) are as before. *)
Theorem add_nodes_stores_batch db_url auth_token batch ids s :
  let pairs := zip ids batch in
  NoDup pairs.*1 →
  NoDup pairs.*2 →
  (∀ p, p ∈ pairs → batch_ready (heap s) (committed s) p) →
  ∃ s',
    Database.atomic db_url auth_token (Database.add_nodes batch ids) s = (Ok tt, s')
    ∧ (∀ i l d, (Some i, l) ∈ pairs → heap s !! l = Some (ODict d) →
         nodes (committed s') !! i = Some (<["id" := ident_value i]> d)
         ∧ heap s' !! l = Some (ODict (<["id" := ident_value i]> d)))
    ∧ (∀ j, Some j ∉ pairs.*1 → nodes (committed s') !! j = nodes (committed s) !! j)
    ∧ (∀ l, l ∉ pairs.*2 → heap s' !! l = heap s !! l).
Proof.
  intros pairs Hids Hlocs Hready.
  destruct (dump_batch_run pairs (opened db_url auth_token s) Hlocs)
    as (bodies & s1 & Hdump & Hw & Hc & _ & Hf & Hrest).
  { intros p Hp. destruct (Hready p Hp) as (i & d & Hi & Hd & Hser & _).
    exists i, d. repeat split; assumption. }
  destruct (insert_batch_run pairs bodies s1) as (s2 & Hins & Hh2 & Hc2 & Hother & Hstored).
  { eapply Forall2_impl; [exact Hf|]. intros p body (i & d & Hi & _ & -> & _).
    exists i. split; [exact Hi | apply body_id_insert]. }
  { exact Hids. }
  { intros p i Hp Hi. rewrite Hw. simpl.
    destruct (Hready p Hp) as (i' & d & Hi' & _ & _ & Hfree). congruence. }
  exists (commit_state s2). split.
  { rewrite atomic_run, add_nodes_unfold. fold pairs. unfold bind at 1.
    rewrite Hdump, Hins. reflexivity. }
  simpl. split; [|split].
  - intros i l d Hin Hd.
    destruct (proj1 (list_elem_of_lookup _ _) Hin) as [n Hn].
    destruct (Forall2_lookup_l _ _ _ _ _ Hf Hn) as (body & Hbn & (i' & d' & Hi' & Hd' & -> & Hh)).
    destruct (Forall2_lookup_l _ _ _ _ _ Hstored Hn) as (body' & Hbn' & Hst).
    rewrite Hbn in Hbn'. injection Hbn' as <-.
    simpl in Hi', Hd', Hh. injection Hi' as <-.
    assert (d' = d) as -> by (simpl in Hd'; congruence).
    split; [exact (Hst i eq_refl)|]. rewrite Hh2. exact Hh.
  - intros j Hj. rewrite (Hother j Hj), Hw. reflexivity.
  - intros l Hl. rewrite Hh2, (Hrest l Hl). reflexivity.
Qed.

Lemma insert_step body i s :
  body_id body = Some i →
  nodes (working s) !! i = None →
  cursor_execute (InsertNode body) s
  = (Ok [], log (EvExecute (InsertNode body))
              (set_working (set_nodes (insert i body) (working s)) s)).
Proof. intros Hb Hi. unfold cursor_execute, exec. rewrite Hb, Hi. reflexivity. Qed.

(** X8. The same mapping object twice in a batch.  [add_nodes([m, m],
    [i, j])] serialises the object once after each injection, so it stores
    two nodes, each body carrying its own identifier, and the caller's
    mapping ends up with the last identifier. *)
Theorem add_nodes_same_mapping_twice db_url auth_token l d i j s :
  heap s !! l = Some (ODict d) →
  i ≠ j →
  nodes (committed s) !! i = None →
  nodes (committed s) !! j = None →
  serializable_dict (<["id" := ident_value i]> d) = true →
  serializable_dict (<["id" := ident_value j]> d) = true →
  ∃ s',
    Database.atomic db_url auth_token (Database.add_nodes [l; l] [Some i; Some j]) s
    = (Ok tt, s')
    ∧ nodes (committed s') !! i = Some (<["id" := ident_value i]> d)
    ∧ nodes (committed s') !! j = Some (<["id" := ident_value j]> d)
    ∧ heap s' !! l = Some (ODict (<["id" := ident_value j]> d)).
Proof.
  intros Hd Hij Hi Hj Hseri Hserj.
  assert (dump_node (Some i, l) (opened db_url auth_token s)
          = (Ok (<["id" := ident_value i]> d), heap_set_id i l d (opened db_url auth_token s)))
    as H1.
  { rewrite dump_node_run. simpl. rewrite Hd. simpl. rewrite Hseri. reflexivity. }
  assert (dump_node (Some j, l) (heap_set_id i l d (opened db_url auth_token s))
          = (Ok (<["id" := ident_value j]> d),
             heap_set_id j l (<["id" := ident_value i]> d)
               (heap_set_id i l d (opened db_url auth_token s)))) as H2.
  { rewrite dump_node_run. simpl. rewrite lookup_insert_eq. simpl.
    rewrite insert_insert_eq, Hserj. reflexivity. }
  set (s2 := heap_set_id j l (<["id" := ident_value i]> d)
               (heap_set_id i l d (opened db_url auth_token s))).
  assert (map_m dump_node [(Some i, l); (Some j, l)] (opened db_url auth_token s)
          = (Ok [<["id" := ident_value i]> d; <["id" := ident_value j]> d], s2)) as Hm.
  { cbn [map_m]. unfold bind. rewrite H1, H2. reflexivity. }
  pose (s3 := log (EvExecute (InsertNode (<["id" := ident_value i]> d)))
                (set_working (set_nodes (insert i (<["id" := ident_value i]> d)) (working s2)) s2)).
  assert (cursor_executemany InsertNode
            [<["id" := ident_value i]> d; <["id" := ident_value j]> d] s2
          = (Ok tt,
             log (EvExecute (InsertNode (<["id" := ident_value j]> d)))
               (set_working (set_nodes (insert j (<["id" := ident_value j]> d)) (working s3)) s3)))
    as He.
  { unfold cursor_executemany. cbn [for_each]. unfold bind.
    rewrite (insert_step _ i s2) by (try apply body_id_insert; exact Hi).
    cbv beta iota. unfold ret at 1. cbv beta iota. fold s3.
    rewrite (insert_step _ j s3)
      by (try apply body_id_insert; simpl; rewrite lookup_insert_ne by exact Hij; exact Hj).
    reflexivity. }
  eexists. split.
  { rewrite atomic_run, add_nodes_unfold. cbn [zip zip_with].
    unfold bind at 1. rewrite Hm, He. reflexivity. }
  simpl. split; [rewrite lookup_insert_ne by congruence; apply lookup_insert_eq|].
  split; [apply lookup_insert_eq|].
  rewrite lookup_insert_eq, insert_insert_eq. reflexivity.
Qed.

(** ** Without an identifier *)

Lemma insert_node_none_run data s :
  Database._insert_node None data s
  = match dump_of (heap s) data with
    | Some d =>
        match body_id d with
        | Some i =>
            match nodes (working s) !! i with
            | None => (Ok tt, log (EvExecute (InsertNode d))
                                (set_working (set_nodes (insert i d) (working s)) s))
            | Some _ => (Raise IntegrityError, log (EvExecute (InsertNode d)) s)
            end
        | None => (Raise IntegrityError, log (EvExecute (InsertNode d)) s)
        end
    | None => (Raise TypeError, s)
    end.
Proof.
  unfold Database._insert_node, Database._set_id, bind, ret. rewrite json_dumps_run.
  destruct (dump_of (heap s) data) as [d|]; [|reflexivity].
  unfold cursor_execute, exec. destruct (body_id d) as [i|]; [|reflexivity].
  destruct (nodes (working s) !! i); reflexivity.
Qed.

(** X9. With the identifier [None], [add_node] never writes to the
    caller's mapping; a serialisable mapping is stored as it is under the
    identifier it carries in ["id"] when that is free, and is refused with
    an integrity error, the tables unchanged, when it carries none.
    [upsert_node(None, data)] looks up nothing and always inserts: it has
    the outcome, the tables and the heap of [add_node(data, None)]. *)
Theorem add_node_without_identifier db_url auth_token data s :
  let add := Database.atomic db_url auth_token (Database.add_node data None) s in
  let up := Database.atomic db_url auth_token (Database.upsert_node None data) s in
  heap add.2 = heap s
  ∧ (up.1 = add.1 ∧ committed up.2 = committed add.2 ∧ heap up.2 = heap add.2)
  ∧ (∀ d i, dump_of (heap s) data = Some d → body_id d = Some i →
            nodes (committed s) !! i = None →
            add.1 = Ok tt
            ∧ nodes (committed add.2) !! i = Some d
            ∧ ∀ j, j ≠ i → nodes (committed add.2) !! j = nodes (committed s) !! j)
  ∧ (∀ d, dump_of (heap s) data = Some d → body_id d = None →
          add.1 = Raise IntegrityError ∧ committed add.2 = committed s).
Proof.
  intros add up. subst add up.
  rewrite !atomic_run. unfold Database.add_node, Database.upsert_node.
  rewrite upsert_absent_run by reflexivity.
  rewrite !insert_node_none_run. cbn [heap opened log set_working set_heap working].
  destruct (dump_of (heap s) data) as [d|]; simpl.
  - destruct (body_id d) as [i|] eqn:Hid; simpl.
    + destruct (nodes (committed s) !! i) eqn:Hi; simpl.
      * split; [reflexivity|]. split; [repeat split|].
        split; [intros d' i' [= <-] Hid' Hi'; congruence|].
        intros d' [= <-] Hid'. congruence.
      * split; [reflexivity|]. split; [repeat split|]. split.
        -- intros d' i' [= <-] Hid' Hi'. rewrite Hid in Hid'. injection Hid' as <-.
           split; [reflexivity|].
           split; [apply lookup_insert_eq|]. intros j Hj. apply lookup_insert_ne. congruence.
        -- intros d' [= <-] Hid'. congruence.
    + split; [reflexivity|]. split; [repeat split|].
      split; [intros d' i' [= <-] Hid'; congruence|].
      intros d' [= <-] _. split; reflexivity.
  - split; [reflexivity|]. split; [repeat split|].
    split; [intros d' i' [=]|intros d' [=]].
Qed.

(** ** Traversal with bodies, and string targets *)

Lemma traverse_loop_bodies target rows path :
  Forall three_or_empty rows →
  Database._traverse_loop true target rows path
  = Ok (path ++ (Database.PRow <$> upto_terminator target (non_empty_rows rows))).
Proof.
  intros H. revert path. induction H as [|r rows Hr _ IH]; intros path.
  - simpl. rewrite app_nil_r. reflexivity.
  - destruct Hr as [->|Hlen]; [exact (IH path)|].
    destruct r as [|identifier [|obj [|z [|? ?]]]]; try discriminate Hlen.
    cbn [Database._traverse_loop non_empty_rows List.filter upto_terminator is_terminator].
    destruct (bool_decide (identifier = CText target) && bool_decide (obj = CText "()")).
    + reflexivity.
    + rewrite IH. unfold non_empty_rows. rewrite <- app_assoc. reflexivity.
Qed.

Lemma traverse_loop_bodies_bad target (pre : list row) (bad : row) (post : list row) path :
  Forall three_or_empty pre →
  Forall (fun r => is_terminator target r = false) pre →
  bad ≠ [] → length bad ≠ 3%nat →
  Database._traverse_loop true target (pre ++ bad :: post) path = Raise ValueError.
Proof.
  intros Hshape. revert path.
  induction Hshape as [|r pre Hr _ IH]; intros path Hterm Hbad Hlen.
  - destruct bad as [|identifier [|obj [|z [|? ?]]]]; try reflexivity;
      [exfalso; apply Hbad; reflexivity | exfalso; apply Hlen; reflexivity].
  - apply Forall_cons in Hterm as [Hr0 Hterm].
    destruct Hr as [->|Hl]; [exact (IH path Hterm Hbad Hlen)|].
    destruct r as [|identifier [|obj [|z [|? ?]]]]; try discriminate Hl.
    cbn [app Database._traverse_loop]. simpl in Hr0. rewrite Hr0.
    exact (IH _ Hterm Hbad Hlen).
Qed.

(** X10. [traverse] with [with_bodies] true.  When every row is empty or
    has three columns, the path is the sequence of the non-empty rows
    themselves, in order and with repetitions kept, cut after the first row
    whose identifier is the JSON text of the target and whose second column
    is ["()"]; without such a row it is all the non-empty rows.  A
    non-empty row of another length, met before that, makes the call raise
    [ValueError] and nothing is committed. *)
Theorem traverse_with_bodies traverse_template db_url auth_token src tgt neighbors_fn s :
  let rows := traverse_template (neighbors_fn true) src (committed s) in
  let target := json_dumps_scalar tgt in
  let r := Database.traverse traverse_template db_url auth_token src tgt neighbors_fn true s in
  (Forall three_or_empty rows →
   r.1 = Ok (Database.PRow <$> upto_terminator target (non_empty_rows rows))
   ∧ (Forall (fun row => is_terminator target row = false) rows →
      r.1 = Ok (Database.PRow <$> non_empty_rows rows)))
  ∧ (∀ pre bad post,
       rows = pre ++ bad :: post →
       Forall three_or_empty pre →
       Forall (fun row => is_terminator target row = false) pre →
       bad ≠ [] → length bad ≠ 3%nat →
       r.1 = Raise ValueError ∧ committed r.2 = committed s).
Proof.
  intros rows target r. subst r.
  unfold Database.traverse. rewrite atomic_run.
  unfold Database._traverse, bind, Database.cursor_execute_traverse, lift.
  cbn [working opened log set_working fst]. fold rows target.
  split.
  - intros Hshape. rewrite (traverse_loop_bodies target rows [] Hshape). simpl.
    split; [reflexivity|]. intros Hno. do 2 f_equal.
    clear Hshape. induction rows as [|row rows' IH]; [reflexivity|].
    apply Forall_cons in Hno as [Hrow Hno]. unfold non_empty_rows in *. simpl.
    destruct row as [|c cs]; [exact (IH Hno)|].
    cbn [upto_terminator]. rewrite Hrow, (IH Hno). reflexivity.
  - intros pre bad post Hrows Hshape Hno Hbad Hlen.
    rewrite Hrows.
    pose proof (traverse_loop_bodies_bad target pre bad post [] Hshape Hno Hbad Hlen) as Hraise.
    rewrite Hraise.
    split; reflexivity.
Qed.

Lemma json_dumps_scalar_quoted s : quoted (json_dumps_scalar (Some (IdStr s))) = true.
Proof. reflexivity. Qed.

(** X11. A [str] target.  The JSON text of a string begins with a double
    quote, so when no row identifier is a text that begins with one,
    [traverse(src, tgt)] with a [str] target and without bodies never stops
    early: it returns every distinct row identifier, the target's own
    included. *)
Theorem traverse_string_target_full_frontier
    traverse_template db_url auth_token src t neighbors_fn s :
  let rows := traverse_template (neighbors_fn false) src (committed s) in
  (∀ x, CText x ∈ first_columns rows → quoted x = false) →
  (Database.traverse traverse_template db_url auth_token src (Some (IdStr t))
     neighbors_fn false s).1
  = Ok (Database.PId <$> dedup_first (first_columns rows)).
Proof.
  intros rows Hplain. rewrite traverse_run. fold rows.
  rewrite upto_absent; [reflexivity|].
  intros Hin. specialize (Hplain _ Hin).
  rewrite json_dumps_scalar_quoted in Hplain. discriminate Hplain.
Qed.

(** ** Sequence identifiers of embeddings *)

Lemma foldr_max_bound (z : Z) (zs : list Z) :
  z ≤ foldr Z.max z zs ∧ ∀ x, x ∈ zs → x ≤ foldr Z.max z zs.
Proof.
  induction zs as [|y zs [IHz IH]]; simpl.
  - split; [lia|]. intros x Hx. apply elem_of_nil in Hx. contradiction.
  - split; [lia|]. intros x [->|Hx]%elem_of_cons; [lia|].
    specialize (IH x Hx). lia.
Qed.

Lemma max_rowid_bound (t : list embedding) :
  ∀ e z, e ∈ t → emb_id e = CInt z → z ≤ max_rowid t.
Proof.
  intros e z He Hz.
  assert (Hin : z ∈ rowids t).
  { unfold rowids. apply list_elem_of_omap. exists e. rewrite Hz. split; [exact He|reflexivity]. }
  unfold max_rowid. destruct (rowids t) as [|y ys].
  - apply elem_of_nil in Hin. contradiction.
  - destruct (foldr_max_bound y ys) as [Hy Hys].
    apply elem_of_cons in Hin as [->|Hin]; [exact Hy|exact (Hys z Hin)].
Qed.

Lemma foldr_max_attained (z : Z) (zs : list Z) : foldr Z.max z zs ∈ z :: zs.
Proof.
  induction zs as [|y zs IH]; simpl; [left|].
  destruct (Z.max_spec y (foldr Z.max z zs)) as [[_ ->]|[_ ->]].
  - apply elem_of_cons in IH as [->|IH]; [left|right; right; exact IH].
  - right; left.
Qed.

Lemma max_rowid_attained (t : list embedding) e z :
  e ∈ t → emb_id e = CInt z →
  ∃ e', e' ∈ t ∧ emb_id e' = CInt (max_rowid t).
Proof.
  intros He Hz.
  assert (Hin : z ∈ rowids t).
  { unfold rowids. apply list_elem_of_omap. exists e. rewrite Hz. split; [exact He|reflexivity]. }
  assert (Hmax : max_rowid t ∈ rowids t).
  { unfold max_rowid. destruct (rowids t) as [|y ys].
    - apply elem_of_nil in Hin. contradiction.
    - apply foldr_max_attained. }
  unfold rowids in Hmax. apply list_elem_of_omap in Hmax as (e' & He' & Hid).
  exists e'. split; [exact He'|]. destruct (emb_id e'); congruence.
Qed.

Lemma NoDup_snoc_fresh_id (t : list embedding) vec :
  NoDup (emb_id <$> t) →
  NoDup (emb_id <$> (t ++ [mkEmbedding (CInt (max_rowid t + 1)) vec])).
Proof.
  intros Hnd. rewrite fmap_app. apply NoDup_app. split; [exact Hnd|].
  split; [|apply NoDup_singleton].
  intros c Hc Hc'. simpl in Hc'. apply list_elem_of_singleton in Hc'. subst c.
  apply list_elem_of_fmap in Hc as (e & He & Hin).
  pose proof (max_rowid_bound t e _ Hin (eq_sym He)). lia.
Qed.

(** X12. [add_node_embedding] numbers its row [COALESCE(MAX(rowid), 0) + 1].
    When the mapping with the injected identifier is serialisable and the
    provider returns a vector for it, the call commits exactly one new
    row, placed after the old ones, whose identifier is one more than the
    largest integer identifier of the table, which some row carries, hence
    larger than every one of them (it is 1 on an empty table, and may be
    negative or 0 when all identifiers are negative); identifiers that
    were pairwise distinct
    stay so; the other tables are untouched.  When the provider fails the
    call fails and the table is as before. *)
Theorem add_node_embedding_sequence get_embedding i data d s :
  heap s !! data = Some (ODict d) →
  serializable_dict (<["id" := ident_value i]> d) = true →
  let old := nodes_embedding (committed s) in
  let r := SQLiteVSS.add_node_embedding get_embedding (Some i) data s in
  (∀ vec,
     get_embedding (SQLiteVSS.PayloadText (<["id" := ident_value i]> d)) = Ok vec →
     r.1 = Ok tt
     ∧ nodes_embedding (committed r.2) = old ++ [mkEmbedding (CInt (max_rowid old + 1)) vec]
     ∧ (old = [] → max_rowid old + 1 = 1)
     ∧ (∀ e z, e ∈ old → emb_id e = CInt z →
          z < max_rowid old + 1
          ∧ ∃ e', e' ∈ old ∧ emb_id e' = CInt (max_rowid old))
     ∧ (NoDup (emb_id <$> old) → NoDup (emb_id <$> nodes_embedding (committed r.2)))
     ∧ relationship_embedding (committed r.2) = relationship_embedding (committed s)
     ∧ nodes (committed r.2) = nodes (committed s)
     ∧ edges (committed r.2) = edges (committed s))
  ∧ (∀ e,
       get_embedding (SQLiteVSS.PayloadText (<["id" := ident_value i]> d)) = Raise e →
       is_ok r.1 = false ∧ committed r.2 = committed s).
Proof.
  intros Hd Hser old r. subst r.
  unfold SQLiteVSS.add_node_embedding. rewrite db_atomic_run.
  unfold SQLiteVSS._add_embedding, SQLiteVSS._set_id, bind, setitem, ret. simpl.
  rewrite Hd. simpl. unfold json_dumps. simpl. rewrite lookup_insert_eq, Hser.
  unfold lift. split.
  - intros vec ->. simpl. fold old.
    split; [reflexivity|]. split; [reflexivity|].
    split; [intros ->; reflexivity|].
    split.
    { intros e z He Hz. split; [pose proof (max_rowid_bound old e z He Hz); lia|].
      exact (max_rowid_attained old e z He Hz). }
    split; [apply NoDup_snoc_fresh_id|]. repeat split.
  - intros e ->. simpl. split; reflexivity.
Qed.





(** ** Edge embeddings *)

Lemma add_edge_embedding_closure get_edge_embedding data s :
  ∃ s1,
    heap s1 = heap s
    ∧ match get_edge_embedding data with
      | Ok vec =>
          SQLiteVSS.db_atomic (SQLiteVSS._add_edge_embedding get_edge_embedding data) s
          = (Ok tt, s1)
          ∧ committed s1
            = set_relationship_embedding
                (fun t => t ++ [mkEmbedding
                                  (CInt (max_rowid (relationship_embedding (committed s)) + 1))
                                  vec])
                (committed s)
      | Raise e =>
          SQLiteVSS.db_atomic (SQLiteVSS._add_edge_embedding get_edge_embedding data) s
          = (Raise (TransactionError e), s1)
          ∧ committed s1 = committed s
      end.
Proof.
  rewrite db_atomic_run. unfold SQLiteVSS._add_edge_embedding.
  unfold bind, cursor_execute, SQLiteVSS.next_count, fetchone, ret, lift, commit. simpl.
  destruct (get_edge_embedding data) as [vec|e]; simpl; eexists;
    (split; [|split; [reflexivity|reflexivity]]); reflexivity.
Qed.

(** X14. [add_edge_embedding] serialises the caller's attributes before it
    asks the database for anything and never writes to the caller's
    objects.  Attributes [json.dumps] refuses make the call raise the
    bare [TypeError] with no connection opened and nothing changed.
    Otherwise, when the provider returns a vector for the edge data, the
    call commits exactly one new row, after the old ones, numbered one
    more than the largest integer identifier of [relationship_embedding],
    and leaves the other tables alone; when the provider fails, the call
    fails and the tables are as before. *)
Theorem add_edge_embedding_appends get_edge_embedding source target label attributes s :
  let r := SQLiteVSS.add_edge_embedding get_edge_embedding source target label attributes s in
  let old := relationship_embedding (committed s) in
  heap r.2 = heap s
  ∧ (dump_of (heap s) attributes = None → r = (Raise TypeError, s))
  ∧ (∀ attrs, dump_of (heap s) attributes = Some attrs →
       match get_edge_embedding (SQLiteVSS.mkEdgeData source target label attrs) with
       | Ok vec =>
           r.1 = Ok tt
           ∧ relationship_embedding (committed r.2)
             = old ++ [mkEmbedding (CInt (max_rowid old + 1)) vec]
           ∧ (∀ e z, e ∈ old → emb_id e = CInt z → z < max_rowid old + 1)
           ∧ nodes_embedding (committed r.2) = nodes_embedding (committed s)
           ∧ nodes (committed r.2) = nodes (committed s)
           ∧ edges (committed r.2) = edges (committed s)
       | Raise e =>
           r.1 = Raise (TransactionError e) ∧ committed r.2 = committed s
       end).
Proof.
  intros r old.
  assert (Hr : r = match dump_of (heap s) attributes with
                   | Some attrs =>
                       SQLiteVSS.db_atomic
                         (SQLiteVSS._add_edge_embedding get_edge_embedding
                            (SQLiteVSS.mkEdgeData source target label attrs)) s
                   | None => (Raise TypeError, s)
                   end).
  { subst r. unfold SQLiteVSS.add_edge_embedding, bind. rewrite json_dumps_run.
    destruct (dump_of (heap s) attributes); reflexivity. }
  clearbody r. subst r.
  destruct (dump_of (heap s) attributes) as [attrs|].
  - destruct (add_edge_embedding_closure get_edge_embedding
                (SQLiteVSS.mkEdgeData source target label attrs) s) as (s1 & Hh & Hrun).
    destruct (get_edge_embedding _) as [vec|e] eqn:Hvec; destruct Hrun as [-> Hc]; simpl.
    + split; [exact Hh|]. split; [discriminate|].
      intros ? [= <-]. rewrite Hvec, Hc. simpl. fold old.
      split; [reflexivity|]. split; [reflexivity|]. split; [|repeat split].
      intros e z He Hz. pose proof (max_rowid_bound old e z He Hz). lia.
    + split; [exact Hh|]. split; [discriminate|].
      intros ? [= <-]. rewrite Hvec. split; [reflexivity|exact Hc].
  - split; [reflexivity|]. split; [reflexivity|]. discriminate.
Qed.

Lemma add_edge_embedding_grows get_edge_embedding source target label attributes s :
  let s1 := (SQLiteVSS.add_edge_embedding get_edge_embedding source target label attributes s).2 in
  relationship_embedding (committed s) `prefix_of` relationship_embedding (committed s1)
  ∧ nodes_embedding (committed s1) = nodes_embedding (committed s).
Proof.
  intros s1.
  assert (Hr : s1 = (match dump_of (heap s) attributes with
                     | Some attrs =>
                         SQLiteVSS.db_atomic
                           (SQLiteVSS._add_edge_embedding get_edge_embedding
                              (SQLiteVSS.mkEdgeData source target label attrs)) s
                     | None => (Raise TypeError, s)
                     end).2).
  { subst s1. unfold SQLiteVSS.add_edge_embedding, bind. rewrite json_dumps_run.
    destruct (dump_of (heap s) attributes); reflexivity. }
  clearbody s1. subst s1.
  destruct (dump_of (heap s) attributes) as [attrs|].
  - destruct (add_edge_embedding_closure get_edge_embedding
                (SQLiteVSS.mkEdgeData source target label attrs) s) as (s1 & _ & Hrun).
    destruct (get_edge_embedding _) as [vec|e]; destruct Hrun as [-> Hc]; simpl; rewrite Hc.
    + split; [apply prefix_app_r; reflexivity|reflexivity].
    + split; reflexivity.
  - split; reflexivity.
Qed.

Lemma for_each_cons_run {A} (f : A → M unit) x xs s :
  for_each f (x :: xs) s
  = match f x s with
    | (Ok _, s0) => for_each f xs s0
    | (Raise e, s0) => (Raise e, s0)
    end.
Proof. reflexivity. Qed.

Lemma add_edge_embeddings_grow get_edge_embedding
    (xs : list (option ident * option ident * string * loc)) :
  ∀ s,
    let s1 := (for_each (fun x =>
                 attrs <- json_dumps (snd x) ;;
                 SQLiteVSS.db_atomic
                   (SQLiteVSS._add_edge_embedding get_edge_embedding
                      (SQLiteVSS.mkEdgeData (fst (fst (fst x))) (snd (fst (fst x)))
                         (snd (fst x)) attrs))) xs s).2 in
    relationship_embedding (committed s) `prefix_of` relationship_embedding (committed s1)
    ∧ nodes_embedding (committed s1) = nodes_embedding (committed s).
Proof.
  induction xs as [|[[[src tgt] lbl] attr] xs IH]; intros s.
  - simpl. split; reflexivity.
  - rewrite for_each_cons_run. cbn [fst snd].
    pose proof (add_edge_embedding_grows get_edge_embedding src tgt lbl attr s) as [Hp Hn].
    unfold SQLiteVSS.add_edge_embedding in Hp, Hn.
    destruct (bind (json_dumps attr) _ s) as [[[]|e] s0]; simpl in Hp, Hn.
    + destruct (IH s0) as [Hp' Hn']. split; etransitivity; eassumption.
    + simpl. split; assumption.
Qed.

Lemma add_edge_embedding_ok_one_more get_edge_embedding source target label attributes s s1 :
  SQLiteVSS.add_edge_embedding get_edge_embedding source target label attributes s
  = (Ok tt, s1) →
  length (relationship_embedding (committed s1))
  = S (length (relationship_embedding (committed s))).
Proof.
  unfold SQLiteVSS.add_edge_embedding, bind. rewrite json_dumps_run.
  destruct (dump_of (heap s) attributes) as [attrs|]; [|discriminate].
  destruct (add_edge_embedding_closure get_edge_embedding
              (SQLiteVSS.mkEdgeData source target label attrs) s) as (s2 & _ & Hrun).
  destruct (get_edge_embedding _) as [vec|e]; destruct Hrun as [-> Hc]; [|discriminate].
  intros [= <-]. rewrite Hc. simpl. rewrite length_app. simpl. lia.
Qed.

(** X15. [add_edge_embeddings] runs one atomic unit per element, so what
    an element stored survives whatever happens to the later ones.  For
    every input and every outcome the committed rows of
    [relationship_embedding] before the call are a prefix of those after
    it and [nodes_embedding] is not touched; and when the first element
    goes through, the batch continues from the state that call left, with
    its committed row still in place at the end, also when a later element
    fails. *)
Theorem add_edge_embeddings_keep_earlier get_edge_embedding
    sources targets labels attributes s :
  let r := SQLiteVSS.add_edge_embeddings get_edge_embedding sources targets labels attributes s in
  relationship_embedding (committed s) `prefix_of` relationship_embedding (committed r.2)
  ∧ nodes_embedding (committed r.2) = nodes_embedding (committed s)
  ∧ (∀ src tgt lbl attr s1,
       SQLiteVSS.add_edge_embedding get_edge_embedding src tgt lbl attr s = (Ok tt, s1) →
       let r' := SQLiteVSS.add_edge_embeddings get_edge_embedding
                   (src :: sources) (tgt :: targets) (lbl :: labels) (attr :: attributes) s in
       r' = SQLiteVSS.add_edge_embeddings get_edge_embedding sources targets labels attributes s1
       ∧ relationship_embedding (committed s1) `prefix_of` relationship_embedding (committed r'.2)
       ∧ length (relationship_embedding (committed s1))
         = S (length (relationship_embedding (committed s)))).
Proof.
  intros r. subst r. unfold SQLiteVSS.add_edge_embeddings.
  destruct (add_edge_embeddings_grow get_edge_embedding
              (zip (zip (zip sources targets) labels) attributes) s) as [Hp Hn].
  split; [exact Hp|]. split; [exact Hn|].
  intros src tgt lbl attr s1 Hfirst.
  assert (Hstep : for_each (fun x =>
                 attrs <- json_dumps (snd x) ;;
                 SQLiteVSS.db_atomic
                   (SQLiteVSS._add_edge_embedding get_edge_embedding
                      (SQLiteVSS.mkEdgeData (fst (fst (fst x))) (snd (fst (fst x)))
                         (snd (fst x)) attrs)))
              (zip (zip (zip (src :: sources) (tgt :: targets)) (lbl :: labels)) (attr :: attributes)) s
           = for_each (fun x =>
                 attrs <- json_dumps (snd x) ;;
                 SQLiteVSS.db_atomic
                   (SQLiteVSS._add_edge_embedding get_edge_embedding
                      (SQLiteVSS.mkEdgeData (fst (fst (fst x))) (snd (fst (fst x)))
                         (snd (fst x)) attrs)))
              (zip (zip (zip sources targets) labels) attributes) s1).
  { cbn [zip zip_with]. rewrite for_each_cons_run. cbn [fst snd].
    unfold SQLiteVSS.add_edge_embedding in Hfirst. rewrite Hfirst. reflexivity. }
  rewrite Hstep. split; [reflexivity|]. split.
  - apply (add_edge_embeddings_grow get_edge_embedding
             (zip (zip (zip sources targets) labels) attributes) s1).
  - exact (add_edge_embedding_ok_one_more get_edge_embedding src tgt lbl attr s s1 Hfirst).
Qed.

(** ** The other searches *)

Lemma sublist_List_filter {A} (p : A → bool) (l : list A) :
  List.filter p l `sublist_of` l.
Proof.
  induction l as [|x l IH]; simpl; [constructor|].
  destruct (p x); [apply sublist_skip|apply sublist_cons]; exact IH.
Qed.

Lemma slice_to_sublist {A} limit (l : list A) : SQLiteVSS.slice_to limit l `sublist_of` l.
Proof. unfold SQLiteVSS.slice_to. destruct (0 <=? limit); apply sublist_take. Qed.

Lemma threshold_cut_answers {A} (distance : A → float) threshold limit rows :
  answers_scan distance threshold limit rows
    (Ok (threshold_cut distance threshold limit rows)).
Proof.
  unfold answers_scan. split.
  - destruct rows; simpl; split; intros H; try reflexivity; discriminate.
  - intros Hne.
    set (kept := match threshold with
                 | Some t => List.filter (fun x => PrimFloat.ltb (distance x) t) rows
                 | None => rows
                 end).
    assert (Hkept : ∀ x, x ∈ kept ↔ x ∈ rows ∧ within distance threshold x = true).
    { intros x. subst kept. unfold within. destruct threshold as [t|].
      - rewrite !list_elem_of_In, filter_In. reflexivity.
      - split; [intros H; split; [exact H|reflexivity]|intros [H _]; exact H]. }
    assert (Hsub : kept `sublist_of` rows).
    { subst kept. destruct threshold; [apply sublist_List_filter|reflexivity]. }
    exists (SQLiteVSS.slice_to limit kept).
    split; [destruct rows; [contradiction|reflexivity]|].
    split; [etransitivity; [apply slice_to_sublist|exact Hsub]|].
    split.
    + intros x Hx. apply Hkept.
      eapply elem_of_sublist; [exact Hx|apply slice_to_sublist].
    + intros Hlim. unfold SQLiteVSS.slice_to.
      destruct (Z.leb_spec 0 limit); [|lia].
      rewrite length_take. split; [lia|].
      intros Hlt x Hx Hw. rewrite take_ge by lia. apply Hkept. split; assumption.
Qed.

Lemma search_edge_run get_embedding sql desc_sql data threshold descending limit sort_by s :
  let r := SQLiteVSS.vector_search_edge get_embedding sql desc_sql data threshold
             descending limit sort_by s in
  committed r.2 = committed s
  ∧ heap r.2 = heap s
  ∧ r.1 = match get_embedding (SQLiteVSS.QueryText data) with
          | Ok v =>
              Ok (threshold_cut SQLiteVSS.edge_hit_distance threshold limit
                    ((if descending then desc_sql else sql) v limit (committed s)))
          | Raise e => Raise (TransactionError e)
          end.
Proof.
  intros r. subst r. unfold SQLiteVSS.vector_search_edge. rewrite db_atomic_run.
  unfold SQLiteVSS._search_edge, bind, lift.
  destruct (get_embedding _) as [v|e]; [|repeat split].
  destruct descending; simpl.
  - destruct (desc_sql v limit (committed s)) as [|x0 rows0]; [repeat split|].
    destruct threshold; repeat split.
  - destruct (sql v limit (committed s)) as [|x0 rows0]; [repeat split|].
    destruct threshold; repeat split.
Qed.

(** X16. [vector_search_edge] reads [vector-search-edge-desc.sql] when
    [descending] is set and [vector-search-edge.sql] otherwise, and that is
    all [descending] does; [sort_by] is never used.  The call leaves the
    tables and the caller's objects alone.  When the provider fails the
    call fails; otherwise it returns nothing exactly when the scan is
    empty, and else scan rows in scan order, each with a distance strictly
    below the threshold if one is given, at most [limit] of them, and all
    of the qualifying rows when fewer than [limit] come back. *)
Theorem vector_search_edge_answers_scan
    get_embedding sql desc_sql data threshold descending limit sort_by s :
  let run := SQLiteVSS.vector_search_edge get_embedding sql desc_sql data threshold
               descending limit in
  (∀ sort_by', run sort_by' s = run sort_by s)
  ∧ committed (run sort_by s).2 = committed s
  ∧ heap (run sort_by s).2 = heap s
  ∧ match get_embedding (SQLiteVSS.QueryText data) with
    | Ok v =>
        answers_scan SQLiteVSS.edge_hit_distance threshold limit
          ((if descending then desc_sql else sql) v limit (committed s))
          (run sort_by s).1
    | Raise e => (run sort_by s).1 = Raise (TransactionError e)
    end.
Proof.
  intros run. subst run.
  destruct (search_edge_run get_embedding sql desc_sql data threshold descending
              limit sort_by s) as (Hc & Hh & Hr).
  split; [reflexivity|]. split; [exact Hc|]. split; [exact Hh|].
  simpl in Hr. rewrite Hr. destruct (get_embedding _) as [v|e]; [|reflexivity].
  apply threshold_cut_answers.
Qed.

Lemma search_multi_db_run get_embedding node_sql edge_sql data threshold limit s :
  let rn := SQLiteVSS.vector_search_node_from_multi_db get_embedding node_sql
              data threshold limit s in
  let re := SQLiteVSS.vector_search_edge_from_multi_db get_embedding edge_sql
              data threshold limit s in
  (committed rn.2 = committed s ∧ heap rn.2 = heap s
   ∧ rn.1 = match get_embedding (SQLiteVSS.QueryText data) with
            | Ok v =>
                Ok (threshold_cut SQLiteVSS.similarity_hit_distance threshold limit
                      (node_sql v limit (committed s)))
            | Raise e => Raise (TransactionError e)
            end)
  ∧ (committed re.2 = committed s ∧ heap re.2 = heap s
     ∧ re.1 = match get_embedding (SQLiteVSS.QueryText data) with
              | Ok v =>
                  Ok (threshold_cut SQLiteVSS.similarity_hit_distance threshold limit
                        (edge_sql v limit (committed s)))
              | Raise e => Raise (TransactionError e)
              end).
Proof.
  intros rn re. subst rn re.
  unfold SQLiteVSS.vector_search_node_from_multi_db,
    SQLiteVSS.vector_search_edge_from_multi_db.
  rewrite !db_atomic_run.
  unfold SQLiteVSS._search_node_multi_db, SQLiteVSS._search_edge_multi_db, bind, lift.
  destruct (get_embedding _) as [v|e]; [|repeat split]. simpl.
  split.
  - destruct (node_sql v limit (committed s)) as [|x0 rows0]; [repeat split|].
    destruct threshold; repeat split.
  - destruct (edge_sql v limit (committed s)) as [|x0 rows0]; [repeat split|].
    destruct threshold; repeat split.
Qed.

(** X17. [vector_search_node_from_multi_db] filters on the second column
    of the rows of [similarity-search-node.sql].  The call leaves the
    tables and the caller's objects alone.  When the provider fails the
    call fails; otherwise it returns nothing exactly when the scan is
    empty, and else scan rows in scan order, each with a distance strictly
    below the threshold if one is given, at most [limit] of them, and all
    of the qualifying rows when fewer than [limit] come back. *)
Theorem vector_search_node_from_multi_db_answers_scan
    get_embedding node_sql data threshold limit s :
  let r := SQLiteVSS.vector_search_node_from_multi_db get_embedding node_sql
             data threshold limit s in
  committed r.2 = committed s
  ∧ heap r.2 = heap s
  ∧ match get_embedding (SQLiteVSS.QueryText data) with
    | Ok v =>
        answers_scan SQLiteVSS.similarity_hit_distance threshold limit
          (node_sql v limit (committed s)) r.1
    | Raise e => r.1 = Raise (TransactionError e)
    end.
Proof.
  intros r. subst r.
  destruct (search_multi_db_run get_embedding node_sql node_sql data threshold limit s)
    as [(Hc & Hh & Hr) _].
  split; [exact Hc|]. split; [exact Hh|].
  simpl in Hr. rewrite Hr. destruct (get_embedding _) as [v|e]; [|reflexivity].
  apply threshold_cut_answers.
Qed.

(** X18. [vector_search_edge_from_multi_db] does the same on the rows of
    [similarity-search-edge.sql]: tables and heap untouched, failure when
    the provider fails, nothing exactly when the scan is empty, and else
    scan rows in scan order within the threshold, at most [limit] of them
    and all qualifying ones when fewer come back.  Both multi-database
    searches compare the same column, so on equal scans they agree. *)
Theorem vector_search_edge_from_multi_db_answers_scan
    get_embedding node_sql edge_sql data threshold limit s :
  let r := SQLiteVSS.vector_search_edge_from_multi_db get_embedding edge_sql
             data threshold limit s in
  committed r.2 = committed s
  ∧ heap r.2 = heap s
  ∧ match get_embedding (SQLiteVSS.QueryText data) with
    | Ok v =>
        answers_scan SQLiteVSS.similarity_hit_distance threshold limit
          (edge_sql v limit (committed s)) r.1
        ∧ (node_sql v limit (committed s) = edge_sql v limit (committed s) →
           (SQLiteVSS.vector_search_node_from_multi_db get_embedding node_sql
              data threshold limit s).1 = r.1)
    | Raise e => r.1 = Raise (TransactionError e)
    end.
Proof.
  intros r. subst r.
  destruct (search_multi_db_run get_embedding node_sql edge_sql data threshold limit s)
    as [(_ & _ & Hn) (Hc & Hh & Hr)].
  split; [exact Hc|]. split; [exact Hh|].
  simpl in Hr, Hn. rewrite Hr, Hn. destruct (get_embedding _) as [v|e]; [|reflexivity].
  split; [apply threshold_cut_answers|]. intros ->. reflexivity.
Qed.

(** ** Adding and deleting an embedding *)

Lemma add_node_embedding_run get_embedding i data d vec s :
  heap s !! data = Some (ODict d) →
  serializable_dict (<["id" := ident_value i]> d) = true →
  get_embedding (SQLiteVSS.PayloadText (<["id" := ident_value i]> d)) = Ok vec →
  ∃ s1,
    SQLiteVSS.add_node_embedding get_embedding (Some i) data s = (Ok tt, s1)
    ∧ heap s1 = <[data := ODict (<["id" := ident_value i]> d)]> (heap s)
    ∧ committed s1
      = set_nodes_embedding
          (fun t => t ++ [mkEmbedding (CInt (max_rowid (nodes_embedding (committed s)) + 1)) vec])
          (committed s).
Proof.
  intros Hd Hser Hvec.
  unfold SQLiteVSS.add_node_embedding. rewrite db_atomic_run.
  unfold SQLiteVSS._add_embedding, SQLiteVSS._set_id, bind, setitem, ret. simpl.
  rewrite Hd. simpl. unfold json_dumps. simpl. rewrite lookup_insert_eq, Hser.
  unfold lift. rewrite Hvec. simpl. eexists.
  split; [reflexivity|]. split; reflexivity.
Qed.

Lemma delete_node_embedding_int_run k s :
  ∃ s1,
    SQLiteVSS.delete_node_embedding (VList [VInt k]) s = (Ok tt, s1)
    ∧ heap s1 = heap s
    ∧ committed s1
      = set_nodes_embedding
          (List.filter (fun e => negb (cell_eqb (emb_id e) (CInt k)))) (committed s).
Proof.
  unfold SQLiteVSS.delete_node_embedding. rewrite db_atomic_run.
  unfold SQLiteVSS._remove_node, bind, lift. simpl. eexists.
  split; [reflexivity|]. split; reflexivity.
Qed.

(** X19. An embedding that was added is removed again by its number.
    After [add_node_embedding(id, data)] has stored its row under
    [n = MAX(rowid) + 1], [delete_node_embedding([n])] returns normally and
    leaves [nodes_embedding] exactly as it was before the add; the number
    is then free again, and the next [add_node_embedding] of the same
    mapping stores its row under the same [n]. *)
Theorem add_then_delete_node_embedding get_embedding i data d vec s :
  heap s !! data = Some (ODict d) →
  serializable_dict (<["id" := ident_value i]> d) = true →
  get_embedding (SQLiteVSS.PayloadText (<["id" := ident_value i]> d)) = Ok vec →
  let old := nodes_embedding (committed s) in
  let n := max_rowid old + 1 in
  let added := SQLiteVSS.add_node_embedding get_embedding (Some i) data s in
  let deleted := SQLiteVSS.delete_node_embedding (VList [VInt n]) added.2 in
  let again := SQLiteVSS.add_node_embedding get_embedding (Some i) data deleted.2 in
  added.1 = Ok tt
  ∧ deleted.1 = Ok tt
  ∧ nodes_embedding (committed deleted.2) = old
  ∧ again.1 = Ok tt
  ∧ nodes_embedding (committed again.2) = nodes_embedding (committed added.2)
  ∧ nodes_embedding (committed again.2) = old ++ [mkEmbedding (CInt n) vec].
Proof.
  intros Hd Hser Hvec old n added deleted again.
  destruct (add_node_embedding_run get_embedding i data d vec s Hd Hser Hvec)
    as (s1 & Hadd & Hh1 & Hc1).
  destruct (delete_node_embedding_int_run n s1) as (s2 & Hdel & Hh2 & Hc2).
  assert (Hold : nodes_embedding (committed s2) = old).
  { rewrite Hc2, Hc1. simpl. fold old. fold n. rewrite List.filter_app. simpl.
    rewrite (bool_decide_eq_true_2 (n = n)) by reflexivity. simpl.
    rewrite app_nil_r. apply filter_all_true.
    intros e He. destruct (emb_id e) as [|z|x|x] eqn:Hz; try reflexivity.
    simpl. apply negb_true_iff, bool_decide_eq_false_2.
    pose proof (max_rowid_bound old e z He Hz). subst n. lia. }
  assert (Hd2 : heap s2 !! data = Some (ODict (<["id" := ident_value i]> d))).
  { rewrite Hh2, Hh1. apply lookup_insert_eq. }
  assert (Hser2 : serializable_dict (<["id" := ident_value i]> (<["id" := ident_value i]> d)) = true).
  { rewrite insert_insert_eq. exact Hser. }
  assert (Hvec2 : get_embedding (SQLiteVSS.PayloadText
                    (<["id" := ident_value i]> (<["id" := ident_value i]> d))) = Ok vec).
  { rewrite insert_insert_eq. exact Hvec. }
  destruct (add_node_embedding_run get_embedding i data _ vec s2 Hd2 Hser2 Hvec2)
    as (s3 & Hagain & _ & Hc3).
  subst again deleted added. rewrite Hadd. cbn [fst snd]. rewrite Hdel. cbn [fst snd].
  rewrite Hagain. cbn [fst snd].
  split; [reflexivity|]. split; [reflexivity|]. split; [exact Hold|].
  split; [reflexivity|]. rewrite Hc3, Hc1. simpl. rewrite Hold. fold old. fold n.
  split; reflexivity.
Qed.

(** ** One identifier twice in a batch of upserts *)

Lemma insert_id_union_absorbs (v : value) (d2 d1 : dict) :
  <["id" := v]> (d2 ∪ <["id" := v]> d1) = <["id" := v]> (d2 ∪ d1).
Proof.
  apply map_eq. intros k. destruct (decide (k = "id")) as [->|Hk].
  - rewrite !lookup_insert_eq. reflexivity.
  - rewrite !lookup_insert_ne by congruence. rewrite !lookup_union.
    rewrite lookup_insert_ne by congruence. reflexivity.
Qed.

(** X20. [upsert_nodes([m1, m2], [i, i])] on a store without [i]: the first
    pair takes the insert branch and the second, finding the row the first
    one wrote on the same cursor, the update branch.  The unit commits one
    node under [i] whose body is the two mappings merged, the keys of [m2]
    winning, with ["id"] set to [i]; [m1] has received the identifier, and
    [m2] is left as the caller passed it. *)
Theorem upsert_nodes_same_id_twice db_url auth_token l1 l2 d1 d2 i s :
  l1 ≠ l2 →
  heap s !! l1 = Some (ODict d1) →
  heap s !! l2 = Some (ODict d2) →
  nodes (committed s) !! i = None →
  serializable_dict d1 = true →
  serializable_dict d2 = true →
  ∃ s',
    Database.atomic db_url auth_token
      (Database.upsert_nodes [l1; l2] [Some i; Some i]) s = (Ok tt, s')
    ∧ nodes (committed s') = <[i := <["id" := ident_value i]> (d2 ∪ d1)]> (nodes (committed s))
    ∧ edges (committed s') = edges (committed s)
    ∧ heap s' !! l1 = Some (ODict (<["id" := ident_value i]> d1))
    ∧ heap s' !! l2 = Some (ODict d2).
Proof.
  intros Hl Hd1 Hd2 Hi Hs1 Hs2.
  set (body1 := <["id" := ident_value i]> d1).
  set (merged := <["id" := ident_value i]> (d2 ∪ body1)).
  assert (Hb1 : serializable_dict body1 = true)
    by (apply serializable_dict_insert; [apply serializable_ident|exact Hs1]).
  assert (Hm : serializable_dict merged = true).
  { apply serializable_dict_insert; [apply serializable_ident|].
    apply serializable_dict_union; assumption. }
  set (s0 := log (EvExecute (SearchNode (Some i))) (opened db_url auth_token s)).
  set (sA := log (EvExecute (InsertNode body1))
               (set_working (set_nodes (insert i body1) (working s0))
                  (heap_set_id i l1 d1 s0))).
  assert (H1 : Database._upsert_node (Some i) l1 (opened db_url auth_token s) = (Ok tt, sA)).
  { rewrite upsert_absent_run by (simpl; rewrite Hi; reflexivity).
    fold s0. rewrite (insert_node_run i l1 d1 s0) by exact Hd1.
    fold body1. rewrite Hb1. simpl. rewrite Hi. reflexivity. }
  assert (Hcur : nodes (working sA) !! i = Some body1) by (simpl; apply lookup_insert_eq).
  assert (Hne : body1 ≠ ∅) by apply insert_non_empty.
  assert (HdA : heap sA !! l2 = Some (ODict d2)).
  { simpl. rewrite lookup_insert_ne by exact Hl. exact Hd2. }
  pose proof (upsert_present_run i l2 body1 sA Hcur Hne) as H2.
  rewrite HdA in H2. cbv zeta in H2. fold merged in H2. rewrite Hm in H2.
  eexists. split.
  { rewrite atomic_run. unfold Database.upsert_nodes. cbn [zip zip_with].
    rewrite for_each_cons_run. cbn [fst snd]. rewrite H1.
    rewrite for_each_cons_run. cbn [fst snd]. rewrite H2. reflexivity. }
  simpl. split.
  { rewrite insert_insert_eq. subst merged body1. rewrite insert_id_union_absorbs.
    reflexivity. }
  split; [reflexivity|].
  assert (Hfresh : fresh (dom (<[l1 := ODict body1]> (heap s))) ∉ dom (<[l1 := ODict body1]> (heap s)))
    by apply is_fresh.
  split.
  - rewrite lookup_insert_ne; [apply lookup_insert_eq|].
    intros Heq. fold body1 in Heq. apply Hfresh. rewrite Heq. apply elem_of_dom.
    rewrite lookup_insert_eq. eauto.
  - rewrite lookup_insert_ne; [rewrite lookup_insert_ne by exact Hl; exact Hd2|].
    intros Heq. fold body1 in Heq. apply Hfresh. rewrite Heq. apply elem_of_dom.
    rewrite lookup_insert_ne by exact Hl. rewrite Hd2. eauto.
Qed.

(** * The further properties at concrete stores *)

Ltac by_computation_from H := etransitivity; [exact H | by_computation].

(** ** X1, X2 *)

Lemma upsert_node_idempotent_witness :
  let s1 := (Database.atomic "" "" (Database.upsert_node (Some id_n) 0%nat) demo_state).2 in
  heap demo_state !! 0%nat = Some (ODict {["a" := VInt 1]})
  ∧ Database.atomic "" "" (Database.upsert_node (Some id_n) 0%nat) demo_state = (Ok tt, s1)
  ∧ ∃ s2,
      Database.atomic "" "" (Database.upsert_node (Some id_n) 0%nat) s1 = (Ok tt, s2)
      ∧ committed s2 = committed s1.
Proof.
  intros s1. split; [by_computation|]. split; [by_computation|].
  apply (upsert_node_idempotent "" "" id_n 0%nat {["a" := VInt 1]} demo_state s1);
    by_computation.
Defined.

Lemma atomic_one_unit_or_two_witness :
  let f := Database.add_node 0%nat (Some id_n) in
  let g := Database.add_node 4%nat (Some id_m) in
  let one := Database.atomic "" "" (f ;; g) demo_state in
  let two := Database.atomic "" "" g (Database.atomic "" "" f demo_state).2 in
  one.1 = two.1
  ∧ is_ok one.1 = false
  ∧ committed one.2 = committed demo_state
  ∧ committed two.2 = working (f (opened "" "" demo_state)).2.
Proof.
  intros f g one two.
  destruct (atomic_one_unit_or_two f g "" "" demo_state tt (f (opened "" "" demo_state)).2)
    as (Hsame & _ & Hfail).
  - apply (view_determined_run_op (OpAddNode 4%nat (Some id_m))).
  - apply (cursor_only_run_op (OpAddNode 0%nat (Some id_n))).
  - apply (cursor_only_run_op (OpAddNode 4%nat (Some id_m))).
  - by_computation.
  - split; [exact Hsame|]. split; [by_computation|]. apply Hfail. by_computation.
Defined.

(** ** X4, X5, X6 *)

Lemma remove_node_frees_identifier_witness :
  let s1 := (Database.atomic "" "" (Database.remove_node (Some id_A)) demo_state_AB).2 in
  (Database.atomic "" "" (Database.find_node (Some id_A)) s1).1 = Ok ∅
  ∧ ∃ s2,
      Database.atomic "" "" (Database.add_node 0%nat (Some id_A)) s1 = (Ok tt, s2)
      ∧ (Database.atomic "" "" (Database.find_node (Some id_A)) s2).1
        = Ok {["id" := VStr "A"; "a" := VInt 1]}.
Proof.
  intros s1.
  destruct (remove_node_frees_identifier "" "" id_A demo_state_AB) as (Hf & _ & _ & Hadd).
  split; [exact Hf|].
  destruct (Hadd 0%nat {["a" := VInt 1]}) as (s2 & H1 & H2); [by_computation..|].
  exists s2. split; [exact H1|]. by_computation_from H2.
Defined.



(** ** X7, X8, X9, X20 *)

Lemma add_nodes_stores_batch_witness :
  ∃ s',
    Database.atomic "" "" (Database.add_nodes [0%nat; 1%nat] [Some id_n; Some id_m]) demo_state
    = (Ok tt, s')
    ∧ nodes (committed s') !! id_m = Some {["id" := VStr "m"; "b" := VInt 2]}
    ∧ heap s' !! 1%nat = Some (ODict {["id" := VStr "m"; "b" := VInt 2]})
    ∧ heap s' !! 2%nat = heap demo_state !! 2%nat.
Proof.
  destruct (add_nodes_stores_batch "" "" [0%nat; 1%nat] [Some id_n; Some id_m] demo_state)
    as (s' & Hrun & Hin & _ & Hout).
  - apply (bool_decide_unpack _). by_computation.
  - apply (bool_decide_unpack _). by_computation.
  - intros p Hp. apply elem_of_cons in Hp as [->|Hp].
    + exists id_n, {["a" := VInt 1]}. repeat split; by_computation.
    + apply list_elem_of_singleton in Hp. subst p.
      exists id_m, {["b" := VInt 2]}. repeat split; by_computation.
  - destruct (Hin id_m 1%nat {["b" := VInt 2]}) as [Hn Hh].
    + apply list_elem_of_further, list_elem_of_here.
    + by_computation.
    + exists s'. split; [exact Hrun|]. split; [by_computation_from Hn|].
      split; [by_computation_from Hh|].
      apply Hout. apply (bool_decide_unpack _). by_computation.
Defined.

Lemma add_nodes_same_mapping_twice_witness :
  ∃ s',
    Database.atomic "" "" (Database.add_nodes [0%nat; 0%nat] [Some id_n; Some id_m]) demo_state
    = (Ok tt, s')
    ∧ nodes (committed s') !! id_n = Some {["id" := VStr "n"; "a" := VInt 1]}
    ∧ nodes (committed s') !! id_m = Some {["id" := VStr "m"; "a" := VInt 1]}
    ∧ heap s' !! 0%nat = Some (ODict {["id" := VStr "m"; "a" := VInt 1]}).
Proof.
  destruct (add_nodes_same_mapping_twice "" "" 0%nat {["a" := VInt 1]} id_n id_m demo_state)
    as (s' & Hrun & Hi & Hj & Hh);
    [by_computation | discriminate | by_computation..|].
  exists s'. split; [exact Hrun|].
  split; [by_computation_from Hi|]. split; [by_computation_from Hj|by_computation_from Hh].
Defined.

Lemma add_node_without_identifier_witness :
  let add := Database.atomic "" "" (Database.add_node 3%nat None) demo_state in
  let bare := Database.atomic "" "" (Database.add_node 0%nat None) demo_state in
  add.1 = Ok tt
  ∧ nodes (committed add.2) !! id_m = Some {["id" := VStr "m"]}
  ∧ bare.1 = Raise IntegrityError
  ∧ committed bare.2 = committed demo_state.
Proof.
  intros add bare.
  destruct (add_node_without_identifier "" "" 3%nat demo_state) as (_ & _ & Hid & _).
  destruct (Hid {["id" := VStr "m"]} id_m) as (Hr & Hn & _); [by_computation..|].
  destruct (add_node_without_identifier "" "" 0%nat demo_state) as (_ & _ & _ & Hnone).
  destruct (Hnone {["a" := VInt 1]}) as (Hr' & Hc'); [by_computation..|].
  split; [exact Hr|]. split; [exact Hn|]. split; [exact Hr'|exact Hc'].
Defined.

Lemma upsert_nodes_same_id_twice_witness :
  ∃ s',
    Database.atomic "" "" (Database.upsert_nodes [0%nat; 1%nat] [Some id_n; Some id_n])
      demo_state = (Ok tt, s')
    ∧ nodes (committed s') !! id_n = Some {["id" := VStr "n"; "a" := VInt 1; "b" := VInt 2]}
    ∧ heap s' !! 0%nat = Some (ODict {["id" := VStr "n"; "a" := VInt 1]})
    ∧ heap s' !! 1%nat = Some (ODict {["b" := VInt 2]}).
Proof.
  destruct (upsert_nodes_same_id_twice "" "" 0%nat 1%nat {["a" := VInt 1]} {["b" := VInt 2]}
              id_n demo_state) as (s' & Hrun & Hn & _ & H1 & H2);
    [discriminate | by_computation..|].
  exists s'. split; [exact Hrun|].
  split; [rewrite Hn; by_computation|]. split; [by_computation_from H1|exact H2].
Defined.

(** ** X10, X11 *)

Lemma traverse_with_bodies_witness :
  Forall three_or_empty rows_bodies
  ∧ (Database.traverse template_bodies "" "" (Some id_A) (Some (IdInt 2))
       Database.find_neighbors true demo_state).1
    = Ok [Database.PRow [CText "B"; CText "{}"; CText "x"];
          Database.PRow [CText "2"; CText "()"; CText "x"]].
Proof.
  assert (HF : Forall three_or_empty rows_bodies).
  { repeat constructor; first [left; reflexivity | right; reflexivity]. }
  split; [exact HF|].
  destruct (traverse_with_bodies template_bodies "" "" (Some id_A) (Some (IdInt 2))
              Database.find_neighbors demo_state) as [Hok _].
  etransitivity; [exact (proj1 (Hok HF))|]. by_computation.
Defined.

Lemma traverse_string_target_full_frontier_witness :
  (Database.traverse template_BC "" "" (Some id_A) (Some (IdStr "B"))
     Database.find_neighbors false demo_state).1
  = Ok [Database.PId (CText "B"); Database.PId (CText "C")].
Proof.
  etransitivity.
  - apply (traverse_string_target_full_frontier template_BC "" "" (Some id_A) "B"
             Database.find_neighbors demo_state).
    intros x Hx. apply elem_of_cons in Hx as [[= ->]|Hx]; [reflexivity|].
    apply list_elem_of_singleton in Hx. injection Hx as ->. reflexivity.
  - by_computation.
Defined.

(** ** X12, X13, X19 *)

Lemma add_node_embedding_sequence_witness :
  let r := SQLiteVSS.add_node_embedding embed_nil (Some id_n) 0%nat demo_state_emb in
  let first := SQLiteVSS.add_node_embedding embed_nil (Some id_n) 0%nat demo_state in
  let below := SQLiteVSS.add_node_embedding embed_nil (Some id_n) 0%nat demo_state_below_zero in
  r.1 = Ok tt
  ∧ nodes_embedding (committed r.2)
    = nodes_embedding store_emb ++ [mkEmbedding (CInt 3) []]
  ∧ nodes_embedding (committed first.2) = [mkEmbedding (CInt 1) []]
  ∧ nodes_embedding (committed below.2)
    = [mkEmbedding (CInt (-5)) []; mkEmbedding (CInt (-4)) []]
  ∧ is_ok (SQLiteVSS.add_node_embedding embed_down (Some id_n) 0%nat demo_state_emb).1 = false.
Proof.
  intros r first below.
  destruct (add_node_embedding_sequence embed_nil id_n 0%nat {["a" := VInt 1]} demo_state_emb)
    as [Hok _]; [by_computation..|].
  destruct (Hok [] eq_refl) as (Hr & Hrows & _).
  destruct (add_node_embedding_sequence embed_nil id_n 0%nat {["a" := VInt 1]} demo_state)
    as [Hok1 _]; [by_computation..|].
  destruct (Hok1 [] eq_refl) as (_ & Hrows1 & _).
  destruct (add_node_embedding_sequence embed_nil id_n 0%nat {["a" := VInt 1]}
              demo_state_below_zero) as [Hok2 _]; [by_computation..|].
  destruct (Hok2 [] eq_refl) as (_ & Hrows2 & _).
  destruct (add_node_embedding_sequence embed_down id_n 0%nat {["a" := VInt 1]} demo_state_emb)
    as [_ Hfail]; [by_computation..|].
  destruct (Hfail EmbeddingProviderError eq_refl) as [Hbad _].
  split; [exact Hr|]. split; [exact Hrows|]. split; [exact Hrows1|].
  split; [exact Hrows2|exact Hbad].
Defined.


Lemma add_then_delete_node_embedding_witness :
  let added := SQLiteVSS.add_node_embedding embed_nil (Some id_n) 0%nat demo_state_emb in
  let deleted := SQLiteVSS.delete_node_embedding (VList [VInt 3]) added.2 in
  let again := SQLiteVSS.add_node_embedding embed_nil (Some id_n) 0%nat deleted.2 in
  nodes_embedding (committed deleted.2) = nodes_embedding store_emb
  ∧ again.1 = Ok tt
  ∧ nodes_embedding (committed again.2)
    = nodes_embedding store_emb ++ [mkEmbedding (CInt 3) []].
Proof.
  intros added deleted again.
  destruct (add_then_delete_node_embedding embed_nil id_n 0%nat {["a" := VInt 1]} []
              demo_state_emb) as (_ & _ & Hold & Hr & _ & Hrows); [by_computation..|].
  split; [exact Hold|]. split; [exact Hr|exact Hrows].
Defined.

(** ** X14, X15 *)

Lemma add_edge_embedding_appends_witness :
  let r := SQLiteVSS.add_edge_embedding embed_edge_nil (Some id_A) (Some id_B) "knows"
             0%nat demo_state_emb in
  (r.1 = Ok tt
   ∧ relationship_embedding (committed r.2)
     = relationship_embedding store_emb ++ [mkEmbedding (CInt 4) []])
  ∧ SQLiteVSS.add_edge_embedding embed_edge_nil (Some id_A) (Some id_B) "knows"
      4%nat demo_state_emb = (Raise TypeError, demo_state_emb).
Proof.
  intros r. split.
  - destruct (add_edge_embedding_appends embed_edge_nil (Some id_A) (Some id_B) "knows"
                0%nat demo_state_emb) as (_ & _ & Hsome).
    destruct (Hsome {["a" := VInt 1]}) as (Hr & Hrows & _); [by_computation|].
    split; [exact Hr|exact Hrows].
  - destruct (add_edge_embedding_appends embed_edge_nil (Some id_A) (Some id_B) "knows"
                4%nat demo_state_emb) as (_ & Hnone & _).
    apply Hnone. by_computation.
Defined.

Lemma add_edge_embeddings_keep_earlier_witness :
  let s1 := (SQLiteVSS.add_edge_embedding embed_edge_nil (Some id_A) (Some id_B) "knows"
               0%nat demo_state_emb).2 in
  let r := SQLiteVSS.add_edge_embeddings embed_edge_nil [Some id_A; Some id_B]
             [Some id_B; Some id_A] ["knows"; "knows"] [0%nat; 4%nat] demo_state_emb in
  r.1 = Raise TypeError
  ∧ relationship_embedding (committed s1) `prefix_of` relationship_embedding (committed r.2)
  ∧ length (relationship_embedding (committed s1)) = 4%nat.
Proof.
  intros s1 r.
  destruct (add_edge_embeddings_keep_earlier embed_edge_nil [Some id_B] [Some id_A] ["knows"]
              [4%nat] demo_state_emb) as (_ & _ & Hfirst).
  destruct (Hfirst (Some id_A) (Some id_B) "knows" 0%nat s1) as (_ & Hp & Hlen);
    [by_computation|].
  split; [by_computation|]. split; [exact Hp|exact Hlen].
Defined.

(** ** X16, X17, X18 *)

Lemma vector_search_edge_answers_scan_witness :
  let r := (SQLiteVSS.vector_search_edge embed_nil edge_scan_up edge_scan_down "q"
              (Some 0.5%float) true 5 "distance" demo_state).1 in
  answers_scan SQLiteVSS.edge_hit_distance (Some 0.5%float) 5 [edge_hit_far; edge_hit_near] r
  ∧ r = Ok (Some [edge_hit_near]).
Proof.
  intros r. split; [|by_computation].
  exact (proj2 (proj2 (proj2
           (vector_search_edge_answers_scan embed_nil edge_scan_up edge_scan_down "q"
              (Some 0.5%float) true 5 "distance" demo_state)))).
Defined.

Lemma vector_search_node_from_multi_db_answers_scan_witness :
  let r := (SQLiteVSS.vector_search_node_from_multi_db embed_nil similarity_scan "q"
              (Some 0.5%float) 1 demo_state).1 in
  answers_scan SQLiteVSS.similarity_hit_distance (Some 0.5%float) 1
    [similar_near; similar_far; similar_nearest] r
  ∧ r = Ok (Some [similar_near]).
Proof.
  intros r. split; [|by_computation].
  exact (proj2 (proj2
           (vector_search_node_from_multi_db_answers_scan embed_nil similarity_scan "q"
              (Some 0.5%float) 1 demo_state))).
Defined.

Lemma vector_search_edge_from_multi_db_answers_scan_witness :
  let r := (SQLiteVSS.vector_search_edge_from_multi_db embed_nil similarity_scan "q"
              None 2 demo_state).1 in
  answers_scan SQLiteVSS.similarity_hit_distance None 2
    [similar_near; similar_far; similar_nearest] r
  ∧ r = Ok (Some [similar_near; similar_far])
  ∧ (SQLiteVSS.vector_search_node_from_multi_db embed_nil similarity_scan "q"
       None 2 demo_state).1 = r.
Proof.
  intros r.
  destruct (proj2 (proj2
              (vector_search_edge_from_multi_db_answers_scan embed_nil similarity_scan
                 similarity_scan "q" None 2 demo_state))) as [Hscan Hsame].
  split; [exact Hscan|]. split; [by_computation|]. apply Hsame. reflexivity.
Defined.
